(** * Vehicle / licence-plate preprocessing: a shallow embedding

    Embedding of the heuristic detection engine
    ([src/services/ImageProcessingService.ts]), of the orchestrator
    ([src/services/VehicleDetectionService.ts]), of the retrying uploader
    ([CloudUploadService.uploadWithRetry]), of the region scan of the plate
    detector ([src/services/LicensePlateDetector.ts]) and of the handlers of
    the application component ([MainApp]).

    Conventions.
    - A JavaScript [number] is a value of [num]: an exact rational, an
      infinity or [NaN].  Finite arithmetic is exact (binary rounding and
      signed zeros are left out); the exceptional values follow IEEE 754, so
      [0/0] is [NaN] and every comparison with [NaN] is false.
    - Integers that the source keeps integral (image sizes, grid cells, pixel
      channels, counters) are [Z].
    - A tensor is its row-major data ([tensor.data()]) together with the image
      width and height.
    - A [throw] is a value [Throw e] of [outcome]; [try ... catch] is [catch].
    - [tf.sqrt] and [Math.sqrt] are kept symbolic ([Surd]); the lemmas
      [gtq_sound] and [div_sound] relate the representation to the real
      square root. *)

From Stdlib Require Import ZArith QArith Qround Qabs List String Ascii Bool Lia.
From Stdlib Require Import DecimalString Decimal HexadecimalString Hexadecimal.
From Stdlib Require Import Reals Qreals Lra.
From Stdlib Require Lqa.
Import ListNotations.

Local Open Scope Z_scope.

(** ** JavaScript numbers *)

Module JS.

Inductive num : Type :=
| NaN
| Inf (negative : bool)
| Fin (q : Q).

Definition ofZ (z : Z) : num := Fin (inject_Z z).

Definition add (a b : num) : num :=
  match a, b with
  | NaN, _ | _, NaN => NaN
  | Inf s, Inf t => if Bool.eqb s t then Inf s else NaN
  | Inf s, Fin _ | Fin _, Inf s => Inf s
  | Fin x, Fin y => Fin (x + y)
  end.

Definition qneg (x : Q) : bool := negb (Qle_bool 0 x).

Definition mul (a b : num) : num :=
  match a, b with
  | NaN, _ | _, NaN => NaN
  | Inf s, Inf t => Inf (xorb s t)
  | Inf s, Fin y | Fin y, Inf s =>
      if Qeq_bool y 0 then NaN else Inf (xorb s (qneg y))
  | Fin x, Fin y => Fin (x * y)
  end.

(** [a / b]; a zero divisor is [+0]. *)
Definition div (a b : num) : num :=
  match a, b with
  | NaN, _ | _, NaN => NaN
  | Inf _, Inf _ => NaN
  | Inf s, Fin y => Inf (xorb s (qneg y))
  | Fin _, Inf _ => Fin 0
  | Fin x, Fin y =>
      if Qeq_bool y 0
      then (if Qeq_bool x 0 then NaN else Inf (qneg x))
      else Fin (x / y)
  end.

Definition neg (a : num) : num :=
  match a with
  | NaN => NaN
  | Inf s => Inf (negb s)
  | Fin x => Fin (- x)
  end.

Definition sub (a b : num) : num := add a (neg b).

(** [a > b] *)
Definition gt (a b : num) : bool :=
  match a, b with
  | NaN, _ | _, NaN => false
  | Inf s, Inf t => negb s && t
  | Inf s, Fin _ => negb s
  | Fin _, Inf t => t
  | Fin x, Fin y => negb (Qle_bool x y)
  end.

(** [a >= b] *)
Definition ge (a b : num) : bool :=
  match a, b with
  | NaN, _ | _, NaN => false
  | Inf s, Inf t => negb s || t
  | Inf s, Fin _ => negb s
  | Fin _, Inf t => t
  | Fin x, Fin y => Qle_bool y x
  end.

Definition lt (a b : num) : bool := gt b a.
Definition le (a b : num) : bool := ge b a.

(** [a === b] *)
Definition eqb (a b : num) : bool :=
  match a, b with
  | Inf s, Inf t => Bool.eqb s t
  | Fin x, Fin y => Qeq_bool x y
  | _, _ => false
  end.

(** [Math.max(a, b)] *)
Definition max (a b : num) : num :=
  match a, b with
  | NaN, _ | _, NaN => NaN
  | _, _ => if gt b a then b else a
  end.

(** [Math.min(a, b)] *)
Definition min (a b : num) : num :=
  match a, b with
  | NaN, _ | _, NaN => NaN
  | _, _ => if gt a b then b else a
  end.

(** The value is zero or [NaN]: what [0 / m] is for every [m]. *)
Definition zero_or_nan (a : num) : Prop :=
  match a with
  | NaN => True
  | Inf _ => False
  | Fin x => x == 0
  end.

(** The value lies in the closed interval [[0,1]]. *)
Definition in_unit (a : num) : Prop :=
  match a with
  | Fin x => (0 <= x /\ x <= 1)%Q
  | _ => False
  end.

End JS.


(** ** Square roots

    [tf.sqrt] and [Math.sqrt] are applied to non-negative rationals only, and
    the program only divides such roots by one another and compares them with
    rational constants.  A root is kept by its radicand: [MSqrt q] is the
    real number [sqrt q]. *)

Module Surd.

Inductive mag : Type :=
| MNaN
| MInf
| MSqrt (radicand : Q).

Definition radicand (m : mag) : Q :=
  match m with MSqrt q => q | _ => 0 end.

(** [sqrt a / sqrt m = sqrt (a / m)]; [0/0] is [NaN]. *)
Definition div (a m : mag) : mag :=
  match a, m with
  | MNaN, _ | _, MNaN => MNaN
  | MInf, MInf => MNaN
  | MInf, MSqrt _ => MInf
  | MSqrt _, MInf => MSqrt 0
  | MSqrt x, MSqrt y =>
      if Qeq_bool y 0
      then (if Qeq_bool x 0 then MNaN else MInf)
      else MSqrt (x / y)
  end.

(** [a > c] for a rational [c]: [sqrt q > c] iff [c < 0] or [q > c^2]. *)
Definition gtq (a : mag) (c : Q) : bool :=
  match a with
  | MNaN => false
  | MInf => true
  | MSqrt q => negb (Qle_bool 0 c) || negb (Qle_bool q (c * c))
  end.

(** The larger of two roots. *)
Definition max (a b : mag) : mag :=
  match a, b with
  | MNaN, _ | _, MNaN => MNaN
  | MInf, _ | _, MInf => MInf
  | MSqrt x, MSqrt y => if Qle_bool x y then MSqrt y else MSqrt x
  end.

(** The root and the number are the same real (both [NaN] counts). *)
Definition same (a : mag) (n : JS.num) : bool :=
  match a, n with
  | MNaN, JS.NaN => true
  | MInf, JS.Inf false => true
  | MSqrt q, JS.Fin x => Qle_bool 0 x && Qeq_bool (x * x) q
  | _, _ => false
  end.

End Surd.

(** ** Exceptions *)

Inductive outcome (A : Type) : Type :=
| Ok (a : A)
| Throw (e : string).
Arguments Ok {A} a.
Arguments Throw {A} e.

Definition bind {A B : Type} (m : outcome A) (k : A -> outcome B) : outcome B :=
  match m with
  | Ok a => k a
  | Throw e => Throw e
  end.

Notation "x <- m ;; k" := (bind m (fun x => k))
  (at level 61, m at next level, right associativity).

(** [try { return body } catch (error) { console.error(..); return null }] *)
Definition catch {A : Type} (body : outcome (option A)) : option A :=
  match body with
  | Ok r => r
  | Throw _ => None
  end.

(** ** Lists indexed by integers *)

(** [a[i]] with [undefined] replaced by [d] (also for a negative index). *)
Definition nthZ {A : Type} (l : list A) (i : Z) (d : A) : A :=
  if i <? 0 then d else nth (Z.to_nat i) l d.

(** The integers [lo, lo+1, ..., hi-1]. *)
Definition zrange (lo hi : Z) : list Z :=
  map (fun k => lo + Z.of_nat k) (seq 0 (Z.to_nat (hi - lo))).

(** ** Data model ([src/types/detection.ts]) *)

Record BoundingBox : Type := mkBox {
  bbox_x : Z;
  bbox_y : Z;
  bbox_width : Z;
  bbox_height : Z
}.

Inductive VehicleType : Type := front | rear | side.

Record VehicleRegion : Type := mkVehicle {
  v_type : VehicleType;
  v_bbox : BoundingBox;
  v_confidence : JS.num
}.

Record LicensePlateRegion : Type := mkPlate {
  p_bbox : BoundingBox;
  p_confidence : JS.num
}.

Record LogoRegion : Type := mkLogo {
  l_bbox : BoundingBox;
  l_confidence : JS.num
}.

Record RGB : Type := mkRGB { r : Z; g : Z; b : Z }.

Record ColorInfo : Type := mkColor {
  dominant : string;
  name : string;
  c_confidence : JS.num;
  rgb : RGB
}.

Record ProcessingConfig : Type := mkConfig {
  minVehicleConfidence : JS.num;
  minPlateConfidence : JS.num;
  minLogoConfidence : JS.num;
  autoUploadToCloud : bool;
  cloudEndpoint : string
}.

Inductive UploadStatus : Type := pending | uploading | uploaded | failed.

(** [id], [timestamp], [imageBase64] and [processingTimeMs] come from the
    clock, the random generator and the file system and are left out. *)
Record VehicleDetectionResult : Type := mkResult {
  imageUri : string;
  vehicleRegion : option VehicleRegion;
  licensePlate : option LicensePlateRegion;
  logoRegion : option LogoRegion;
  vehicleColor : option ColorInfo;
  imageWidth : Z;
  imageHeight : Z;
  isReadyForCloud : bool;
  cloudUploadStatus : UploadStatus
}.

(** The payload built for the cloud.  [detectionId], [imageBase64] and
    [metadata.timestamp] copy the fields that the result record leaves
    out. *)
Record CloudUploadPayload : Type := mkPayload {
  boxes_vehicle : option BoundingBox;
  boxes_licensePlate : option BoundingBox;
  boxes_logo : option BoundingBox;
  info_type : option VehicleType;
  info_color : option ColorInfo;
  meta_deviceInfo : string;
  meta_imageWidth : Z;
  meta_imageHeight : Z
}.

(** ** Tensors ([@tensorflow/tfjs])

    A decoded image is a rank-3 tensor of shape [[height, width, 3]]; it is kept
    as its shape and its pixels in row-major order. *)

Record Image : Type := mkImage {
  height : Z;
  width : Z;
  pixels : list RGB
}.

Module TF.

(** The kernels of the numeric backend that the detectors call.  Any of them
    can throw (lost context, exhausted memory, ...): a backend says which
    do, with the error they throw. *)
Inductive op : Type :=
| Mean | Conv2d | Abs | Sqrt | Max | Div | Greater | Slice | Data.

Definition Backend : Type := op -> option string.

Definition healthy : Backend := fun _ => None.

Definition run {A : Type} (be : Backend) (o : op) (v : A) : outcome A :=
  match be o with
  | Some e => Throw e
  | None => Ok v
  end.

(** [imageTensor.mean(2)]: the mean of the three channels. *)
Definition mean2 (img : Image) : list Q :=
  map (fun p => inject_Z (r p + g p + b p) / 3)%Q (pixels img).

Definition sobelX : list (list Q) :=
  [[-1; 0; 1]; [-2; 0; 2]; [-1; 0; 1]]%Q.
Definition sobelY : list (list Q) :=
  [[-1; -2; -1]; [0; 0; 0]; [1; 2; 1]]%Q.
Definition laplacian : list (list Q) :=
  [[0; 1; 0]; [1; -4; 1]; [0; 1; 0]]%Q.

(** The input at row [y], column [x]; zero outside the tensor (the padding
    of ['same']). *)
Definition at_ (h w : Z) (data : list Q) (y x : Z) : Q :=
  if (0 <=? y) && (y <? h) && (0 <=? x) && (x <? w)
  then nthZ data (y * w + x) 0%Q
  else 0%Q.

(** One output of [tf.conv2d(input, kernel, 1, 'same')] for a 3x3 kernel:
    the kernel is laid over the neighbourhood centred at [(y, x)]. *)
Definition conv_at (k : list (list Q)) (h w : Z) (data : list Q) (y x : Z) : Q :=
  fold_left
    (fun acc i =>
       fold_left
         (fun acc j =>
            (acc + nthZ (nthZ k i []) j 0 * at_ h w data (y + i - 1) (x + j - 1))%Q)
         (zrange 0 3) acc)
    (zrange 0 3) 0%Q.

Definition conv2d (k : list (list Q)) (h w : Z) (data : list Q) : list Q :=
  flat_map (fun y => map (fun x => conv_at k h w data y x) (zrange 0 w))
           (zrange 0 h).

(** [tf.sqrt(tf.add(tf.square(gx), tf.square(gy)))], elementwise. *)
Definition magnitude (gx gy : list Q) : list Surd.mag :=
  map (fun p => Surd.MSqrt (fst p * fst p + snd p * snd p)%Q) (combine gx gy).

(** [t.max()] of a field of magnitudes.  (Of an empty field it is
    [-Infinity] in tfjs; nothing is ever divided by it then, the field
    having no element.) *)
Definition max_mag (l : list Surd.mag) : Surd.mag :=
  fold_left Surd.max l (Surd.MSqrt 0).

(** [t.max()] of a field of numbers. *)
Definition max (l : list Q) : JS.num :=
  match l with
  | [] => JS.Inf true
  | x :: l' => JS.Fin (fold_left (fun m y => if Qle_bool m y then y else m) l' x)
  end.

(** [tf.abs(t)] *)
Definition abs (l : list Q) : list Q := map Qabs l.

End TF.

(** ** [ImageProcessingService] *)

Module ImageProcessingService.

Import TF.

(** *** [detectVehicleRegion] *)

Definition gridSize : Z := 8.

(** The two inner loops: the number of set entries of [edgeData] in the
    window that starts at [(startX, startY)]. *)
Definition countEdges (edgeData : list bool) (imageWidth imageHeight : Z)
           (startX startY regionWidth regionHeight : Z) : Z :=
  fold_left
    (fun density y =>
       fold_left
         (fun density x =>
            let idx := y * imageWidth + x in
            if nthZ edgeData idx false then density + 1 else density)
         (zrange startX (Z.min (startX + regionWidth) imageWidth)) density)
    (zrange startY (Z.min (startY + regionHeight) imageHeight)) 0.

(** The window whose top-left grid cell is [(gx, gy)]. *)
Definition window (imageWidth imageHeight gx gy : Z) : BoundingBox :=
  let cellWidth := imageWidth / gridSize in
  let cellHeight := imageHeight / gridSize in
  mkBox (gx * cellWidth) (gy * cellHeight) (cellWidth * 3) (cellHeight * 3).

(** [density] of the window after [density /= (regionWidth * regionHeight)]. *)
Definition density (edgeData : list bool) (imageWidth imageHeight gx gy : Z)
  : JS.num :=
  let w := window imageWidth imageHeight gx gy in
  JS.div
    (JS.ofZ (countEdges edgeData imageWidth imageHeight
                        (bbox_x w) (bbox_y w) (bbox_width w) (bbox_height w)))
    (JS.ofZ (bbox_width w * bbox_height w)).

(** The body of the inner [gx] loop: the state is [(maxDensity, bestRegion)]. *)
Definition visit (edgeData : list bool) (imageWidth imageHeight : Z)
           (st : JS.num * BoundingBox) (gy gx : Z) : JS.num * BoundingBox :=
  let d := density edgeData imageWidth imageHeight gx gy in
  if JS.gt d (fst st)
  then (d, window imageWidth imageHeight gx gy)
  else st.

(** [for (gy = 0; gy < gridSize - 2; gy++) for (gx = 0; gx < gridSize - 2; gx++)] *)
Definition scan (edgeData : list bool) (imageWidth imageHeight : Z)
  : JS.num * BoundingBox :=
  fold_left
    (fun st gy =>
       fold_left
         (fun st gx => visit edgeData imageWidth imageHeight st gy gx)
         (zrange 0 (gridSize - 2)) st)
    (zrange 0 (gridSize - 2))
    (JS.Fin 0, mkBox 0 0 0 0).

(** The code after the scan. *)
Definition vehicleDecision (imageHeight : Z) (st : JS.num * BoundingBox)
  : option VehicleRegion :=
  let maxDensity := fst st in
  let bestRegion := snd st in
  if JS.gt maxDensity (JS.Fin 0.05)
  then
    let centerY :=
      (inject_Z (bbox_y bestRegion) + inject_Z (bbox_height bestRegion) / 2)%Q in
    let type :=
      if negb (Qle_bool centerY (inject_Z imageHeight * 0.5)) then rear else front in
    Some (mkVehicle type bestRegion
                    (JS.min (JS.mul maxDensity (JS.Fin 5)) (JS.Fin 0.95)))
  else None.

(** The normalized gradient magnitude: [magnitude.div(maxVal)]. *)
Definition gradientMagnitude (be : Backend) (img : Image)
  : outcome (list Surd.mag) :=
  gray <- run be Mean (mean2 img) ;;
  gradX <- run be Conv2d (conv2d sobelX (height img) (width img) gray) ;;
  gradY <- run be Conv2d (conv2d sobelY (height img) (width img) gray) ;;
  magnitude <- run be Sqrt (TF.magnitude gradX gradY) ;;
  maxVal <- run be Max (max_mag magnitude) ;;
  run be Div (map (fun m => Surd.div m maxVal) magnitude).

(** The thresholded field: [threshold.data()]. *)
Definition edgeMask (be : Backend) (img : Image) : outcome (list bool) :=
  normalized <- gradientMagnitude be img ;;
  threshold <- run be Greater (map (fun m => Surd.gtq m 0.15) normalized) ;;
  run be Data threshold.

Definition detectVehicleRegion (be : Backend) (imageTensor : Image)
           (imageWidth imageHeight : Z) : option VehicleRegion :=
  catch (
    edgeData <- edgeMask be imageTensor ;;
    Ok (vehicleDecision imageHeight (scan edgeData imageWidth imageHeight))).

(** *** Loops over fractional positions *)

(** [for (v = start; v < stop; v += step)]: the values of [v] at which the
    body runs, at most [fuel] of them. *)
Fixpoint qloop (fuel : nat) (v stop step : Q) : list Q :=
  match fuel with
  | O => []
  | S fuel' =>
      if negb (Qle_bool stop v)
      then v :: qloop fuel' (v + step) stop step
      else []
  end.

(** The number of trips of the loop when [step] is positive. *)
Definition trips (start stop step : Q) : nat :=
  Z.to_nat (Qceiling ((stop - start) / step)).

Definition qfor (start stop step : Q) : list Q :=
  qloop (trips start stop step) start stop step.

(** *** [detectLicensePlateRegion] *)

Record Candidate : Type := mkCandidate {
  c_bbox : BoundingBox;
  score : JS.num
}.

(** [(searchStartX, searchStartY, searchEndX, searchEndY)] *)
Definition plateSearch (imageWidth imageHeight : Z)
           (vehicleRegion : option VehicleRegion) : Q * Q * Q * Q :=
  match vehicleRegion with
  | Some v =>
      let bb := v_bbox v in
      (inject_Z (bbox_x bb),
       inject_Z (bbox_y bb) + inject_Z (bbox_height bb) * 0.3,
       inject_Z (bbox_x bb) + inject_Z (bbox_width bb),
       inject_Z (bbox_y bb) + inject_Z (bbox_height bb))%Q
  | None =>
      (0%Q, inject_Z (Qfloor (inject_Z imageHeight * 0.4)),
       inject_Z imageWidth, inject_Z imageHeight)
  end.

(** [plateSizes], as pairs [(w, h)]. *)
Definition plateSizes (imageWidth : Z) : list (Q * Q) :=
  [ (inject_Z imageWidth * 0.25, inject_Z imageWidth * 0.065);
    (inject_Z imageWidth * 0.15, inject_Z imageWidth * 0.075) ]%Q.

(** [(edgeData[idx] || 0) / maxEdge] at [idx = floor(py) * imageWidth + floor(px)]. *)
Definition edgeVal (edgeData : list Q) (maxEdge : JS.num) (imageWidth : Z)
           (py px : Q) : JS.num :=
  let idx := Qfloor py * imageWidth + Qfloor px in
  JS.div (JS.Fin (nthZ edgeData idx 0%Q)) maxEdge.

(** The [dy]/[dx] loops: [(edgeDensity, horizontalEdges)] before the division. *)
Definition plateSums (edgeData : list Q) (maxEdge : JS.num) (imageWidth : Z)
           (x y w h : Q) : JS.num * Z :=
  fold_left
    (fun acc dy =>
       fold_left
         (fun acc dx =>
            let e := edgeVal edgeData maxEdge imageWidth
                             (y + inject_Z dy) (x + inject_Z dx) in
            (JS.add (fst acc) e,
             if JS.gt e (JS.Fin 0.3) then snd acc + 1 else snd acc))
         (zrange 0 (Qceiling w)) acc)
    (zrange 0 (Qceiling h)) (JS.Fin 0, 0).

(** The body of the [x] loop: the candidate pushed at [(x, y)], if any. *)
Definition plateCandidate (edgeData : list Q) (maxEdge : JS.num) (imageWidth : Z)
           (w h y x : Q) : option Candidate :=
  let sums := plateSums edgeData maxEdge imageWidth x y w h in
  let edgeDensity := JS.div (fst sums) (JS.Fin (w * h)) in
  let horizontalRatio := JS.div (JS.ofZ (snd sums)) (JS.Fin (w * h)) in
  if JS.gt edgeDensity (JS.Fin 0.15) && JS.gt horizontalRatio (JS.Fin 0.1)
  then Some (mkCandidate
               (mkBox (Qfloor x) (Qfloor y) (Qfloor w) (Qfloor h))
               (JS.add (JS.mul edgeDensity (JS.Fin 0.6))
                       (JS.mul horizontalRatio (JS.Fin 0.4))))
  else None.

(** [candidates], in the order they are pushed. *)
Definition plateCandidates (edgeData : list Q) (maxEdge : JS.num)
           (imageWidth imageHeight : Z) (vehicleRegion : option VehicleRegion)
  : list Candidate :=
  let '(searchStartX, searchStartY, searchEndX, searchEndY) :=
    plateSearch imageWidth imageHeight vehicleRegion in
  flat_map
    (fun size =>
       let w := fst size in
       let h := snd size in
       let stepX := (w * 0.3)%Q in
       let stepY := (h * 0.5)%Q in
       flat_map
         (fun y =>
            flat_map
              (fun x =>
                 match plateCandidate edgeData maxEdge imageWidth w h y x with
                 | Some c => [c]
                 | None => []
                 end)
              (qfor searchStartX (searchEndX - w) stepX))
         (qfor searchStartY (searchEndY - h) stepY))
    (plateSizes imageWidth).

(** [candidates.sort((a, b) => b.score - a.score)]: the sort is stable, and
    [a] goes behind [b] when the comparator is positive. *)
Fixpoint insert (a : Candidate) (l : list Candidate) : list Candidate :=
  match l with
  | [] => [a]
  | b :: l' =>
      if JS.gt (JS.sub (score b) (score a)) (JS.Fin 0)
      then b :: insert a l'
      else a :: l
  end.

Definition sort (l : list Candidate) : list Candidate :=
  fold_right insert [] l.

(** The fields that [detectLicensePlateRegion] reads: [(edgeData, maxEdge)]. *)
Definition plateEdges (be : Backend) (img : Image) : outcome (list Q * JS.num) :=
  gray <- run be Mean (mean2 img) ;;
  conv <- run be Conv2d (conv2d sobelX (height img) (width img) gray) ;;
  edges <- run be Abs (abs conv) ;;
  edgeData <- run be Data edges ;;
  maxEdgeTensor <- run be Max (TF.max edges) ;;
  maxEdge <- run be Data maxEdgeTensor ;;
  Ok (edgeData, maxEdge).

Definition detectLicensePlateRegion (be : Backend) (imageTensor : Image)
           (imageWidth imageHeight : Z) (vehicleRegion : option VehicleRegion)
  : option LicensePlateRegion :=
  catch (
    ed <- plateEdges be imageTensor ;;
    let candidates :=
      plateCandidates (fst ed) (snd ed) imageWidth imageHeight vehicleRegion in
    match sort candidates with
    | [] => Ok None
    | best :: _ =>
        Ok (Some (mkPlate (c_bbox best)
                          (JS.min (JS.mul (score best) (JS.Fin 2)) (JS.Fin 0.9))))
    end).

(** *** [detectLogoRegion] *)

(** [(searchCenterX, searchCenterY, searchRadius)] *)
Definition logoSearch (imageWidth imageHeight : Z)
           (vehicleRegion : option VehicleRegion) : Q * Q * Q :=
  match vehicleRegion with
  | Some v =>
      let bb := v_bbox v in
      (inject_Z (bbox_x bb) + inject_Z (bbox_width bb) / 2,
       inject_Z (bbox_y bb) + inject_Z (bbox_height bb) * 0.2,
       inject_Z (bbox_width bb) * 0.3)%Q
  | None =>
      (inject_Z imageWidth / 2, inject_Z imageHeight * 0.3,
       inject_Z imageWidth * 0.3)%Q
  end.

Definition logoSizes (imageWidth : Z) : list Q :=
  [ inject_Z imageWidth * 0.06; inject_Z imageWidth * 0.08;
    inject_Z imageWidth * 0.1 ]%Q.

(** The [dy]/[dx] loops: [(blobScore, pixelCount)] before the division. *)
Definition blobSums (responseData : list Q) (maxResponse : JS.num)
           (imageWidth imageHeight : Z) (x y halfSize : Q) : JS.num * Z :=
  fold_left
    (fun acc dy =>
       fold_left
         (fun acc dx =>
            let dist := Surd.MSqrt (dx * dx + dy * dy) in
            if Surd.gtq dist halfSize then acc
            else
              let px := Qfloor (x + dx) in
              let py := Qfloor (y + dy) in
              if (px <? 0) || (py <? 0) || (imageWidth <=? px) || (imageHeight <=? py)
              then acc
              else
                let idx := py * imageWidth + px in
                (JS.add (fst acc)
                        (JS.div (JS.Fin (nthZ responseData idx 0%Q)) maxResponse),
                 snd acc + 1))
         (qfor (- halfSize) halfSize 1) acc)
    (qfor (- halfSize) halfSize 1) (JS.Fin 0, 0).

(** The body of the [x] loop; the state is [bestLogo]. *)
Definition logoVisit (responseData : list Q) (maxResponse : JS.num)
           (imageWidth imageHeight : Z) (logoSize : Q)
           (bestLogo : option Candidate) (y x : Q) : option Candidate :=
  let halfSize := (logoSize / 2)%Q in
  if negb (Qle_bool halfSize x) || negb (Qle_bool halfSize y)
     || negb (Qle_bool x (inject_Z imageWidth - halfSize))
     || negb (Qle_bool y (inject_Z imageHeight - halfSize))
  then bestLogo
  else
    let sums := blobSums responseData maxResponse imageWidth imageHeight
                         x y halfSize in
    if 0 <? snd sums
    then
      let blobScore := JS.div (fst sums) (JS.ofZ (snd sums)) in
      let found :=
        Some (mkCandidate
                (mkBox (Qfloor (x - halfSize)) (Qfloor (y - halfSize))
                       (Qfloor logoSize) (Qfloor logoSize))
                blobScore) in
      match bestLogo with
      | None => found
      | Some best => if JS.gt blobScore (score best) then found else bestLogo
      end
    else bestLogo.

(** The three nested loops over sizes and positions. *)
Definition logoScan (responseData : list Q) (maxResponse : JS.num)
           (imageWidth imageHeight : Z) (vehicleRegion : option VehicleRegion)
  : option Candidate :=
  let '(searchCenterX, searchCenterY, searchRadius) :=
    logoSearch imageWidth imageHeight vehicleRegion in
  fold_left
    (fun bestLogo logoSize =>
       fold_left
         (fun bestLogo y =>
            fold_left
              (fun bestLogo x =>
                 logoVisit responseData maxResponse imageWidth imageHeight
                           logoSize bestLogo y x)
              (qfor (searchCenterX - searchRadius) (searchCenterX + searchRadius)
                    (logoSize * 0.5))
              bestLogo)
         (qfor (searchCenterY - searchRadius) (searchCenterY + searchRadius)
               (logoSize * 0.5))
         bestLogo)
    (logoSizes imageWidth) None.

Definition logoDecision (bestLogo : option Candidate) : option LogoRegion :=
  match bestLogo with
  | Some best =>
      if JS.gt (score best) (JS.Fin 0.1)
      then Some (mkLogo (c_bbox best)
                        (JS.min (JS.mul (score best) (JS.Fin 3)) (JS.Fin 0.85)))
      else None
  | None => None
  end.

(** The fields that [detectLogoRegion] reads: [(responseData, maxResponse)]. *)
Definition logoResponse (be : Backend) (img : Image) : outcome (list Q * JS.num) :=
  gray <- run be Mean (mean2 img) ;;
  conv <- run be Conv2d (conv2d laplacian (height img) (width img) gray) ;;
  response <- run be Abs (abs conv) ;;
  responseData <- run be Data response ;;
  maxResponseTensor <- run be Max (TF.max response) ;;
  maxResponse <- run be Data maxResponseTensor ;;
  Ok (responseData, maxResponse).

Definition detectLogoRegion (be : Backend) (imageTensor : Image)
           (imageWidth imageHeight : Z) (vehicleRegion : option VehicleRegion)
  : option LogoRegion :=
  catch (
    rd <- logoResponse be imageTensor ;;
    Ok (logoDecision
          (logoScan (fst rd) (snd rd) imageWidth imageHeight vehicleRegion))).

(** *** [detectVehicleColor] *)

(** The data of [t.slice([beginY, beginX, 0], [sizeH, sizeW, 3])], one entry
    per pixel.  A size of [-1] takes the rest of the axis, any
    other negative size throws, and so does a slice that leaves the tensor.
    The data are the channels divided by 255 in single precision; the loop
    reads them back with [Math.round(v * 255)], which returns the channel
    itself, so the entries are kept as the channels. *)
Definition slice (img : Image) (beginY beginX sizeH sizeW : Z)
  : outcome (list RGB) :=
  if ((sizeH <? 0) && negb (sizeH =? -1)) || ((sizeW <? 0) && negb (sizeW =? -1))
  then Throw "Negative size values should be exactly -1"
  else
    let sizeH' := if sizeH <? 0 then height img - beginY else sizeH in
    let sizeW' := if sizeW <? 0 then width img - beginX else sizeW in
    if (height img <? beginY + sizeH') || (width img <? beginX + sizeW')
    then Throw "Error in slice3D: begin + size would overflow input.shape"
    else
      Ok (flat_map
            (fun y =>
               map (fun x => nthZ (pixels img) (y * width img + x) (mkRGB 0 0 0))
                   (zrange beginX (beginX + sizeW')))
            (zrange beginY (beginY + sizeH'))).

(** [t.slice(begin, size)] on the backend [be]. *)
Definition sliceOn (be : Backend) (img : Image) (beginY beginX sizeH sizeW : Z)
  : outcome (list RGB) :=
  ready <- run be Slice tt ;;
  slice img beginY beginX sizeH sizeW.

(** [(regionData, regionWidth, regionHeight)] *)
Definition colorRegion (be : Backend) (img : Image)
           (vehicleRegion : option VehicleRegion) : outcome (list RGB * Z * Z) :=
  match vehicleRegion with
  | Some v =>
      let bb := v_bbox v in
      normalized <- run be Div img ;;
      cropped <- sliceOn be normalized
                   (Z.max 0 (bbox_y bb)) (Z.max 0 (bbox_x bb))
                   (Z.min (bbox_height bb) (height img - bbox_y bb))
                   (Z.min (bbox_width bb) (width img - bbox_x bb)) ;;
      regionData <- run be Data cropped ;;
      Ok (regionData,
          Z.min (bbox_width bb) (width img - bbox_x bb),
          Z.min (bbox_height bb) (height img - bbox_y bb))
  | None =>
      let startY := Qfloor (inject_Z (height img) * 0.3) in
      let startX := Qfloor (inject_Z (width img) * 0.2) in
      let cropHeight := Qfloor (inject_Z (height img) * 0.4) in
      let cropWidth := Qfloor (inject_Z (width img) * 0.6) in
      sliced <- sliceOn be img startY startX cropHeight cropWidth ;;
      cropped <- run be Div sliced ;;
      regionData <- run be Data cropped ;;
      Ok (regionData, cropWidth, cropHeight)
  end.

(** One entry of [colorHistogram]. *)
Record Bucket : Type := mkBucket {
  count : Z;
  sum_r : Z;
  sum_g : Z;
  sum_b : Z
}.

(** The key [`${qr},${qg},${qb}`], kept as the triple. *)
Definition Key : Type := (Z * Z * Z)%type.

Definition key_eqb (k1 k2 : Key) : bool :=
  let '(a1, b1, c1) := k1 in
  let '(a2, b2, c2) := k2 in
  (a1 =? a2) && (b1 =? b2) && (c1 =? c2).

Definition keyOf (p : RGB) : Key :=
  (r p / 32 * 32, g p / 32 * 32, b p / 32 * 32).

(** The body of the pixel loop.  The object keeps its keys in the order of
    their first insertion. *)
Fixpoint addPixel (p : RGB) (hist : list (Key * Bucket)) : list (Key * Bucket) :=
  match hist with
  | [] => [(keyOf p, mkBucket 1 (r p) (g p) (b p))]
  | (k, e) :: hist' =>
      if key_eqb k (keyOf p)
      then (k, mkBucket (count e + 1) (sum_r e + r p) (sum_g e + g p)
                        (sum_b e + b p)) :: hist'
      else (k, e) :: addPixel p hist'
  end.

Definition colorHistogram (regionData : list RGB) : list (Key * Bucket) :=
  fold_left (fun hist p => addPixel p hist) regionData [].

(** [Math.round] *)
Definition round (q : Q) : Z := Qfloor (q + 1 / 2).

(** [dominantColor], as [(rgb, count)]. *)
Definition dominantColor (hist : list (Key * Bucket)) : RGB * Z :=
  fold_left
    (fun dom ke =>
       let color := snd ke in
       if snd dom <? count color
       then (mkRGB (round (inject_Z (sum_r color) / inject_Z (count color)))
                   (round (inject_Z (sum_g color) / inject_Z (count color)))
                   (round (inject_Z (sum_b color) / inject_Z (count color))),
             count color)
       else dom)
    hist (mkRGB 0 0 0, 0).

Record HSL : Type := mkHSL { h : JS.num; s : JS.num; l : JS.num }.

(** [rgbToHsl].  The arithmetic is exact, as everywhere (see the
    conventions), where the source rounds each operation to a double.  The
    two agree up to that rounding, so a component that lies within a
    rounding error of a limit of [getColorName] (a hue of exactly 250, say)
    can fall on the other side of the limit in the source.  What is stated
    about names below is stated of colours that are away from the limits
    (the greys, the navy of the sample) or does not depend on the side (the
    ranges of the components, the absence of the fallback name). *)
Definition rgbToHsl (r g b : Z) : HSL :=
  let r := JS.div (JS.ofZ r) (JS.Fin 255) in
  let g := JS.div (JS.ofZ g) (JS.Fin 255) in
  let b := JS.div (JS.ofZ b) (JS.Fin 255) in
  let max := JS.max (JS.max r g) b in
  let min := JS.min (JS.min r g) b in
  let l := JS.div (JS.add max min) (JS.Fin 2) in
  let '(h, s) :=
    if negb (JS.eqb max min)
    then
      let d := JS.sub max min in
      let s := if JS.gt l (JS.Fin 0.5)
               then JS.div d (JS.sub (JS.sub (JS.Fin 2) max) min)
               else JS.div d (JS.add max min) in
      let h :=
        if JS.eqb max r
        then JS.div (JS.add (JS.div (JS.sub g b) d)
                            (if JS.lt g b then JS.Fin 6 else JS.Fin 0))
                    (JS.Fin 6)
        else if JS.eqb max g
        then JS.div (JS.add (JS.div (JS.sub b r) d) (JS.Fin 2)) (JS.Fin 6)
        else if JS.eqb max b
        then JS.div (JS.add (JS.div (JS.sub r g) d) (JS.Fin 4)) (JS.Fin 6)
        else JS.Fin 0 in
      (h, s)
    else (JS.Fin 0, JS.Fin 0) in
  mkHSL (JS.mul h (JS.Fin 360)) (JS.mul s (JS.Fin 100)) (JS.mul l (JS.Fin 100)).

(** [x.toString(16)] *)
Definition toString16 (x : Z) : string :=
  HexadecimalString.NilZero.string_of_int (Z.to_hex_int x).

Definition rgbToHex (r g b : Z) : string :=
  ("#" ++ String.concat ""
     (map (fun x =>
             let hex := toString16 x in
             if Nat.eqb (String.length hex) 1 then "0" ++ hex else hex)
          [r; g; b]))%string.

Definition getColorName (h s l : JS.num) : string :=
  if JS.ge l (JS.Fin 85) && JS.le s (JS.Fin 15) then "Trắng"
  else if JS.le l (JS.Fin 15) then "Đen"
  else if JS.le s (JS.Fin 15) && JS.gt l (JS.Fin 55) && JS.lt l (JS.Fin 85)
  then "Bạc"
  else if JS.le s (JS.Fin 15) then "Xám"
  else if (JS.ge h (JS.Fin 0) && JS.le h (JS.Fin 20)) || JS.ge h (JS.Fin 340)
  then "Đỏ"
  else if JS.gt h (JS.Fin 20) && JS.le h (JS.Fin 45) then "Cam"
  else if JS.gt h (JS.Fin 45) && JS.le h (JS.Fin 65) then "Vàng"
  else if JS.gt h (JS.Fin 65) && JS.le h (JS.Fin 160) then "Xanh lá"
  else if JS.gt h (JS.Fin 160) && JS.le h (JS.Fin 200) then "Xanh ngọc"
  else if JS.gt h (JS.Fin 200) && JS.le h (JS.Fin 250) then "Xanh dương"
  else if JS.gt h (JS.Fin 250) && JS.le h (JS.Fin 290) then "Tím"
  else if JS.gt h (JS.Fin 290) && JS.lt h (JS.Fin 340) then "Hồng"
  else "Không xác định".

(** The code after the region has been read. *)
Definition classify (regionData : list RGB) (regionWidth regionHeight : Z)
  : ColorInfo :=
  let pixelCount := regionWidth * regionHeight in
  let dom := dominantColor (colorHistogram regionData) in
  let c := fst dom in
  let hsl := rgbToHsl (r c) (g c) (b c) in
  mkColor (rgbToHex (r c) (g c) (b c))
          (getColorName (h hsl) (s hsl) (l hsl))
          (JS.div (JS.ofZ (snd dom)) (JS.ofZ pixelCount))
          c.

Definition detectVehicleColor (be : Backend) (imageTensor : Image)
           (vehicleRegion : option VehicleRegion) : option ColorInfo :=
  catch (
    region <- colorRegion be imageTensor vehicleRegion ;;
    let '(regionData, regionWidth, regionHeight) := region in
    Ok (Some (classify regionData regionWidth regionHeight))).

(** The number of pixels that a histogram has counted. *)
Definition counted (hist : list (Key * Bucket)) : Z :=
  fold_right (fun ke acc => count (snd ke) + acc) 0 hist.

End ImageProcessingService.

(** ** [VehicleDetectionService] *)

Module VehicleDetectionService.

Import ImageProcessingService.

(** The initial value of the private field [config]. *)
Definition config : ProcessingConfig :=
  mkConfig (JS.Fin 0.5) (JS.Fin 0.4) (JS.Fin 0.3) false
           "https://your-cloud-api.com/process".

(** The service object: [config] and [isInitialized]. *)
Record Service : Type := mkService {
  this_config : ProcessingConfig;
  isInitialized : bool
}.

(** [!!((vehicleRegion && vehicleRegion.confidence >= minVehicleConfidence) ||
        (licensePlate && licensePlate.confidence >= minPlateConfidence))] *)
Definition readyForCloud (cfg : ProcessingConfig)
           (vehicleRegion : option VehicleRegion)
           (licensePlate : option LicensePlateRegion) : bool :=
  match vehicleRegion with
  | Some v => JS.ge (v_confidence v) (minVehicleConfidence cfg)
  | None => false
  end
  ||
  match licensePlate with
  | Some p => JS.ge (p_confidence p) (minPlateConfidence cfg)
  | None => false
  end.

(** [processImage(imageUri)].  [decoded] is what reading the file and
    [decodeJpeg] give: the image tensor, or the error they throw.
    [uploadToCloud] has no suspension point before it sets the status to
    ['uploaded'], so an automatic upload has finished when [processImage]
    returns. *)
Definition processImage (this : Service) (be : TF.Backend)
           (uri : string) (decoded : outcome Image)
  : outcome VehicleDetectionResult :=
  if negb (isInitialized this) then Throw "Service not initialized"
  else
    imageTensor <- decoded ;;
    let imageHeight := height imageTensor in
    let imageWidth := width imageTensor in
    let vehicleRegion :=
      detectVehicleRegion be imageTensor imageWidth imageHeight in
    let licensePlate :=
      detectLicensePlateRegion be imageTensor imageWidth imageHeight vehicleRegion in
    let logoRegion :=
      detectLogoRegion be imageTensor imageWidth imageHeight vehicleRegion in
    let vehicleColor := detectVehicleColor be imageTensor vehicleRegion in
    let isReadyForCloud :=
      readyForCloud (this_config this) vehicleRegion licensePlate in
    Ok (mkResult uri vehicleRegion licensePlate logoRegion vehicleColor
                 imageWidth imageHeight isReadyForCloud
                 (if autoUploadToCloud (this_config this) && isReadyForCloud
                  then uploaded else pending)).

(** [setConfig({ minLogoConfidence: m })] *)
Definition withLogoThreshold (this : Service) (m : JS.num) : Service :=
  let c := this_config this in
  mkService (mkConfig (minVehicleConfidence c) (minPlateConfidence c) m
                      (autoUploadToCloud c) (cloudEndpoint c))
            (isInitialized this).

(** [initialize()]; [ready] is what [await tf.ready()] gives.  The value is
    the boolean that is returned and the service afterwards. *)
Definition initialize (this : Service) (ready : outcome unit) : bool * Service :=
  match ready with
  | Ok _ => (true, mkService (this_config this) true)
  | Throw _ => (false, this)
  end.

(** A [Partial<ProcessingConfig>]: each key is absent or holds a value. *)
Record PartialConfig : Type := mkPartial {
  new_minVehicleConfidence : option JS.num;
  new_minPlateConfidence : option JS.num;
  new_minLogoConfidence : option JS.num;
  new_autoUploadToCloud : option bool;
  new_cloudEndpoint : option string
}.

(** The value of one key of [{ ...old, ...new }]. *)
Definition spread {A : Type} (old : A) (new : option A) : A :=
  match new with
  | Some a => a
  | None => old
  end.

(** [this.config = { ...this.config, ...config }] *)
Definition setConfig (this : Service) (config : PartialConfig) : Service :=
  let c := this_config this in
  mkService
    (mkConfig (spread (minVehicleConfidence c) (new_minVehicleConfidence config))
              (spread (minPlateConfidence c) (new_minPlateConfidence config))
              (spread (minLogoConfidence c) (new_minLogoConfidence config))
              (spread (autoUploadToCloud c) (new_autoUploadToCloud config))
              (spread (cloudEndpoint c) (new_cloudEndpoint config)))
    (isInitialized this).

Definition isReady (this : Service) : bool := isInitialized this.

Definition dispose (this : Service) : Service :=
  mkService (this_config this) false.

Definition prepareCloudPayload (result : VehicleDetectionResult)
  : CloudUploadPayload :=
  mkPayload (option_map v_bbox (vehicleRegion result))
            (option_map p_bbox (licensePlate result))
            (option_map l_bbox (logoRegion result))
            (option_map v_type (vehicleRegion result))
            (vehicleColor result)
            "React Native / Expo"
            (imageWidth result)
            (imageHeight result).

(** [uploadToCloud(result)]: the request itself is commented out in the
    source, so the status goes from ['uploading'] to ['uploaded'] and the
    call returns [true].  The value is the boolean and the result object
    afterwards. *)
Definition uploadToCloud (result : VehicleDetectionResult)
  : bool * VehicleDetectionResult :=
  (true,
   mkResult (imageUri result) (vehicleRegion result) (licensePlate result)
            (logoRegion result) (vehicleColor result)
            (imageWidth result) (imageHeight result)
            (isReadyForCloud result) uploaded).

End VehicleDetectionService.

(** ** [CloudUploadService] *)

Module CloudUploadService.

(** The value that [upload] resolves to. *)
Record UploadResult : Type := mkUpload {
  success : bool;
  jobId : option string;
  error : option string
}.

(** What the uploader does to the outside world: the calls of [upload], in
    order, and the delays it waits for (milliseconds). *)
Record World : Type := mkWorld {
  calls : nat;
  delays : list Z
}.

Definition decimal (n : Z) : string :=
  DecimalString.NilZero.string_of_int (Z.to_int n).

(** [result.error || 'Unknown error'] *)
Definition orUnknown (e : option string) : string :=
  match e with
  | Some EmptyString | None => "Unknown error"
  | Some msg => msg
  end.

(** [{ success: false, error: `Failed after ${maxRetries} attempts: ${lastError}` }] *)
Definition exhausted (maxRetries : Z) (lastError : string) : UploadResult :=
  mkUpload false None
    (Some ("Failed after " ++ decimal maxRetries ++ " attempts: " ++ lastError)%string).

Section Retry.

Variable Payload : Type.

(** [this.upload(payload)]: the transport answers the [n]-th call (counted
    from 0) with [transport payload n]. *)
Variable transport : Payload -> nat -> UploadResult.

Definition upload (payload : Payload) (w : World) : UploadResult * World :=
  (transport payload (calls w), mkWorld (S (calls w)) (delays w)).

(** [await new Promise(resolve => setTimeout(resolve, delay))] *)
Definition sleep (delay : Z) (w : World) : World :=
  mkWorld (calls w) (delays w ++ [delay]).

(** The loop [for (attempt = ..; attempt <= maxRetries; attempt++)], with
    [left] iterations to go. *)
Fixpoint attempts (left : nat) (payload : Payload) (maxRetries attempt : Z)
         (lastError : string) (w : World) : UploadResult * World :=
  match left with
  | O => (exhausted maxRetries lastError, w)
  | S left' =>
      let (result, w1) := upload payload w in
      if success result then (result, w1)
      else
        let lastError := orUnknown (error result) in
        let w2 := if attempt <? maxRetries
                  then sleep (2 ^ attempt * 1000) w1
                  else w1 in
        attempts left' payload maxRetries (attempt + 1) lastError w2
  end.

Definition uploadWithRetry (payload : Payload) (maxRetries : Z) (w : World)
  : UploadResult * World :=
  attempts (Z.to_nat maxRetries) payload maxRetries 1 "" w.

End Retry.

(** The retry loop again, over [this.upload] as a function on the world:
    the loop of [attempts], with the call of [upload] left open. *)
Section RetryOver.

Variable Payload : Type.

(** [this.upload(payload)] *)
Variable uploadImpl : Payload -> World -> UploadResult * World.

Fixpoint attemptsOver (left : nat) (payload : Payload) (maxRetries attempt : Z)
         (lastError : string) (w : World) : UploadResult * World :=
  match left with
  | O => (exhausted maxRetries lastError, w)
  | S left' =>
      let (result, w1) := uploadImpl payload w in
      if success result then (result, w1)
      else
        let lastError := orUnknown (error result) in
        let w2 := if attempt <? maxRetries
                  then sleep (2 ^ attempt * 1000) w1
                  else w1 in
        attemptsOver left' payload maxRetries (attempt + 1) lastError w2
  end.

Definition uploadWithRetryOver (payload : Payload) (maxRetries : Z) (w : World)
  : UploadResult * World :=
  attemptsOver (Z.to_nat maxRetries) payload maxRetries 1 "" w.

End RetryOver.

(** [upload] as it is shipped.  The request is commented out: the call logs
    a summary of the payload, waits 500 ms
    ([await new Promise(resolve => setTimeout(resolve, 500))]) and answers
    [{ success: true, jobId: `job_${Date.now()}` }]; [now n] is the clock
    when the call number [n] answers. *)
Definition shippedUpload {Payload : Type} (now : nat -> Z) (payload : Payload)
           (w : World) : UploadResult * World :=
  (mkUpload true (Some ("job_" ++ decimal (now (calls w)))%string) None,
   sleep 500 (mkWorld (S (calls w)) (delays w))).

End CloudUploadService.

(** ** [LicensePlateDetector] *)

Module LicensePlateDetector.

(** [Detection] ([src/types/index.ts]); [bbox] is [[x, y, width, height]]. *)
Record Detection : Type := mkDetection {
  bbox : Z * Z * Z * Z;
  class : string;
  score : JS.num
}.

(** An entry of [regions]. *)
Record Region : Type := mkRegion {
  x : Z;
  y : Z;
  density : Q
}.

Definition regionSize : Z := 50.

(** [for (let v = start; v < stop; v += step)] over integers, with the
    values of [v] in order; [fuel] bounds the number of trips. *)
Fixpoint zloop (fuel : nat) (v stop step : Z) : list Z :=
  match fuel with
  | O => []
  | S fuel' =>
      if v <? stop
      then v :: zloop fuel' (v + step) stop step
      else []
  end.

(** With a step of at least 1 the loop has left after [stop - start] trips. *)
Definition zfor (start stop step : Z) : list Z :=
  zloop (Z.to_nat (stop - start)) start stop step.

(** The [dy]/[dx] loops and the division: [density] of the region at
    [(x, y)].  The loop [for (dy = 0; dy < regionSize && y + dy < height; dy++)]
    runs over [0 <= dy < min(regionSize, height - y)], and likewise for [dx];
    [edgeData[idx] || 0] is 0 outside the data. *)
Definition regionDensity (edgeData : list Q) (height width y x : Z) : Q :=
  Qdiv
    (fold_left
       (fun density dy =>
          fold_left
            (fun density dx =>
               let idx := (y + dy) * width + (x + dx) in
               (density + nthZ edgeData idx 0)%Q)
            (zrange 0 (Z.min regionSize (width - x))) density)
       (zrange 0 (Z.min regionSize (height - y))) 0%Q)
    (inject_Z (regionSize * regionSize)).

(** [regions], in the order they are pushed. *)
Definition scanRegions (edgeData : list Q) (height width : Z) : list Region :=
  flat_map
    (fun y =>
       flat_map
         (fun x =>
            let density := regionDensity edgeData height width y x in
            if negb (Qle_bool density 0.1%Q)
            then [mkRegion x y density]
            else [])
         (zfor 0 (width - regionSize) (regionSize / 2)))
    (zfor 0 (height - regionSize) (regionSize / 2)).

(** [regions.sort((a, b) => b.density - a.density)]: the sort is stable, and
    [a] goes behind [b] when the comparator is positive. *)
Fixpoint insert (a : Region) (l : list Region) : list Region :=
  match l with
  | [] => [a]
  | b :: l' =>
      if negb (Qle_bool (density b - density a)%Q 0%Q)
      then b :: insert a l'
      else a :: l
  end.

Definition sort (l : list Region) : list Region :=
  fold_right insert [] l.

(** The body of the loop over [topRegions]: what it pushes for [region]. *)
Definition detectionOf (height width : Z) (region : Region) : list Detection :=
  let plateWidth := Z.min (regionSize * 3) (width - x region) in
  let plateHeight := Z.min regionSize (height - y region) in
  let ratio := JS.div (JS.ofZ plateWidth) (JS.ofZ plateHeight) in
  if JS.ge ratio (JS.Fin 1.5) && JS.le ratio (JS.Fin 6)
  then [mkDetection (x region, y region, plateWidth, plateHeight)
                    "license_plate"
                    (JS.min (JS.mul (JS.Fin (density region)) (JS.Fin 2))
                            (JS.Fin 0.95))]
  else [].

(** [detections] after the loops over the edge data. *)
Definition detectionsFrom (edgeData : list Q) (height width : Z) : list Detection :=
  let regions := scanRegions edgeData height width in
  let topRegions := firstn 3 (sort regions) in
  flat_map (detectionOf height width) topRegions.

Section Detector.

(** What the tensor operations of [detectFromTensor] give for an image: the
    data of [edges], the gradient magnitudes in row-major order, or the
    error that one of the operations throws. *)
Variable edgesOf : Image -> outcome (list Q).

(** [detectFromTensor(imageTensor)] on a detector whose flag
    [isInitialized] has the given value.  An error inside [try] is logged and
    the detections pushed so far, none, are returned. *)
Definition detectFromTensor (isInitialized : bool) (imageTensor : Image)
  : outcome (list Detection) :=
  if negb isInitialized
  then Throw "Detector not initialized. Call initialize() first."
  else
    Ok (match edgesOf imageTensor with
        | Ok edgeData =>
            detectionsFrom edgeData (height imageTensor) (width imageTensor)
        | Throw _ => []
        end).

(** [detectFromImageUri(imageUri)]; [decoded] is what reading the file and
    [decodeJpeg] give. *)
Definition detectFromImageUri (isInitialized : bool) (decoded : outcome Image)
  : outcome (list Detection) :=
  if negb isInitialized
  then Throw "Detector not initialized. Call initialize() first."
  else
    match (imageTensor <- decoded ;; detectFromTensor isInitialized imageTensor) with
    | Ok detections => Ok detections
    | Throw _ => Ok []
    end.

End Detector.

End LicensePlateDetector.

(** ** [MainApp] *)

Module App.

(** ['camera' | 'result' | 'history'] *)
Inductive AppScreen : Type := on_camera | on_result | on_history.

(** The state of [MainApp] that its handlers read and write, and the titles
    of the alerts shown so far.  [isProcessing] and [isUploading] are set
    when a handler starts and cleared when it ends. *)
Record State : Type := mkState {
  currentScreen : AppScreen;
  isServiceReady : bool;
  detectionResult : option VehicleDetectionResult;
  history : list VehicleDetectionResult;
  alerts : list string
}.

Definition alert (title : string) (st : State) : State :=
  mkState (currentScreen st) (isServiceReady st) (detectionResult st)
          (history st) (alerts st ++ [title]).

(** The effect that initialises the service; [success] is the value of
    [vehicleDetectionService.initialize()]. *)
Definition init (success : bool) (st : State) : State :=
  let st' := mkState (currentScreen st) success (detectionResult st)
                     (history st) (alerts st) in
  if negb success then alert "Lỗi" st' else st'.

(** [handleCapture(uri)]; [processed] is what
    [vehicleDetectionService.processImage(uri)] gives. *)
Definition handleCapture (processed : outcome VehicleDetectionResult) (st : State)
  : State :=
  if negb (isServiceReady st) then alert "Chưa sẵn sàng" st
  else
    match processed with
    | Ok result =>
        mkState on_result (isServiceReady st) (Some result)
                (firstn 50 (result :: history st)) (alerts st)
    | Throw _ => alert "Lỗi xử lý" st
    end.

Definition handleRetake (st : State) : State :=
  mkState on_camera (isServiceReady st) None (history st) (alerts st).

(** [{ ...prev, cloudUploadStatus: 'uploaded' }] *)
Definition markUploaded (prev : VehicleDetectionResult) : VehicleDetectionResult :=
  mkResult (imageUri prev) (vehicleRegion prev) (licensePlate prev)
           (logoRegion prev) (vehicleColor prev)
           (imageWidth prev) (imageHeight prev)
           (isReadyForCloud prev) uploaded.

(** [handleUploadToCloud()]; the transport answers the calls of [upload].
    The button of the success alert calls [handleRetake] when it is pressed,
    which is a later call of that handler. *)
Definition handleUploadToCloud
           (transport : CloudUploadPayload -> nat -> CloudUploadService.UploadResult)
           (st : State) (w : CloudUploadService.World)
  : State * CloudUploadService.World :=
  match detectionResult st with
  | None => (st, w)
  | Some current =>
      let payload := VehicleDetectionService.prepareCloudPayload current in
      let (result, w') :=
        CloudUploadService.uploadWithRetry CloudUploadPayload transport payload 3 w in
      if CloudUploadService.success result
      then
        let st' := alert "Thành công" st in
        (mkState (currentScreen st') (isServiceReady st')
                 (Some (markUploaded current))
                 (history st') (alerts st'),
         w')
      else (alert "Lỗi" st, w')
  end.

Definition handleClearHistory (st : State) : State :=
  mkState (currentScreen st) (isServiceReady st) (detectionResult st) []
          (alerts st).

Definition handleSelectHistoryItem (item : VehicleDetectionResult) (st : State)
  : State :=
  mkState on_result (isServiceReady st) (Some item) (history st) (alerts st).

(** A call of one of the handlers that work on the state alone. *)
Inductive Event : Type :=
| Capture (processed : outcome VehicleDetectionResult)
| Retake
| ClearHistory
| SelectHistoryItem (item : VehicleDetectionResult).

Definition handle (st : State) (ev : Event) : State :=
  match ev with
  | Capture processed => handleCapture processed st
  | Retake => handleRetake st
  | ClearHistory => handleClearHistory st
  | SelectHistoryItem item => handleSelectHistoryItem item st
  end.

End App.

(** ** Sample inputs *)

Module Sample.

Definition white : RGB := mkRGB 255 255 255.
Definition black : RGB := mkRGB 0 0 0.
Definition navy : RGB := mkRGB 26 26 46.

(** An image of one colour. *)
Definition solid (h w : Z) (p : RGB) : Image :=
  mkImage h w (repeat p (Z.to_nat (h * w))).

(** An 8x8 image, white where [f y x] holds and black elsewhere. *)
Definition mask8 (f : Z -> Z -> bool) : Image :=
  mkImage 8 8
    (flat_map (fun y => map (fun x => if f y x then white else black) (zrange 0 8))
              (zrange 0 8)).

(** The rightmost column is white. *)
Definition rightColumn : Image := mask8 (fun _ x => x =? 7).

(** One white pixel in the top row, second column. *)
Definition dot : Image := mask8 (fun y x => (y =? 0) && (x =? 1)).

(** A backend whose convolution kernel throws. *)
Definition brokenConv : TF.Backend :=
  fun o => match o with
           | TF.Conv2d => Some "Failed to compile fragment shader"%string
           | _ => None
           end.

Definition service : VehicleDetectionService.Service :=
  VehicleDetectionService.mkService VehicleDetectionService.config true.

(** A transport that fails twice and then succeeds. *)
Definition flaky (_ : unit) (n : nat) : CloudUploadService.UploadResult :=
  match n with
  | 0%nat => CloudUploadService.mkUpload false None (Some "timeout"%string)
  | 1%nat =>
      CloudUploadService.mkUpload false None (Some "HTTP error! status: 503"%string)
  | _ => CloudUploadService.mkUpload true (Some "job_3"%string) None
  end.

(** A transport that always fails. *)
Definition down (_ : unit) (n : nat) : CloudUploadService.UploadResult :=
  CloudUploadService.mkUpload false None (Some "Network request failed"%string).

(** Edge data that are 1 everywhere. *)
Definition allEdges (img : Image) : outcome (list Q) :=
  Ok (repeat 1%Q (Z.to_nat (height img * width img))).

(** A cloud that rejects the first upload and accepts the second. *)
Definition busy (_ : CloudUploadPayload) (n : nat) : CloudUploadService.UploadResult :=
  match n with
  | 0%nat => CloudUploadService.mkUpload false None (Some "HTTP error! status: 429"%string)
  | _ => CloudUploadService.mkUpload true (Some "job_7"%string) None
  end.

(** A result with a plate and nothing else. *)
Definition plateOnly : VehicleDetectionResult :=
  mkResult "file:///car.jpg" None
           (Some (mkPlate (mkBox 5 3 1 0) (JS.Fin 0.9))) None None 8 8 true pending.

(** [MainApp] once the service is ready. *)
Definition started : App.State :=
  App.mkState App.on_camera true None [] [].

End Sample.

(** * Properties *)

(** ** Cloud readiness *)

Section Readiness.

Import VehicleDetectionService.

Lemma readyForCloud_iff cfg v p :
  readyForCloud cfg v p = true <->
  (exists vr, v = Some vr /\
              JS.ge (v_confidence vr) (minVehicleConfidence cfg) = true) \/
  (exists lp, p = Some lp /\
              JS.ge (p_confidence lp) (minPlateConfidence cfg) = true).
Proof.
  unfold readyForCloud. rewrite orb_true_iff. split.
  - intros [H | H]; [left | right].
    + destruct v as [vr |]; [eauto | discriminate].
    + destruct p as [lp |]; [eauto | discriminate].
  - intros [[vr [-> H]] | [lp [-> H]]]; [left | right]; exact H.
Qed.

Lemma processImage_inv this be uri img res :
  processImage this be uri (Ok img) = Ok res ->
  isInitialized this = true /\
  res = mkResult uri
          (vehicleRegion res) (licensePlate res) (logoRegion res)
          (vehicleColor res) (width img) (height img)
          (readyForCloud (this_config this) (vehicleRegion res) (licensePlate res))
          (cloudUploadStatus res).
Proof.
  unfold processImage. destruct (isInitialized this); simpl; [| discriminate].
  intros H. injection H as <-. split; reflexivity.
Qed.

(** C1. For every processed image, [isReadyForCloud] is true exactly when a
    vehicle region was emitted with confidence at least
    [minVehicleConfidence] or a plate region was emitted with confidence at
    least [minPlateConfidence]; the defaults are 0.5 and 0.4; neither the
    logo result nor [minLogoConfidence] enters the decision: the flag is
    the same under every other logo threshold. *)
Theorem ready_for_cloud_iff this be uri img res :
  processImage this be uri (Ok img) = Ok res ->
  (isReadyForCloud res = true <->
   (exists vr, vehicleRegion res = Some vr /\
               JS.ge (v_confidence vr)
                     (minVehicleConfidence (this_config this)) = true) \/
   (exists lp, licensePlate res = Some lp /\
               JS.ge (p_confidence lp)
                     (minPlateConfidence (this_config this)) = true))
  /\ (forall m, exists res',
         processImage (withLogoThreshold this m) be uri (Ok img) = Ok res' /\
         isReadyForCloud res' = isReadyForCloud res)
  /\ minVehicleConfidence config = JS.Fin 0.5
  /\ minPlateConfidence config = JS.Fin 0.4.
Proof.
  intros H. destruct (processImage_inv _ _ _ _ _ H) as [Hinit Hres].
  split; [| split; [| split; reflexivity]].
  - rewrite Hres at 1. simpl. apply readyForCloud_iff.
  - intros m. revert H. unfold processImage, withLogoThreshold. simpl.
    rewrite Hinit. simpl. intros H. injection H as <-.
    eexists. split; reflexivity.
Qed.

End Readiness.

Lemma ready_for_cloud_iff_witness :
  exists res,
    VehicleDetectionService.processImage Sample.service TF.healthy "file:///dot.jpg"
                                         (Ok Sample.dot) = Ok res /\
    isReadyForCloud res = true.
Proof.
  eexists. split; [vm_compute; reflexivity |].
  apply (ready_for_cloud_iff Sample.service TF.healthy "file:///dot.jpg" Sample.dot).
  - vm_compute. reflexivity.
  - left. eexists. split; vm_compute; reflexivity.
Defined.

(** ** Upload with retry *)

Section Retry.

Import CloudUploadService.

Variable Payload : Type.
Variable transport : Payload -> nat -> UploadResult.
Variable payload : Payload.
Variable maxRetries : Z.

Local Abbreviation exhausted := (CloudUploadService.exhausted maxRetries).

Lemma attempts_success left attempt lastError w k :
  (k < left)%nat ->
  (forall j, (j < k)%nat -> success (transport payload (calls w + j)) = false) ->
  success (transport payload (calls w + k)) = true ->
  let out := attempts Payload transport left payload maxRetries attempt lastError w in
  fst out = transport payload (calls w + k) /\
  calls (snd out) = (calls w + k + 1)%nat.
Proof.
  revert attempt lastError w k.
  induction left as [| left IH]; intros attempt lastError w k Hk Hfail Hok; [lia |].
  cbn [attempts upload].
  destruct k as [| k].
  - rewrite Nat.add_0_r in Hok. rewrite Hok. cbn. rewrite Nat.add_0_r.
    split; [reflexivity | lia].
  - assert (H0 : success (transport payload (calls w)) = false).
    { specialize (Hfail 0%nat). rewrite Nat.add_0_r in Hfail. apply Hfail. lia. }
    rewrite H0.
    match goal with
    | |- context [attempts _ _ _ _ _ _ ?e ?w'] =>
        specialize (IH (attempt + 1) e w' k)
    end.
    assert (Hc : forall w1, calls (if attempt <? maxRetries
                                   then sleep (2 ^ attempt * 1000) w1 else w1)
                            = calls w1)
      by (intros w1; destruct (attempt <? maxRetries); reflexivity).
    rewrite Hc in IH. cbn [calls] in IH.
    replace (calls w + S k)%nat with (S (calls w) + k)%nat by lia.
    replace (calls w + S k + 1)%nat with (S (calls w) + k + 1)%nat by lia.
    apply IH.
    + lia.
    + intros j Hj. replace (S (calls w) + j)%nat with (calls w + S j)%nat by lia.
      apply Hfail. lia.
    + replace (S (calls w) + k)%nat with (calls w + S k)%nat by lia. exact Hok.
Qed.

Lemma attempts_exhausted left attempt lastError w :
  (forall j, (j < left)%nat -> success (transport payload (calls w + j)) = false) ->
  let out := attempts Payload transport left payload maxRetries attempt lastError w in
  fst out = exhausted (match left with
                       | O => lastError
                       | S n => orUnknown (error (transport payload (calls w + n)))
                       end) /\
  calls (snd out) = (calls w + left)%nat.
Proof.
  revert attempt lastError w.
  induction left as [| left IH]; intros attempt lastError w Hfail.
  - cbn. split; [reflexivity | lia].
  - cbn [attempts upload].
    assert (H0 : success (transport payload (calls w)) = false).
    { specialize (Hfail 0%nat). rewrite Nat.add_0_r in Hfail. apply Hfail. lia. }
    rewrite H0.
    match goal with
    | |- context [attempts _ _ _ _ _ _ ?e ?w'] =>
        specialize (IH (attempt + 1) e w')
    end.
    assert (Hc : forall w1, calls (if attempt <? maxRetries
                                   then sleep (2 ^ attempt * 1000) w1 else w1)
                            = calls w1)
      by (intros w1; destruct (attempt <? maxRetries); reflexivity).
    rewrite Hc in IH. cbn [calls] in IH.
    destruct IH as [IH1 IH2].
    { intros j Hj. replace (S (calls w) + j)%nat with (calls w + S j)%nat by lia.
      apply Hfail. lia. }
    split.
    + rewrite IH1. destruct left as [| n].
      * rewrite Nat.add_0_r. reflexivity.
      * replace (S (calls w) + n)%nat with (calls w + S n)%nat by lia. reflexivity.
    + rewrite IH2. lia.
Qed.

(** C8. For [maxRetries >= 1]: when attempt [k+1] is the first that succeeds
    (and [k < maxRetries]), [uploadWithRetry] returns that attempt's result,
    job id included, after exactly [k+1] calls of [upload]; when all
    [maxRetries] attempts fail, it has called [upload] exactly [maxRetries]
    times and returns the failure without job id whose error is the text
    "Failed after ", the decimal numeral of [maxRetries], " attempts: " and
    the reason of the last attempt (or "Unknown error" when that attempt
    gave no reason or an empty one). *)
Theorem upload_with_retry_spec (w : World) :
  1 <= maxRetries ->
  (forall k, (k < Z.to_nat maxRetries)%nat ->
     (forall j, (j < k)%nat -> success (transport payload (calls w + j)) = false) ->
     success (transport payload (calls w + k)) = true ->
     let out := uploadWithRetry Payload transport payload maxRetries w in
     fst out = transport payload (calls w + k) /\
     jobId (fst out) = jobId (transport payload (calls w + k)) /\
     calls (snd out) = (calls w + k + 1)%nat)
  /\
  ((forall j, (j < Z.to_nat maxRetries)%nat ->
      success (transport payload (calls w + j)) = false) ->
   let out := uploadWithRetry Payload transport payload maxRetries w in
   let lastError :=
     match error (transport payload (calls w + (Z.to_nat maxRetries - 1))) with
     | Some EmptyString | None => "Unknown error"%string
     | Some reason => reason
     end in
   fst out
   = mkUpload false None
              (Some ("Failed after " ++ decimal maxRetries ++ " attempts: "
                     ++ lastError)%string) /\
   calls (snd out) = (calls w + Z.to_nat maxRetries)%nat).
Proof.
  intros Hmax. split.
  - intros k Hk Hfail Hok. unfold uploadWithRetry.
    destruct (attempts_success (Z.to_nat maxRetries) 1 "" w k Hk Hfail Hok) as [H1 H2].
    cbv zeta. rewrite H1. auto.
  - intros Hfail. unfold uploadWithRetry.
    destruct (attempts_exhausted (Z.to_nat maxRetries) 1 "" w Hfail) as [H1 H2].
    cbv zeta. rewrite H1, H2.
    destruct (Z.to_nat maxRetries) as [| n] eqn:E; [lia |].
    replace (S n - 1)%nat with n by lia. split; reflexivity.
Qed.

End Retry.

Lemma upload_with_retry_spec_witness :
  let w0 := CloudUploadService.mkWorld 0 [] in
  (let out := CloudUploadService.uploadWithRetry unit Sample.flaky tt 3 w0 in
   CloudUploadService.success (fst out) = true /\
   CloudUploadService.jobId (fst out) = Some "job_3"%string /\
   CloudUploadService.calls (snd out) = 3%nat /\
   CloudUploadService.delays (snd out) = [2000; 4000]) /\
  (let out := CloudUploadService.uploadWithRetry unit Sample.down tt 3 w0 in
   CloudUploadService.error (fst out)
     = Some "Failed after 3 attempts: Network request failed"%string /\
   CloudUploadService.calls (snd out) = 3%nat).
Proof.
  pose (w0 := CloudUploadService.mkWorld 0 []).
  assert (H3 : 1 <= 3) by lia.
  destruct (upload_with_retry_spec unit Sample.flaky tt 3 w0 H3) as [Hs _].
  destruct (upload_with_retry_spec unit Sample.down tt 3 w0 H3) as [_ Hf].
  specialize (Hs 2%nat).
  split.
  - destruct Hs as [E1 [E2 E3]].
    + vm_compute. lia.
    + intros j Hj. destruct j as [| [| j]]; [reflexivity | reflexivity | lia].
    + reflexivity.
    + cbv zeta. fold w0. rewrite E1, E3. repeat split; reflexivity.
  - destruct Hf as [E1 E3].
    + intros j _. reflexivity.
    + cbv zeta. fold w0. rewrite E1, E3. split; reflexivity.
Defined.

(** ** Numbers *)

Lemma Qle_bool_false x y : Qle_bool x y = false <-> (y < x)%Q.
Proof.
  split; intros H.
  - apply Qnot_le_lt. intros Hle. apply Qle_bool_iff in Hle. congruence.
  - destruct (Qle_bool x y) eqn:E; [| reflexivity].
    apply Qle_bool_iff in E. exfalso. exact (Qlt_not_le _ _ H E).
Qed.

Lemma gt_Fin x y : JS.gt (JS.Fin x) (JS.Fin y) = true <-> (y < x)%Q.
Proof.
  simpl. rewrite negb_true_iff. apply Qle_bool_false.
Qed.

Lemma gt_Fin_false x y : JS.gt (JS.Fin x) (JS.Fin y) = false <-> (x <= y)%Q.
Proof.
  simpl. rewrite negb_false_iff. apply Qle_bool_iff.
Qed.

(** A number above a positive rational is that rational's better, or
    [+Infinity]. *)
Lemma gt_Fin_inv a c :
  JS.gt a (JS.Fin c) = true ->
  a = JS.Inf false \/ exists x, a = JS.Fin x /\ (c < x)%Q.
Proof.
  destruct a as [| [|] | x]; simpl; try discriminate; intros H.
  - left. reflexivity.
  - right. exists x. split; [reflexivity |].
    apply Qle_bool_false. apply negb_true_iff. exact H.
Qed.

(** [Math.min(a * k, cap)] lies in the unit interval as soon as [a] exceeds
    a non-negative threshold. *)
Lemma capped_in_unit a t k cap :
  JS.gt a (JS.Fin t) = true ->
  (0 <= t)%Q -> (0 < k)%Q -> (0 <= cap)%Q -> (cap <= 1)%Q ->
  JS.in_unit (JS.min (JS.mul a (JS.Fin k)) (JS.Fin cap)).
Proof.
  intros Ha Ht Hk Hc0 Hc1.
  destruct (gt_Fin_inv _ _ Ha) as [-> | [x [-> Hx]]].
  - simpl. destruct (Qeq_bool k 0) eqn:E.
    + apply Qeq_bool_eq in E. rewrite E in Hk. exfalso. exact (Qlt_irrefl _ Hk).
    + unfold JS.qneg. assert (E' : Qle_bool 0 k = true)
        by (apply Qle_bool_iff, Qlt_le_weak, Hk).
      rewrite E'. simpl. split; assumption.
  - assert (Hpos : (0 < x * k)%Q).
    { apply Qmult_lt_0_compat; [| exact Hk].
      apply Qle_lt_trans with t; assumption. }
    unfold JS.mul, JS.min, JS.gt.
    destruct (negb (Qle_bool (x * k) cap)) eqn:E; simpl.
    + split; assumption.
    + apply negb_false_iff, Qle_bool_iff in E. split.
      * apply Qlt_le_weak. exact Hpos.
      * apply Qle_trans with cap; assumption.
Qed.

(** ** Integer ranges and indexing *)

Lemma in_zrange lo hi z : In z (zrange lo hi) <-> lo <= z < hi.
Proof.
  unfold zrange. rewrite in_map_iff. split.
  - intros [k [<- Hk]]. apply in_seq in Hk. lia.
  - intros Hz. exists (Z.to_nat (z - lo)). split; [lia |].
    apply in_seq. lia.
Qed.

Lemma zrange_nil lo hi : hi <= lo -> zrange lo hi = [].
Proof.
  intros H. unfold zrange. replace (Z.to_nat (hi - lo)) with 0%nat by lia.
  reflexivity.
Qed.

Lemma length_zrange lo hi : List.length (zrange lo hi) = Z.to_nat (hi - lo).
Proof.
  unfold zrange. rewrite length_map, length_seq. reflexivity.
Qed.

(** An invariant of a loop is kept by [fold_left] when every trip keeps it. *)
Lemma fold_left_keeps {A B : Type} (P : A -> Prop) (f : A -> B -> A) (l : list B) :
  (forall a x, In x l -> P a -> P (f a x)) ->
  forall a, P a -> P (fold_left f l a).
Proof.
  induction l as [| x l IH]; intros Hstep a Ha; simpl; [exact Ha |].
  apply IH.
  - intros a' y Hy. apply Hstep. right. exact Hy.
  - apply Hstep; [left; reflexivity | exact Ha].
Qed.

Lemma fold_left_same {A B : Type} (f g : A -> B -> A) (l : list B) :
  (forall a x, In x l -> f a x = g a x) ->
  forall a, fold_left f l a = fold_left g l a.
Proof.
  induction l as [| x l IH]; intros Hfg a; simpl; [reflexivity |].
  rewrite Hfg by (left; reflexivity). apply IH.
  intros a' y Hy. apply Hfg. right. exact Hy.
Qed.

(** ** A single pass that keeps the first strict maximum *)

Section ArgMax.

Variable B : Type.
Variable f : nat -> Q.
Variable win : nat -> B.

Lemma first_maximum n m0 b0 :
  let st :=
    fold_left
      (fun (st : JS.num * B) k =>
         if JS.gt (JS.Fin (f k)) (fst st) then (JS.Fin (f k), win k) else st)
      (seq 0 n) (JS.Fin m0, b0) in
  (st = (JS.Fin m0, b0) /\ forall k, (k < n)%nat -> (f k <= m0)%Q) \/
  (exists k, (k < n)%nat /\ st = (JS.Fin (f k), win k) /\ (m0 < f k)%Q /\
             (forall j, (j < k)%nat -> (f j < f k)%Q) /\
             (forall j, (k <= j < n)%nat -> (f j <= f k)%Q)).
Proof.
  induction n as [| n IH]; cbv zeta.
  - left. split; [reflexivity | intros k Hk; lia].
  - rewrite seq_S, fold_left_app. cbn [fold_left Nat.add].
    cbv zeta in IH.
    destruct IH as [[-> Hall] | [k [Hk [-> [Hm [Hlo Hhi]]]]]]; cbn [fst].
    + destruct (JS.gt (JS.Fin (f n)) (JS.Fin m0)) eqn:E.
      * right. exists n. apply gt_Fin in E.
        repeat split; [lia | exact E | | intros j Hj; assert (j = n) by lia;
                                          subst; apply Qle_refl].
        intros j Hj. apply Qle_lt_trans with m0; [apply Hall; exact Hj | exact E].
      * left. apply gt_Fin_false in E. split; [reflexivity |].
        intros k Hk. destruct (Nat.eq_dec k n) as [-> | Hne]; [exact E |].
        apply Hall. lia.
    + destruct (JS.gt (JS.Fin (f n)) (JS.Fin (f k))) eqn:E.
      * right. exists n. apply gt_Fin in E.
        repeat split; [lia | apply Qlt_trans with (f k); assumption | |
                       intros j Hj; assert (j = n) by lia; subst; apply Qle_refl].
        intros j Hj. destruct (Nat.lt_ge_cases j k) as [Hjk | Hjk].
        -- apply Qlt_trans with (f k); [apply Hlo; exact Hjk | exact E].
        -- apply Qle_lt_trans with (f k); [apply Hhi; lia | exact E].
      * right. exists k. apply gt_Fin_false in E.
        repeat split; [lia | exact Hm | exact Hlo |].
        intros j Hj. destruct (Nat.eq_dec j n) as [-> | Hne]; [exact E |].
        apply Hhi. lia.
Qed.

End ArgMax.

(** ** The vehicle scan *)

Section VehicleScan.

Import ImageProcessingService.

Variable edgeData : list bool.
Variables W H : Z.

Lemma countEdges_nonneg sx sy rw rh :
  0 <= countEdges edgeData W H sx sy rw rh.
Proof.
  unfold countEdges.
  apply (fold_left_keeps (fun d => 0 <= d)); [| lia].
  intros d y _ Hd.
  apply (fold_left_keeps (fun d => 0 <= d)); [| exact Hd].
  intros d' x _ Hd'. destruct (nthZ edgeData (y * W + x) false); lia.
Qed.

Lemma countEdges_pos sx sy rw rh :
  0 < countEdges edgeData W H sx sy rw rh -> 0 < rw /\ 0 < rh.
Proof.
  intros Hpos.
  destruct (Z_lt_le_dec 0 rh) as [Hh | Hh].
  - split; [| exact Hh].
    destruct (Z_lt_le_dec 0 rw) as [Hw | Hw]; [exact Hw | exfalso].
    revert Hpos. unfold countEdges.
    rewrite (zrange_nil sx) by lia.
    cut (fold_left (fun (density : Z) (y : Z) => fold_left
                      (fun density0 x =>
                         if nthZ edgeData (y * W + x) false
                         then density0 + 1 else density0) [] density)
                   (zrange sy (Z.min (sy + rh) H)) 0 = 0); [lia |].
    apply (fold_left_keeps (fun d => d = 0)); [| reflexivity].
    intros d y _ ->. reflexivity.
  - exfalso. revert Hpos. unfold countEdges.
    rewrite (zrange_nil sy) by lia. simpl. lia.
Qed.

(** The nested loops visit the 36 cells in row-major order. *)
Lemma scan_row_major (A : Type) (body : A -> Z -> Z -> A) (a : A) :
  fold_left
    (fun st gy =>
       fold_left (fun st gx => body st gy gx) (zrange 0 (gridSize - 2)) st)
    (zrange 0 (gridSize - 2)) a
  = fold_left
      (fun st k => body st (Z.of_nat (k / 6)) (Z.of_nat (k mod 6)))
      (seq 0 36) a.
Proof. reflexivity. Qed.

(** The area by which every count is divided. *)
Local Abbreviation area := (W / gridSize * 3 * (H / gridSize * 3)).
Local Abbreviation count gx gy :=
  (countEdges edgeData W H (gx * (W / gridSize)) (gy * (H / gridSize))
              (W / gridSize * 3) (H / gridSize * 3)).

Lemma density_cases gx gy :
  (area = 0 /\ density edgeData W H gx gy = JS.NaN) \/
  (area <> 0 /\
   density edgeData W H gx gy = JS.Fin (inject_Z (count gx gy) / inject_Z area)).
Proof.
  unfold density, window, JS.div, JS.ofZ. cbn [bbox_x bbox_y bbox_width bbox_height].
  destruct (Z.eq_dec area 0) as [E | E].
  - left. split; [exact E |]. rewrite E.
    assert (Hc : count gx gy = 0).
    { pose proof (countEdges_nonneg (gx * (W / gridSize)) (gy * (H / gridSize))
                                    (W / gridSize * 3) (H / gridSize * 3)) as H0.
      destruct (Z.eq_dec (count gx gy) 0) as [E0 | E0]; [exact E0 |].
      destruct (countEdges_pos (gx * (W / gridSize)) (gy * (H / gridSize))
                               (W / gridSize * 3) (H / gridSize * 3)); nia. }
    rewrite Hc. reflexivity.
  - right. split; [exact E |].
    destruct (Qeq_bool (inject_Z area) 0) eqn:E0; [| reflexivity].
    apply Qeq_bool_eq in E0. unfold Qeq in E0. simpl in E0. lia.
Qed.

End VehicleScan.

Section VehicleDetector.

Import ImageProcessingService.

Lemma scan_spec edgeData W H :
  scan edgeData W H = (JS.Fin 0, mkBox 0 0 0 0) \/
  exists gx gy,
    0 <= gx < gridSize - 2 /\ 0 <= gy < gridSize - 2 /\
    scan edgeData W H = (density edgeData W H gx gy, window W H gx gy) /\
    JS.gt (density edgeData W H gx gy) (JS.Fin 0) = true /\
    forall gx' gy',
      0 <= gx' < gridSize - 2 -> 0 <= gy' < gridSize - 2 ->
      JS.gt (density edgeData W H gx' gy') (density edgeData W H gx gy) = false /\
      (gy' < gy \/ (gy' = gy /\ gx' < gx) ->
       JS.gt (density edgeData W H gx gy) (density edgeData W H gx' gy') = true).
Proof.
  unfold scan. rewrite scan_row_major.
  destruct (Z.eq_dec (W / gridSize * 3 * (H / gridSize * 3)) 0) as [E | E].
  - left. apply (fold_left_keeps (fun st => st = (JS.Fin 0, mkBox 0 0 0 0)));
      [| reflexivity].
    intros st k _ ->. unfold visit.
    destruct (density_cases edgeData W H (Z.of_nat (k mod 6)) (Z.of_nat (k / 6)))
      as [[_ ->] | [Hne _]]; [reflexivity | contradiction].
  - pose (f := fun k : nat =>
                 (inject_Z (countEdges edgeData W H
                              (Z.of_nat (k mod 6) * (W / gridSize))
                              (Z.of_nat (k / 6) * (H / gridSize))
                              (W / gridSize * 3) (H / gridSize * 3))
                  / inject_Z (W / gridSize * 3 * (H / gridSize * 3)))%Q).
    assert (Hd : forall gx gy, density edgeData W H gx gy
                               = JS.Fin (f (Z.to_nat (gy * 6 + gx)))
                               \/ ~ (0 <= gx < 6 /\ 0 <= gy < 6)).
    { intros gx gy.
      destruct (Z_le_dec 0 gx), (Z_lt_dec gx 6), (Z_le_dec 0 gy), (Z_lt_dec gy 6);
        try (right; lia).
      left. destruct (density_cases edgeData W H gx gy) as [[E0 _] | [_ ->]];
        [contradiction |].
      unfold f.
      replace (Z.of_nat (Z.to_nat (gy * 6 + gx) mod 6)) with gx
        by (rewrite Nat2Z.inj_mod, Z2Nat.id by lia;
            change (Z.of_nat 6) with 6; symmetry;
            rewrite Z.add_comm, Z.mod_add by lia; apply Z.mod_small; lia).
      replace (Z.of_nat (Z.to_nat (gy * 6 + gx) / 6)) with gy
        by (rewrite Nat2Z.inj_div, Z2Nat.id by lia;
            change (Z.of_nat 6) with 6; symmetry;
            rewrite Z.add_comm, Z.div_add by lia;
            rewrite Z.div_small by lia; lia).
      reflexivity. }
    rewrite (fold_left_same _
               (fun (st : JS.num * BoundingBox) k =>
                  if JS.gt (JS.Fin (f k)) (fst st)
                  then (JS.Fin (f k),
                        window W H (Z.of_nat (k mod 6)) (Z.of_nat (k / 6)))
                  else st)).
    2:{ intros st k Hk. apply in_seq in Hk. unfold visit.
        destruct (density_cases edgeData W H (Z.of_nat (k mod 6)) (Z.of_nat (k / 6)))
          as [[E0 _] | [_ ->]]; [contradiction | reflexivity]. }
    destruct (first_maximum BoundingBox f
                (fun k => window W H (Z.of_nat (k mod 6)) (Z.of_nat (k / 6)))
                36 0%Q (mkBox 0 0 0 0))
      as [[-> _] | [k [Hk [-> [Hm [Hlo Hhi]]]]]]; [left; reflexivity | right].
    assert (Hmod : (k mod 6 < 6)%nat) by (apply Nat.mod_upper_bound; lia).
    assert (Hdiv : (k / 6 < 6)%nat) by (apply Nat.Div0.div_lt_upper_bound; lia).
    assert (Hk6 : Z.to_nat (Z.of_nat (k / 6) * 6 + Z.of_nat (k mod 6)) = k).
    { rewrite (Nat.div_mod_eq k 6) at 3. lia. }
    exists (Z.of_nat (k mod 6)), (Z.of_nat (k / 6)).
    assert (Hself : density edgeData W H (Z.of_nat (k mod 6)) (Z.of_nat (k / 6))
                    = JS.Fin (f k)).
    { destruct (Hd (Z.of_nat (k mod 6)) (Z.of_nat (k / 6))) as [Hs | Hs];
        [rewrite Hs, Hk6; reflexivity | exfalso; apply Hs; lia]. }
    unfold gridSize. rewrite Hself.
    repeat split; try lia.
    + apply gt_Fin. exact Hm.
    + destruct (Hd gx' gy') as [-> | Hn]; [| exfalso; apply Hn; lia].
      apply gt_Fin_false.
      destruct (Nat.lt_ge_cases (Z.to_nat (gy' * 6 + gx')) k) as [Hj | Hj].
      * apply Qlt_le_weak, Hlo. exact Hj.
      * apply Hhi. lia.
    + intros Hbefore.
      destruct (Hd gx' gy') as [-> | Hn]; [| exfalso; apply Hn; lia].
      apply gt_Fin. apply Hlo. rewrite <- Hk6. lia.
Qed.

Lemma detectVehicleRegion_inv be img W H v :
  detectVehicleRegion be img W H = Some v ->
  exists edgeData,
    edgeMask be img = Ok edgeData /\
    vehicleDecision H (scan edgeData W H) = Some v.
Proof.
  unfold detectVehicleRegion. destruct (edgeMask be img) as [ed | e]; simpl.
  - intros Hv. exists ed. split; [reflexivity | exact Hv].
  - discriminate.
Qed.

Lemma vehicleDecision_inv H st v :
  vehicleDecision H st = Some v ->
  JS.gt (fst st) (JS.Fin 0.05) = true /\
  v_bbox v = snd st /\
  v_confidence v = JS.min (JS.mul (fst st) (JS.Fin 5)) (JS.Fin 0.95).
Proof.
  unfold vehicleDecision. destruct (JS.gt (fst st) (JS.Fin 0.05)); [| discriminate].
  intros Hv. injection Hv as <-. repeat split.
Qed.

End VehicleDetector.

Section VehicleClaims.

Import ImageProcessingService.

Lemma density_pos_cells edgeData W H gx gy :
  JS.gt (density edgeData W H gx gy) (JS.Fin 0) = true ->
  0 < W / gridSize /\ 0 < H / gridSize.
Proof.
  intros Hgt.
  destruct (density_cases edgeData W H gx gy) as [[_ E] | [Hne E]];
    rewrite E in Hgt; [discriminate |].
  apply gt_Fin in Hgt.
  pose proof (countEdges_nonneg edgeData W H (gx * (W / gridSize))
                (gy * (H / gridSize)) (W / gridSize * 3) (H / gridSize * 3)) as H0.
  destruct (Z.eq_dec (countEdges edgeData W H (gx * (W / gridSize))
                        (gy * (H / gridSize)) (W / gridSize * 3)
                        (H / gridSize * 3)) 0) as [E0 | E0].
  - rewrite E0 in Hgt. exfalso. revert Hgt. unfold Qdiv. rewrite Qmult_0_l.
    apply Qlt_irrefl.
  - destruct (countEdges_pos edgeData W H (gx * (W / gridSize))
                (gy * (H / gridSize)) (W / gridSize * 3) (H / gridSize * 3));
      lia.
Qed.

(** C10. An emitted vehicle region has the size of three grid cells in each
    direction, both positive; its corner is a multiple of the cell size, at
    most five cells from the origin; the box lies inside an image of width
    [W] and height [H].  No region is emitted when [W < 8] or [H < 8]. *)
Theorem vehicle_box_in_image be img W H :
  (forall v,
     detectVehicleRegion be img W H = Some v ->
     let box := v_bbox v in
     0 < W / 8 /\ 0 < H / 8 /\
     bbox_width box = 3 * (W / 8) /\ bbox_height box = 3 * (H / 8) /\
     (exists gx, 0 <= gx <= 5 /\ bbox_x box = gx * (W / 8)) /\
     (exists gy, 0 <= gy <= 5 /\ bbox_y box = gy * (H / 8)) /\
     0 <= bbox_x box <= 5 * (W / 8) /\
     0 <= bbox_y box <= 5 * (H / 8) /\
     bbox_x box + bbox_width box <= W /\
     bbox_y box + bbox_height box <= H)
  /\ (W < 8 \/ H < 8 -> detectVehicleRegion be img W H = None).
Proof.
  assert (Hmain : forall v,
     detectVehicleRegion be img W H = Some v ->
     let box := v_bbox v in
     0 < W / 8 /\ 0 < H / 8 /\
     bbox_width box = 3 * (W / 8) /\ bbox_height box = 3 * (H / 8) /\
     (exists gx, 0 <= gx <= 5 /\ bbox_x box = gx * (W / 8)) /\
     (exists gy, 0 <= gy <= 5 /\ bbox_y box = gy * (H / 8)) /\
     0 <= bbox_x box <= 5 * (W / 8) /\
     0 <= bbox_y box <= 5 * (H / 8) /\
     bbox_x box + bbox_width box <= W /\
     bbox_y box + bbox_height box <= H).
  { intros v Hv. cbv zeta.
    destruct (detectVehicleRegion_inv _ _ _ _ _ Hv) as [ed [_ Hdec]].
    destruct (vehicleDecision_inv _ _ _ Hdec) as [Hgt [Hbox _]].
    destruct (scan_spec ed W H) as [E | [gx [gy [Hgx [Hgy [E [Hpos _]]]]]]];
      rewrite E in Hgt, Hbox; cbn [fst snd] in Hgt, Hbox; [discriminate |].
    destruct (density_pos_cells _ _ _ _ _ Hpos) as [Hcw Hch].
    unfold gridSize in *. rewrite Hbox. unfold window, gridSize.
    cbn [bbox_x bbox_y bbox_width bbox_height].
    pose proof (Z.mul_div_le W 8 ltac:(lia)).
    pose proof (Z.mul_div_le H 8 ltac:(lia)).
    repeat split; try nia.
    - exists gx. split; lia.
    - exists gy. split; lia. }
  split; [exact Hmain |].
  intros Hsmall.
  destruct (detectVehicleRegion be img W H) as [v |] eqn:E; [| reflexivity].
  destruct (Hmain v eq_refl) as [Hcw [Hch _]]. exfalso.
  destruct Hsmall as [Hs | Hs].
  - assert (W / 8 < 1) by (apply Z.div_lt_upper_bound; lia). lia.
  - assert (H / 8 < 1) by (apply Z.div_lt_upper_bound; lia). lia.
Qed.

(** C5, amended. The windows that [detectVehicleRegion] evaluates start at
    the grid cells [(gx, gy)] with [gx] and [gy] in [[0, gridSize - 2)], that
    is 0 to 5: an emitted region is one of these 36 windows, no window of
    the set is denser, and every window before it in row-major order ([gy]
    outer, [gx] inner) is strictly less dense. *)
Theorem vehicle_window_first_densest be img W H v :
  detectVehicleRegion be img W H = Some v ->
  exists edgeData gx gy,
    edgeMask be img = Ok edgeData /\
    0 <= gx < gridSize - 2 /\ 0 <= gy < gridSize - 2 /\
    v_bbox v = window W H gx gy /\
    forall gx' gy',
      0 <= gx' < gridSize - 2 -> 0 <= gy' < gridSize - 2 ->
      JS.gt (density edgeData W H gx' gy') (density edgeData W H gx gy) = false /\
      (gy' < gy \/ (gy' = gy /\ gx' < gx) ->
       JS.gt (density edgeData W H gx gy) (density edgeData W H gx' gy') = true).
Proof.
  intros Hv.
  destruct (detectVehicleRegion_inv _ _ _ _ _ Hv) as [ed [Hed Hdec]].
  destruct (vehicleDecision_inv _ _ _ Hdec) as [Hgt [Hbox _]].
  destruct (scan_spec ed W H) as [E | [gx [gy [Hgx [Hgy [E [_ Hmax]]]]]]];
    rewrite E in Hgt, Hbox; cbn [fst snd] in Hgt, Hbox; [discriminate |].
  exists ed, gx, gy. repeat split; try lia; try assumption; apply Hmax; assumption.
Qed.

End VehicleClaims.

Lemma vehicle_box_in_image_witness :
  exists v,
    ImageProcessingService.detectVehicleRegion TF.healthy Sample.rightColumn 8 8
    = Some v /\
    bbox_x (v_bbox v) + bbox_width (v_bbox v) <= 8.
Proof.
  eexists. split; [vm_compute; reflexivity |].
  destruct (vehicle_box_in_image TF.healthy Sample.rightColumn 8 8) as [Hbox _].
  apply (Hbox (mkVehicle front (mkBox 5 0 3 3) (JS.Fin 0.95))).
  vm_compute. reflexivity.
Defined.

Lemma vehicle_window_first_densest_witness :
  exists edgeData gx gy,
    ImageProcessingService.edgeMask TF.healthy Sample.rightColumn = Ok edgeData /\
    0 <= gx < 6 /\ 0 <= gy < 6 /\
    mkBox 5 0 3 3 = ImageProcessingService.window 8 8 gx gy.
Proof.
  destruct (vehicle_window_first_densest TF.healthy Sample.rightColumn 8 8
              (mkVehicle front (mkBox 5 0 3 3) (JS.Fin 0.95)))
    as [ed [gx [gy [H1 [H2 [H3 [H4 _]]]]]]].
  - vm_compute. reflexivity.
  - exists ed, gx, gy. repeat split; try assumption;
      unfold ImageProcessingService.gridSize in *; lia.
Defined.

(** C5 as stated fails: on the 8x8 image whose rightmost column is white the
    detector returns the window at grid column 5, which is none of the
    windows with [gx] and [gy] in [[0, gridSize - 3)]. *)
Lemma vehicle_window_outside_claimed_positions :
  exists v,
    ImageProcessingService.detectVehicleRegion TF.healthy Sample.rightColumn 8 8
    = Some v /\
    forall gx gy,
      0 <= gx < ImageProcessingService.gridSize - 3 ->
      0 <= gy < ImageProcessingService.gridSize - 3 ->
      v_bbox v <> ImageProcessingService.window 8 8 gx gy.
Proof.
  eexists. split; [vm_compute; reflexivity |].
  intros gx gy Hgx Hgy. unfold ImageProcessingService.window,
    ImageProcessingService.gridSize in *.
  cbn [v_bbox]. change (8 / 8) with 1. intros E. injection E as Ex _.
  lia.
Qed.


(** ** The plate scan *)

Section PlateDetector.

Import ImageProcessingService.

(** Every position of a loop with a non-negative step lies between its
    bounds. *)
Lemma qloop_bounds fuel start stop step v :
  (0 <= step)%Q ->
  In v (qloop fuel start stop step) -> (start <= v)%Q /\ (v < stop)%Q.
Proof.
  intros Hstep. revert start.
  induction fuel as [| fuel IH]; intros start; simpl; [contradiction |].
  destruct (Qle_bool stop start) eqn:E; simpl; [contradiction |].
  apply Qle_bool_false in E.
  intros [<- | Hin].
  - split; [apply Qle_refl | exact E].
  - destruct (IH _ Hin) as [H1 H2]. split; [| exact H2].
    apply Qle_trans with (start + step)%Q; [| exact H1].
    rewrite <- (Qplus_0_r start) at 1. apply Qplus_le_r. exact Hstep.
Qed.

Lemma qfor_bounds start stop step v :
  (0 <= step)%Q ->
  In v (qfor start stop step) -> (start <= v)%Q /\ (v < stop)%Q.
Proof. apply qloop_bounds. Qed.

Lemma plateCandidate_inv edgeData maxEdge W w h y x c :
  plateCandidate edgeData maxEdge W w h y x = Some c ->
  c_bbox c = mkBox (Qfloor x) (Qfloor y) (Qfloor w) (Qfloor h) /\
  exists edgeDensity horizontalRatio,
    JS.gt edgeDensity (JS.Fin 0.15) = true /\
    JS.gt horizontalRatio (JS.Fin 0.1) = true /\
    score c = JS.add (JS.mul edgeDensity (JS.Fin 0.6))
                     (JS.mul horizontalRatio (JS.Fin 0.4)).
Proof.
  unfold plateCandidate.
  match goal with
  | |- (if ?a && ?b then _ else _) = _ -> _ => destruct a eqn:Ea; destruct b eqn:Eb
  end; simpl; try discriminate.
  intros Hc. injection Hc as <-. split; [reflexivity |].
  eexists. eexists. repeat split; eassumption.
Qed.

Lemma in_plateCandidates edgeData maxEdge W H vehicleRegion c :
  In c (plateCandidates edgeData maxEdge W H vehicleRegion) ->
  exists w h y x,
    In (w, h) (plateSizes W) /\
    In y (qfor (snd (fst (fst (plateSearch W H vehicleRegion))))
               (snd (plateSearch W H vehicleRegion) - h) (h * 0.5)) /\
    In x (qfor (fst (fst (fst (plateSearch W H vehicleRegion))))
               (snd (fst (plateSearch W H vehicleRegion)) - w) (w * 0.3)) /\
    plateCandidate edgeData maxEdge W w h y x = Some c.
Proof.
  unfold plateCandidates.
  destruct (plateSearch W H vehicleRegion) as [[[sx sy] ex] ey]. cbn [fst snd].
  intros Hin. apply in_flat_map in Hin. destruct Hin as [[w h] [Hsize Hin]].
  cbn [fst snd] in Hin.
  apply in_flat_map in Hin. destruct Hin as [y [Hy Hin]].
  apply in_flat_map in Hin. destruct Hin as [x [Hx Hin]].
  exists w, h, y, x. repeat split; try assumption.
  destruct (plateCandidate edgeData maxEdge W w h y x) as [c' |];
    [| contradiction].
  destruct Hin as [-> | []]. reflexivity.
Qed.

Lemma in_insert a l c : In c (insert a l) -> c = a \/ In c l.
Proof.
  induction l as [| b l IH]; simpl.
  - intros [<- | []]. left. reflexivity.
  - destruct (JS.gt (JS.sub (score b) (score a)) (JS.Fin 0)); simpl.
    + intros [<- | Hin]; [right; left; reflexivity |].
      destruct (IH Hin) as [-> | Hl]; [left; reflexivity | right; right; exact Hl].
    + intros [<- | [<- | Hin]]; auto.
Qed.

Lemma in_sort l c : In c (sort l) -> In c l.
Proof.
  induction l as [| a l IH]; simpl; [tauto |].
  intros Hin. destruct (in_insert _ _ _ Hin) as [-> | Hl]; auto.
Qed.

Lemma detectLicensePlateRegion_inv be img W H vehicleRegion p :
  detectLicensePlateRegion be img W H vehicleRegion = Some p ->
  exists edgeData maxEdge best,
    plateEdges be img = Ok (edgeData, maxEdge) /\
    In best (plateCandidates edgeData maxEdge W H vehicleRegion) /\
    p = mkPlate (c_bbox best) (JS.min (JS.mul (score best) (JS.Fin 2)) (JS.Fin 0.9)).
Proof.
  unfold detectLicensePlateRegion.
  destruct (plateEdges be img) as [[ed m] | e]; simpl; [| discriminate].
  destruct (sort (plateCandidates ed m W H vehicleRegion)) as [| best rest] eqn:E;
    simpl; [discriminate |].
  intros Hp. injection Hp as <-. exists ed, m, best.
  repeat split. apply in_sort. rewrite E. left. reflexivity.
Qed.

Lemma in_plateSizes W w h :
  0 < W -> In (w, h) (plateSizes W) -> (0 < w)%Q /\ (0 < h)%Q.
Proof.
  intros HW Hin.
  assert (HWq : (0 < inject_Z W)%Q) by (unfold Qlt; simpl; lia).
  destruct Hin as [E | [E | []]]; injection E as <- <-;
    split; apply Qmult_lt_0_compat; try exact HWq; reflexivity.
Qed.

End PlateDetector.

Section PlateClaims.

Import ImageProcessingService.

Lemma candidate_inside_hint edgeData maxEdge W H v c :
  0 < W ->
  In c (plateCandidates edgeData maxEdge W H (Some v)) ->
  bbox_x (v_bbox v) <= bbox_x (c_bbox c) /\
  bbox_x (c_bbox c) + bbox_width (c_bbox c)
    <= bbox_x (v_bbox v) + bbox_width (v_bbox v) /\
  Qfloor (inject_Z (bbox_y (v_bbox v)) + inject_Z (bbox_height (v_bbox v)) * 0.3)
    <= bbox_y (c_bbox c) /\
  bbox_y (c_bbox c) + bbox_height (c_bbox c)
    <= bbox_y (v_bbox v) + bbox_height (v_bbox v).
Proof.
  intros HW Hin.
  destruct (in_plateCandidates _ _ _ _ _ _ Hin) as [w [h [y [x [Hs [Hy [Hx Hc]]]]]]].
  destruct (in_plateSizes _ _ _ HW Hs) as [Hw Hh].
  destruct (plateCandidate_inv _ _ _ _ _ _ _ _ Hc) as [Hbox _].
  cbn [plateSearch fst snd] in Hy, Hx.
  apply qfor_bounds in Hy;
    [| apply Qlt_le_weak, Qmult_lt_0_compat; [exact Hh | reflexivity]].
  apply qfor_bounds in Hx;
    [| apply Qlt_le_weak, Qmult_lt_0_compat; [exact Hw | reflexivity]].
  destruct Hy as [Hy1 Hy2], Hx as [Hx1 Hx2].
  rewrite Hbox. cbn [bbox_x bbox_y bbox_width bbox_height].
  assert (Hsum : forall a s (e : Z),
             (a < inject_Z e - s)%Q -> Qfloor a + Qfloor s <= e).
  { intros a s e Hlt.
    assert (Hq : (inject_Z (Qfloor a + Qfloor s) < inject_Z e)%Q).
    { rewrite inject_Z_plus.
      apply Qle_lt_trans with (a + s)%Q.
      - apply Qplus_le_compat; apply Qfloor_le.
      - apply Qplus_lt_l with (z := (- s)%Q).
        setoid_replace (a + s + - s)%Q with a by ring. exact Hlt. }
    unfold Qlt in Hq. simpl in Hq. lia. }
  repeat split.
  - rewrite <- (Qfloor_Z (bbox_x (v_bbox v))). apply Qfloor_resp_le. exact Hx1.
  - apply Hsum. rewrite inject_Z_plus. exact Hx2.
  - apply Qfloor_resp_le. exact Hy1.
  - apply Hsum. rewrite inject_Z_plus. exact Hy2.
Qed.

(** C6, amended. With a vehicle region as hint, every accepted plate
    candidate, and so the plate that is returned, has its box between the
    hint's left and right edges and above its bottom edge; its top edge is at
    or below [floor (y + 0.3 * height)] of the hint: the window positions are
    floored, so the top can lie up to one pixel above [y + 0.3 * height]. *)
Theorem plate_inside_floored_search be img W H v :
  0 < W ->
  (forall edgeData maxEdge c,
     plateEdges be img = Ok (edgeData, maxEdge) ->
     In c (plateCandidates edgeData maxEdge W H (Some v)) ->
     bbox_x (v_bbox v) <= bbox_x (c_bbox c) /\
     bbox_x (c_bbox c) + bbox_width (c_bbox c)
       <= bbox_x (v_bbox v) + bbox_width (v_bbox v) /\
     Qfloor (inject_Z (bbox_y (v_bbox v)) + inject_Z (bbox_height (v_bbox v)) * 0.3)
       <= bbox_y (c_bbox c) /\
     bbox_y (c_bbox c) + bbox_height (c_bbox c)
       <= bbox_y (v_bbox v) + bbox_height (v_bbox v))
  /\
  (forall p,
     detectLicensePlateRegion be img W H (Some v) = Some p ->
     bbox_x (v_bbox v) <= bbox_x (p_bbox p) /\
     bbox_x (p_bbox p) + bbox_width (p_bbox p)
       <= bbox_x (v_bbox v) + bbox_width (v_bbox v) /\
     Qfloor (inject_Z (bbox_y (v_bbox v)) + inject_Z (bbox_height (v_bbox v)) * 0.3)
       <= bbox_y (p_bbox p) /\
     bbox_y (p_bbox p) + bbox_height (p_bbox p)
       <= bbox_y (v_bbox v) + bbox_height (v_bbox v)).
Proof.
  intros HW. split.
  - intros ed m c _ Hin. exact (candidate_inside_hint ed m W H v c HW Hin).
  - intros p Hp.
    destruct (detectLicensePlateRegion_inv _ _ _ _ _ _ Hp)
      as [ed [m [best [_ [Hin ->]]]]].
    cbn [p_bbox]. exact (candidate_inside_hint ed m W H v best HW Hin).
Qed.

End PlateClaims.

Lemma plate_inside_floored_search_witness :
  let v := mkVehicle front (mkBox 0 0 3 3) (JS.Fin 0.95) in
  exists p,
    ImageProcessingService.detectLicensePlateRegion
      TF.healthy Sample.dot 8 8 (Some v) = Some p /\
    0 <= bbox_y (p_bbox p) /\
    bbox_y (p_bbox p) + bbox_height (p_bbox p) <= 3.
Proof.
  intros v.
  assert (HW : 0 < 8) by lia.
  destruct (plate_inside_floored_search TF.healthy Sample.dot 8 8 v HW) as [_ Hp].
  eexists. split; [vm_compute; reflexivity |].
  specialize (Hp (mkPlate (mkBox 0 0 1 0) (JS.Fin 0.9)) ltac:(vm_compute; reflexivity)).
  cbn in Hp. cbn. lia.
Defined.

(** C6 as stated fails: on the 8x8 image with one white pixel in the top row
    the vehicle region is the window at the origin, three pixels high, so the
    search starts at [y = 0.9]; the plate that is returned has its top edge
    at [floor 0.9 = 0], above that bound. *)
Lemma plate_top_above_search_bound :
  exists v p,
    ImageProcessingService.detectVehicleRegion TF.healthy Sample.dot 8 8 = Some v /\
    ImageProcessingService.detectLicensePlateRegion
      TF.healthy Sample.dot 8 8 (Some v) = Some p /\
    ~ (inject_Z (bbox_y (v_bbox v)) + 0.3 * inject_Z (bbox_height (v_bbox v))
       <= inject_Z (bbox_y (p_bbox p)))%Q.
Proof.
  eexists. eexists. split; [vm_compute; reflexivity |].
  split; [vm_compute; reflexivity |].
  cbn. intros Hle. vm_compute in Hle. apply Hle. reflexivity.
Qed.


(** ** The colour classifier *)

Section ColorClassifier.

Import ImageProcessingService.

Lemma length_rows {A : Type} (row : Z -> list A) (n : nat) (ys : list Z) :
  (forall y, In y ys -> List.length (row y) = n) ->
  List.length (flat_map row ys) = (List.length ys * n)%nat.
Proof.
  induction ys as [| y ys IH]; intros Hrow; simpl; [reflexivity |].
  rewrite length_app, Hrow by (left; reflexivity).
  rewrite IH; [reflexivity |]. intros y' Hy'. apply Hrow. right. exact Hy'.
Qed.

(** A slice with non-negative sizes holds [sizeH * sizeW] pixels. *)
Lemma slice_length img beginY beginX sizeH sizeW data :
  0 <= sizeH -> 0 <= sizeW ->
  slice img beginY beginX sizeH sizeW = Ok data ->
  Z.of_nat (List.length data) = sizeW * sizeH.
Proof.
  intros Hh Hw. unfold slice.
  assert (Eh : (sizeH <? 0) = false) by (apply Z.ltb_ge; exact Hh).
  assert (Ew : (sizeW <? 0) = false) by (apply Z.ltb_ge; exact Hw).
  rewrite Eh, Ew. simpl.
  destruct ((height img <? beginY + sizeH) || (width img <? beginX + sizeW));
    [discriminate |].
  intros Hd. injection Hd as <-.
  rewrite (length_rows _ (Z.to_nat sizeW)).
  - rewrite length_zrange. nia.
  - intros y _. rewrite length_map, length_zrange. f_equal. lia.
Qed.

Lemma counted_addPixel p hist : counted (addPixel p hist) = counted hist + 1.
Proof.
  induction hist as [| [k e] hist IH]; simpl; [reflexivity |].
  destruct (key_eqb k (keyOf p)); simpl; [lia |]. rewrite IH. lia.
Qed.

Lemma positive_addPixel p hist :
  Forall (fun ke => 1 <= count (snd ke)) hist ->
  Forall (fun ke => 1 <= count (snd ke)) (addPixel p hist).
Proof.
  induction hist as [| [k e] hist IH]; intros Hall; simpl.
  - constructor; [simpl; lia | constructor].
  - inversion Hall as [| ? ? He Hrest]; subst.
    destruct (key_eqb k (keyOf p)); constructor; simpl in *; auto; lia.
Qed.

Lemma colorHistogram_counts regionData :
  Forall (fun ke => 1 <= count (snd ke)) (colorHistogram regionData) /\
  counted (colorHistogram regionData) = Z.of_nat (List.length regionData).
Proof.
  unfold colorHistogram.
  cut (forall hist,
          Forall (fun ke => 1 <= count (snd ke)) hist ->
          Forall (fun ke => 1 <= count (snd ke))
                 (fold_left (fun hist p => addPixel p hist) regionData hist) /\
          counted (fold_left (fun hist p => addPixel p hist) regionData hist)
          = counted hist + Z.of_nat (List.length regionData)).
  { intros Hgen. destruct (Hgen [] (Forall_nil _)) as [H1 H2].
    split; [exact H1 | rewrite H2; reflexivity]. }
  induction regionData as [| p data IH]; intros hist Hall; simpl.
  - split; [exact Hall | lia].
  - destruct (IH (addPixel p hist) (positive_addPixel p hist Hall)) as [H1 H2].
    split; [exact H1 |]. rewrite H2, counted_addPixel. lia.
Qed.

Lemma bucket_le_counted hist ke :
  Forall (fun ke => 1 <= count (snd ke)) hist ->
  In ke hist -> count (snd ke) <= counted hist.
Proof.
  induction hist as [| ke' hist IH]; intros Hall Hin; [contradiction |].
  inversion Hall as [| ? ? He Hrest]; subst. simpl.
  assert (0 <= counted hist).
  { clear - Hrest. induction Hrest as [| ? ? ? ? IH']; simpl; lia. }
  destruct Hin as [-> | Hin]; [lia |].
  specialize (IH Hrest Hin). lia.
Qed.

(** The dominant bucket never holds more pixels than were sampled. *)
Lemma dominantColor_count regionData :
  0 <= snd (dominantColor (colorHistogram regionData))
    <= Z.of_nat (List.length regionData).
Proof.
  destruct (colorHistogram_counts regionData) as [Hall Hsum].
  rewrite <- Hsum. unfold dominantColor.
  apply (fold_left_keeps
           (fun dom : RGB * Z =>
              0 <= snd dom <= counted (colorHistogram regionData))).
  - intros dom ke Hin Hdom.
    destruct (snd dom <? count (snd ke)) eqn:E; [| exact Hdom].
    cbn [snd]. apply Z.ltb_lt in E.
    pose proof (bucket_le_counted _ _ Hall Hin). lia.
  - cbn [snd]. rewrite Hsum. lia.
Qed.

Lemma key_eqb_refl k : key_eqb k k = true.
Proof.
  destruct k as [[a1 b1] c1]. unfold key_eqb. rewrite !Z.eqb_refl. reflexivity.
Qed.

(** The histogram of a region of one colour has one bucket. *)
Lemma colorHistogram_solid p n :
  colorHistogram (repeat p (S n))
  = [(keyOf p, mkBucket (Z.of_nat (S n)) (Z.of_nat (S n) * r p)
                        (Z.of_nat (S n) * g p) (Z.of_nat (S n) * b p))].
Proof.
  unfold colorHistogram. cbn [repeat fold_left addPixel].
  cut (forall m c,
          fold_left (fun hist q => addPixel q hist) (repeat p m)
                    [(keyOf p, mkBucket c (c * r p) (c * g p) (c * b p))]
          = [(keyOf p, mkBucket (c + Z.of_nat m) ((c + Z.of_nat m) * r p)
                                ((c + Z.of_nat m) * g p) ((c + Z.of_nat m) * b p))]).
  { intros Hgen. specialize (Hgen n 1). rewrite !Z.mul_1_l in Hgen.
    replace (Z.of_nat (S n)) with (1 + Z.of_nat n) by lia.
    exact Hgen. }
  induction m as [| m IH]; intros c.
  - cbn [repeat fold_left Z.of_nat]. rewrite Z.add_0_r. reflexivity.
  - cbn [repeat fold_left addPixel]. rewrite key_eqb_refl. cbn [count sum_r sum_g sum_b].
    replace (c * r p + r p) with ((c + 1) * r p) by lia.
    replace (c * g p + g p) with ((c + 1) * g p) by lia.
    replace (c * b p + b p) with ((c + 1) * b p) by lia.
    rewrite IH.
    replace (c + 1 + Z.of_nat m) with (c + Z.of_nat (S m)) by lia. reflexivity.
Qed.

Lemma round_mean c z : 0 < c -> round (inject_Z (c * z) / inject_Z c) = z.
Proof.
  intros Hc. unfold round.
  assert (E : (inject_Z (c * z) / inject_Z c + 1 / 2 == inject_Z z + 1 / 2)%Q).
  { rewrite inject_Z_mult. field. unfold Qeq. simpl. lia. }
  rewrite (Qfloor_comp _ _ E).
  pose proof (Qfloor_le (inject_Z z + 1 / 2)) as H1.
  pose proof (Qlt_floor (inject_Z z + 1 / 2)) as H2.
  unfold Qle, Qlt in *. simpl in *. lia.
Qed.

Lemma all_equal_repeat {A : Type} (p : A) (l : list A) :
  Forall (eq p) l -> l = repeat p (List.length l).
Proof.
  induction 1 as [| x l <- _ IH]; simpl; [reflexivity | f_equal; exact IH].
Qed.

Lemma dominantColor_solid p n :
  dominantColor (colorHistogram (repeat p (S n))) = (p, Z.of_nat (S n)).
Proof.
  rewrite colorHistogram_solid. unfold dominantColor.
  cbn [fold_left snd count sum_r sum_g sum_b].
  assert (E : (0 <? Z.of_nat (S n)) = true) by (apply Z.ltb_lt; lia).
  rewrite E, !round_mean by lia. destruct p. reflexivity.
Qed.

End ColorClassifier.

Section ColorClaims.

Import ImageProcessingService.

Lemma run_inv {A : Type} be o (v w : A) : TF.run be o v = Ok w -> w = v.
Proof.
  unfold TF.run. destruct (be o); [discriminate |]. intros E. injection E as <-.
  reflexivity.
Qed.

Lemma bind_inv {A B : Type} (m : outcome A) (k : A -> outcome B) (y : B) :
  bind m k = Ok y -> exists x, m = Ok x /\ k x = Ok y.
Proof.
  destruct m as [x | e]; simpl; [| discriminate]. intros E. exists x. auto.
Qed.

Lemma flat_map_nil {A B : Type} (f : A -> list B) (l : list A) :
  (forall x, f x = []) -> flat_map f l = [].
Proof.
  intros Hf. induction l as [| x l IH]; simpl; [reflexivity |].
  rewrite Hf, IH. reflexivity.
Qed.

(** A slice that asks for "the rest" of an axis from beyond its end is empty. *)
Lemma slice_nonempty img beginY beginX sizeH sizeW data :
  (sizeH < 0 -> height img < beginY) ->
  (sizeW < 0 -> width img < beginX) ->
  slice img beginY beginX sizeH sizeW = Ok data ->
  data <> [] ->
  0 <= sizeH /\ 0 <= sizeW.
Proof.
  intros Hrows Hcols. unfold slice.
  destruct (((sizeH <? 0) && negb (sizeH =? -1))
            || ((sizeW <? 0) && negb (sizeW =? -1))) eqn:E; [discriminate |].
  match goal with
  | |- context [if ?c then Throw _ else Ok _] => destruct c eqn:Ec
  end; [discriminate |].
  intros Hd Hne. injection Hd as <-.
  destruct (Z_lt_le_dec sizeH 0) as [Nh | Ph].
  - exfalso. apply Hne.
    replace (sizeH <? 0) with true by (symmetry; apply Z.ltb_lt; lia).
    cbv iota. rewrite (zrange_nil beginY) by (specialize (Hrows Nh); lia).
    reflexivity.
  - destruct (Z_lt_le_dec sizeW 0) as [Nw | Pw]; [| split; assumption].
    exfalso. apply Hne.
    replace (sizeW <? 0) with true by (symmetry; apply Z.ltb_lt; lia).
    cbv iota. apply flat_map_nil. intros y.
    rewrite zrange_nil by (specialize (Hcols Nw); lia). reflexivity.
Qed.

(** The region that is sampled holds [regionWidth * regionHeight] pixels. *)
Lemma colorRegion_shape be img vehicleRegion regionData regionWidth regionHeight :
  0 <= height img -> 0 <= width img ->
  match vehicleRegion with
  | Some v => 0 <= bbox_width (v_bbox v) /\ 0 <= bbox_height (v_bbox v)
  | None => True
  end ->
  colorRegion be img vehicleRegion = Ok (regionData, regionWidth, regionHeight) ->
  regionData <> [] ->
  regionWidth * regionHeight = Z.of_nat (List.length regionData).
Proof.
  intros Hh Hw Hhint Hreg Hne. unfold colorRegion in Hreg.
  destruct vehicleRegion as [v |].
  - destruct Hhint as [Hbw Hbh].
    apply bind_inv in Hreg. destruct Hreg as [normalized [Hn Hreg]].
    apply run_inv in Hn. subst normalized.
    apply bind_inv in Hreg. destruct Hreg as [cropped [Hcrop Hreg]].
    apply bind_inv in Hcrop. destruct Hcrop as [u' [_ Hslice]].
    apply bind_inv in Hreg. destruct Hreg as [data [Hdata Hreg]].
    apply run_inv in Hdata. subst data.
    injection Hreg as <- <- <-.
    edestruct (slice_nonempty
                 img (Z.max 0 (bbox_y (v_bbox v))) (Z.max 0 (bbox_x (v_bbox v)))
                 (Z.min (bbox_height (v_bbox v)) (height img - bbox_y (v_bbox v)))
                 (Z.min (bbox_width (v_bbox v)) (width img - bbox_x (v_bbox v))))
      as [Ph Pw]; [| | exact Hslice | exact Hne |]; [lia | lia |].
    symmetry. exact (slice_length _ _ _ _ _ _ Ph Pw Hslice).
  - apply bind_inv in Hreg. destruct Hreg as [sliced [Hcrop Hreg]].
    apply bind_inv in Hcrop. destruct Hcrop as [u' [_ Hslice]].
    apply bind_inv in Hreg. destruct Hreg as [cropped [Hdiv Hreg]].
    apply run_inv in Hdiv. subst cropped.
    apply bind_inv in Hreg. destruct Hreg as [data [Hdata Hreg]].
    apply run_inv in Hdata. subst data.
    injection Hreg as <- <- <-.
    assert (Ph : 0 <= Qfloor (inject_Z (height img) * 0.4)).
    { change 0 with (Qfloor 0). apply Qfloor_resp_le.
      apply Qmult_le_0_compat; [unfold Qle; simpl; lia | discriminate]. }
    assert (Pw : 0 <= Qfloor (inject_Z (width img) * 0.6)).
    { change 0 with (Qfloor 0). apply Qfloor_resp_le.
      apply Qmult_le_0_compat; [unfold Qle; simpl; lia | discriminate]. }
    symmetry. exact (slice_length _ _ _ _ _ _ Ph Pw Hslice).
Qed.

Lemma div_self c :
  0 < c -> JS.eqb (JS.div (JS.ofZ c) (JS.ofZ c)) (JS.Fin 1) = true.
Proof.
  intros Hc. unfold JS.div, JS.ofZ.
  destruct (Qeq_bool (inject_Z c) 0) eqn:E.
  - apply Qeq_bool_eq in E. unfold Qeq in E. simpl in E. lia.
  - simpl. apply Qeq_eq_bool. field. apply Qeq_bool_neq. exact E.
Qed.

(** C7. When the region that [detectVehicleColor] samples is not empty and
    all its pixels are RGB (26, 26, 46), the result is named "Đen" (black),
    its hex string is "#1a1a2e", its [rgb] is (26, 26, 46) and its confidence
    is exactly 1. *)
Theorem solid_navy_is_black img vehicleRegion regionData regionWidth regionHeight :
  0 <= height img -> 0 <= width img ->
  match vehicleRegion with
  | Some v => 0 <= bbox_width (v_bbox v) /\ 0 <= bbox_height (v_bbox v)
  | None => True
  end ->
  colorRegion TF.healthy img vehicleRegion
  = Ok (regionData, regionWidth, regionHeight) ->
  regionData <> [] ->
  Forall (eq (mkRGB 26 26 46)) regionData ->
  exists c,
    detectVehicleColor TF.healthy img vehicleRegion = Some c /\
    name c = "Đen"%string /\
    dominant c = "#1a1a2e"%string /\
    rgb c = mkRGB 26 26 46 /\
    JS.eqb (c_confidence c) (JS.Fin 1) = true.
Proof.
  intros Hh Hw Hhint Hreg Hne Hall.
  pose proof (colorRegion_shape _ _ _ _ _ _ Hh Hw Hhint Hreg Hne) as Hshape.
  unfold detectVehicleColor. rewrite Hreg. cbn [bind catch].
  eexists. split; [reflexivity |].
  unfold classify. rewrite Hshape.
  rewrite (all_equal_repeat _ _ Hall).
  destruct (List.length regionData) as [| n] eqn:En.
  - destruct regionData; [contradiction | discriminate].
  - rewrite dominantColor_solid. cbn [fst snd name dominant rgb c_confidence r g b].
    repeat split; try (vm_compute; reflexivity).
    rewrite repeat_length. apply div_self. lia.
Qed.

End ColorClaims.

Lemma solid_navy_is_black_witness :
  exists c,
    ImageProcessingService.detectVehicleColor
      TF.healthy (Sample.solid 8 8 Sample.navy) None = Some c /\
    name c = "Đen"%string /\
    dominant c = "#1a1a2e"%string /\
    rgb c = mkRGB 26 26 46 /\
    JS.eqb (c_confidence c) (JS.Fin 1) = true.
Proof.
  apply (solid_navy_is_black (Sample.solid 8 8 Sample.navy) None
           (repeat Sample.navy 12) 4 3).
  - vm_compute. discriminate.
  - vm_compute. discriminate.
  - exact I.
  - vm_compute. reflexivity.
  - discriminate.
  - repeat constructor.
Defined.

(** ** Geometry of the vehicle region *)

Section VehicleGeometry.

Import ImageProcessingService.

(** An emitted region is a window of the grid with positive cell sizes. *)
Lemma vehicle_region_geometry be img W H v :
  detectVehicleRegion be img W H = Some v ->
  exists gx gy,
    0 <= gx <= 5 /\ 0 <= gy <= 5 /\
    0 < W / 8 /\ 0 < H / 8 /\
    v_bbox v = mkBox (gx * (W / 8)) (gy * (H / 8)) (W / 8 * 3) (H / 8 * 3) /\
    8 * (W / 8) <= W /\ 8 * (H / 8) <= H.
Proof.
  intros Hv.
  destruct (detectVehicleRegion_inv _ _ _ _ _ Hv) as [ed [_ Hdec]].
  destruct (vehicleDecision_inv _ _ _ Hdec) as [Hgt [Hbox _]].
  destruct (scan_spec ed W H) as [E | [gx [gy [Hgx [Hgy [E [Hpos _]]]]]]];
    rewrite E in Hgt, Hbox; cbn [fst snd] in Hgt, Hbox; [discriminate |].
  destruct (density_pos_cells _ _ _ _ _ Hpos) as [Hcw Hch].
  unfold gridSize in *. exists gx, gy.
  pose proof (Z.mul_div_le W 8 ltac:(lia)).
  pose proof (Z.mul_div_le H 8 ltac:(lia)).
  repeat split; try lia. exact Hbox.
Qed.

End VehicleGeometry.

(** ** Confidence bounds *)

Section Confidence.

Import ImageProcessingService VehicleDetectionService.

Lemma vehicle_confidence_in_unit be img W H v :
  detectVehicleRegion be img W H = Some v -> JS.in_unit (v_confidence v).
Proof.
  intros Hv.
  destruct (detectVehicleRegion_inv _ _ _ _ _ Hv) as [ed [_ Hdec]].
  destruct (vehicleDecision_inv _ _ _ Hdec) as [Hgt [_ ->]].
  apply (capped_in_unit _ 0.05 5 0.95 Hgt); discriminate || reflexivity.
Qed.

Lemma plate_score_positive edgeDensity horizontalRatio :
  JS.gt edgeDensity (JS.Fin 0.15) = true ->
  JS.gt horizontalRatio (JS.Fin 0.1) = true ->
  JS.gt (JS.add (JS.mul edgeDensity (JS.Fin 0.6))
                (JS.mul horizontalRatio (JS.Fin 0.4))) (JS.Fin 0) = true.
Proof.
  intros He Hr.
  destruct (gt_Fin_inv _ _ He) as [-> | [x [-> Hx]]];
    destruct (gt_Fin_inv _ _ Hr) as [-> | [y [-> Hy]]]; try reflexivity.
  apply gt_Fin.
  apply Qlt_trans with (x * 0.6)%Q.
  - apply Qmult_lt_0_compat; [| reflexivity].
    apply Qlt_trans with 0.15%Q; [reflexivity | exact Hx].
  - rewrite <- (Qplus_0_r (x * 0.6)) at 1. apply Qplus_lt_r.
    apply Qmult_lt_0_compat; [| reflexivity].
    apply Qlt_trans with 0.1%Q; [reflexivity | exact Hy].
Qed.

Lemma plate_confidence_in_unit be img W H vehicleRegion p :
  detectLicensePlateRegion be img W H vehicleRegion = Some p ->
  JS.in_unit (p_confidence p).
Proof.
  intros Hp.
  destruct (detectLicensePlateRegion_inv _ _ _ _ _ _ Hp)
    as [ed [m [best [_ [Hin ->]]]]].
  destruct (in_plateCandidates _ _ _ _ _ _ Hin) as [w [h [y [x [_ [_ [_ Hc]]]]]]].
  destruct (plateCandidate_inv _ _ _ _ _ _ _ _ Hc) as [_ [e [hr [He [Hr Hs]]]]].
  cbn [p_confidence]. rewrite Hs.
  apply (capped_in_unit _ 0 2 0.9 (plate_score_positive _ _ He Hr));
    discriminate || reflexivity.
Qed.

Lemma logo_confidence_in_unit be img W H vehicleRegion l :
  detectLogoRegion be img W H vehicleRegion = Some l ->
  JS.in_unit (l_confidence l).
Proof.
  unfold detectLogoRegion.
  destruct (logoResponse be img) as [rd | e]; simpl; [| discriminate].
  unfold logoDecision.
  destruct (logoScan (fst rd) (snd rd) W H vehicleRegion) as [best |];
    [| discriminate].
  destruct (JS.gt (score best) (JS.Fin 0.1)) eqn:Hgt; [| discriminate].
  intros Hl. injection Hl as <-. cbn [l_confidence].
  apply (capped_in_unit _ 0.1 3 0.85 Hgt); discriminate || reflexivity.
Qed.

Lemma ratio_in_unit c n :
  0 <= c <= n -> 0 < n -> JS.in_unit (JS.div (JS.ofZ c) (JS.ofZ n)).
Proof.
  intros Hc Hn. unfold JS.div, JS.ofZ.
  destruct (Qeq_bool (inject_Z n) 0) eqn:E.
  - apply Qeq_bool_eq in E. unfold Qeq in E. simpl in E. lia.
  - simpl. assert (Hq : (0 < inject_Z n)%Q) by (unfold Qlt; simpl; lia). split.
    + apply Qle_shift_div_l; [exact Hq |]. rewrite Qmult_0_l.
      unfold Qle. simpl. lia.
    + apply Qle_shift_div_r; [exact Hq |]. rewrite Qmult_1_l.
      unfold Qle. simpl. lia.
Qed.

(** When the region to sample lies in the image and is not empty, it holds
    [regionWidth * regionHeight] pixels, at least one. *)
Lemma colorRegion_positive be img vehicleRegion regionData regionWidth regionHeight :
  match vehicleRegion with
  | Some v =>
      0 < bbox_width (v_bbox v) /\ 0 < bbox_height (v_bbox v) /\
      bbox_x (v_bbox v) + bbox_width (v_bbox v) <= width img /\
      bbox_y (v_bbox v) + bbox_height (v_bbox v) <= height img
  | None => 2 <= width img /\ 3 <= height img
  end ->
  colorRegion be img vehicleRegion = Ok (regionData, regionWidth, regionHeight) ->
  0 < regionWidth * regionHeight /\
  regionWidth * regionHeight = Z.of_nat (List.length regionData).
Proof.
  intros Hhint Hreg. unfold colorRegion in Hreg.
  destruct vehicleRegion as [v |].
  - destruct Hhint as [Hbw [Hbh [Hx Hy]]].
    apply bind_inv in Hreg. destruct Hreg as [normalized [Hn Hreg]].
    apply run_inv in Hn. subst normalized.
    apply bind_inv in Hreg. destruct Hreg as [cropped [Hcrop Hreg]].
    apply bind_inv in Hcrop. destruct Hcrop as [u' [_ Hslice]].
    apply bind_inv in Hreg. destruct Hreg as [data [Hdata Hreg]].
    apply run_inv in Hdata. subst data.
    injection Hreg as <- <- <-.
    apply slice_length in Hslice; [| lia | lia]. split; [nia | lia].
  - destruct Hhint as [Hw Hh].
    apply bind_inv in Hreg. destruct Hreg as [sliced [Hcrop Hreg]].
    apply bind_inv in Hcrop. destruct Hcrop as [u' [_ Hslice]].
    apply bind_inv in Hreg. destruct Hreg as [cropped [Hdiv Hreg]].
    apply run_inv in Hdiv. subst cropped.
    apply bind_inv in Hreg. destruct Hreg as [data [Hdata Hreg]].
    apply run_inv in Hdata. subst data.
    injection Hreg as <- <- <-.
    assert (Ph : 1 <= Qfloor (inject_Z (height img) * 0.4)).
    { change 1 with (Qfloor 1). apply Qfloor_resp_le.
      unfold Qle. simpl. lia. }
    assert (Pw : 1 <= Qfloor (inject_Z (width img) * 0.6)).
    { change 1 with (Qfloor 1). apply Qfloor_resp_le.
      unfold Qle. simpl. lia. }
    apply slice_length in Hslice; [| lia | lia].
    unfold Qfloor in *. simpl in *. split; [nia | lia].
Qed.

Lemma color_confidence_in_unit be img vehicleRegion c :
  match vehicleRegion with
  | Some v =>
      0 < bbox_width (v_bbox v) /\ 0 < bbox_height (v_bbox v) /\
      bbox_x (v_bbox v) + bbox_width (v_bbox v) <= width img /\
      bbox_y (v_bbox v) + bbox_height (v_bbox v) <= height img
  | None => 2 <= width img /\ 3 <= height img
  end ->
  detectVehicleColor be img vehicleRegion = Some c ->
  JS.in_unit (c_confidence c).
Proof.
  intros Hhint. unfold detectVehicleColor.
  destruct (colorRegion be img vehicleRegion) as [[[data rw] rh] | e] eqn:Hreg;
    simpl; [| discriminate].
  intros Hc. injection Hc as <-.
  destruct (colorRegion_positive _ _ _ _ _ _ Hhint Hreg) as [Hpos Hlen].
  unfold classify. cbn [c_confidence].
  apply ratio_in_unit; [| exact Hpos].
  rewrite Hlen. apply dominantColor_count.
Qed.

(** Every confidence that [processImage] reports lies in [[0, 1]], the colour
    confidence provided that the image is at least 2 pixels wide and 3 pixels
    high (so that the region sampled for the colour is not empty). *)
Lemma confidences_in_unit this be uri img res :
  processImage this be uri (Ok img) = Ok res ->
  (forall v, vehicleRegion res = Some v -> JS.in_unit (v_confidence v)) /\
  (forall p, licensePlate res = Some p -> JS.in_unit (p_confidence p)) /\
  (forall l, logoRegion res = Some l -> JS.in_unit (l_confidence l)) /\
  (forall c, vehicleColor res = Some c ->
             2 <= width img -> 3 <= height img ->
             JS.in_unit (c_confidence c)).
Proof.
  unfold processImage. destruct (isInitialized this); simpl; [| discriminate].
  intros Hres. injection Hres as <-. cbn.
  repeat split.
  - intros v. apply vehicle_confidence_in_unit.
  - intros p. apply plate_confidence_in_unit.
  - intros l. apply logo_confidence_in_unit.
  - intros c Hc Hw Hh. revert Hc. apply color_confidence_in_unit.
    destruct (detectVehicleRegion be img (width img) (height img)) as [v |] eqn:Hv;
      [| split; assumption].
    destruct (vehicle_region_geometry _ _ _ _ _ Hv)
      as [gx [gy [Hgx [Hgy [Hcw [Hch [Hbox [HW HH]]]]]]]].
    rewrite Hbox. cbn [bbox_x bbox_y bbox_width bbox_height]. nia.
Qed.

End Confidence.

(** C9 at a single-pixel image: no vehicle region is found, the central crop
    is [floor 0.4] rows by [floor 0.6] columns, that is empty, and the colour
    is reported with confidence [0 / 0]. *)
Theorem color_confidence_of_empty_sample :
  exists res c,
    VehicleDetectionService.processImage
      Sample.service TF.healthy "file:///pixel.jpg"
      (Ok (Sample.solid 1 1 Sample.white)) = Ok res /\
    vehicleColor res = Some c /\
    c_confidence c = JS.NaN /\
    ~ JS.in_unit (c_confidence c).
Proof.
  eexists. eexists. split; [vm_compute; reflexivity |].
  split; [reflexivity |]. split; [reflexivity |]. intros H. exact H.
Qed.


(** ** Images without edges *)

Section FlatImages.

Import ImageProcessingService.

Ltac unbind H :=
  match type of H with
  | bind _ _ = Ok _ =>
      let x := fresh "x" in
      let Hx := fresh "Hx" in
      apply bind_inv in H; destruct H as [x [Hx H]]; unbind Hx; unbind H
  | TF.run _ _ _ = Ok ?x => apply run_inv in H; subst x
  | _ => idtac
  end.

Lemma zero_or_nan_add a b :
  JS.zero_or_nan a -> JS.zero_or_nan b -> JS.zero_or_nan (JS.add a b).
Proof.
  destruct a as [| [|] | x], b as [| [|] | y]; simpl; try tauto.
  intros -> ->. reflexivity.
Qed.

Lemma zero_or_nan_div a b : JS.zero_or_nan a -> JS.zero_or_nan (JS.div a b).
Proof.
  destruct a as [| [|] | x], b as [| [|] | y]; simpl; try tauto;
    try (intros _; reflexivity).
  intros Hx. destruct (Qeq_bool y 0) eqn:E.
  - rewrite (Qeq_eq_bool _ _ Hx). exact I.
  - simpl. rewrite Hx. unfold Qdiv. apply Qmult_0_l.
Qed.

Lemma zero_or_nan_not_gt a c :
  JS.zero_or_nan a -> (0 <= c)%Q -> JS.gt a (JS.Fin c) = false.
Proof.
  destruct a as [| [|] | x]; simpl; try tauto; try reflexivity.
  intros Hx Hc. apply negb_false_iff, Qle_bool_iff. rewrite Hx. exact Hc.
Qed.

Lemma nthZ_Forall {A : Type} (P : A -> Prop) (l : list A) (i : Z) (d : A) :
  Forall P l -> P d -> P (nthZ l i d).
Proof.
  intros Hall Hd. unfold nthZ. destruct (i <? 0); [exact Hd |].
  destruct (nth_in_or_default (Z.to_nat i) l d) as [Hin | ->]; [| exact Hd].
  rewrite Forall_forall in Hall. apply Hall. exact Hin.
Qed.

(** *** The vehicle detector *)

Lemma max_mag_zero l :
  Forall (fun m => exists q, m = Surd.MSqrt q /\ q == 0) l ->
  exists q, TF.max_mag l = Surd.MSqrt q /\ q == 0.
Proof.
  unfold TF.max_mag.
  cut (forall a, (exists q, a = Surd.MSqrt q /\ q == 0) ->
                 Forall (fun m => exists q, m = Surd.MSqrt q /\ q == 0) l ->
                 exists q, fold_left Surd.max l a = Surd.MSqrt q /\ q == 0).
  { intros Hgen. apply Hgen. exists 0%Q. split; reflexivity. }
  induction l as [| m l IH]; intros a Ha Hall; simpl; [exact Ha |].
  inversion Hall as [| ? ? [y [-> Hy]] Hrest]; subst.
  destruct Ha as [x [-> Hx]]. apply IH; [| exact Hrest].
  simpl. destruct (Qle_bool x y); eauto.
Qed.

Lemma magnitude_zero gx gy :
  Forall (Qeq 0) gx -> Forall (Qeq 0) gy ->
  Forall (fun m => exists q, m = Surd.MSqrt q /\ q == 0) (TF.magnitude gx gy).
Proof.
  intros Hx. revert gy. unfold TF.magnitude.
  induction Hx as [| x gx Ex Hx IH]; intros gy Hy; simpl; [constructor |].
  destruct Hy as [| y gy Ey Hy]; simpl; constructor.
  - eexists. split; [reflexivity |]. rewrite <- Ex, <- Ey. reflexivity.
  - apply IH. exact Hy.
Qed.

Lemma edgeMask_zero be img mask :
  Forall (Qeq 0) (TF.conv2d TF.sobelX (height img) (width img) (TF.mean2 img)) ->
  Forall (Qeq 0) (TF.conv2d TF.sobelY (height img) (width img) (TF.mean2 img)) ->
  edgeMask be img = Ok mask ->
  Forall (eq false) mask.
Proof.
  intros Hx Hy Hm. unfold edgeMask, gradientMagnitude in Hm.
  unbind Hm.
  destruct (max_mag_zero _ (magnitude_zero _ _ Hx Hy)) as [mx [-> Hmx]].
  rewrite !Forall_map.
  eapply Forall_impl; [| exact (magnitude_zero _ _ Hx Hy)].
  intros m [q [-> Hq]]. simpl.
  rewrite (Qeq_eq_bool _ _ Hmx), (Qeq_eq_bool _ _ Hq). reflexivity.
Qed.

Lemma countEdges_blank mask W H sx sy rw rh :
  Forall (eq false) mask -> countEdges mask W H sx sy rw rh = 0.
Proof.
  intros Hall. unfold countEdges.
  apply (fold_left_keeps (fun d => d = 0)); [| reflexivity].
  intros d y _ ->.
  apply (fold_left_keeps (fun d => d = 0)); [| reflexivity].
  intros d x _ ->.
  rewrite <- (nthZ_Forall (eq false) mask (y * W + x) false Hall eq_refl).
  reflexivity.
Qed.

Lemma scan_blank mask W H :
  Forall (eq false) mask -> scan mask W H = (JS.Fin 0, mkBox 0 0 0 0).
Proof.
  intros Hall. unfold scan.
  apply (fold_left_keeps (fun st => st = (JS.Fin 0, mkBox 0 0 0 0)));
    [| reflexivity].
  intros st gy _ ->.
  apply (fold_left_keeps (fun st => st = (JS.Fin 0, mkBox 0 0 0 0)));
    [| reflexivity].
  intros st gx _ ->. unfold visit, density.
  rewrite countEdges_blank by exact Hall. cbn [fst].
  rewrite zero_or_nan_not_gt; [reflexivity | | apply Qle_refl].
  apply zero_or_nan_div. reflexivity.
Qed.

Lemma vehicle_blank be img W H :
  Forall (Qeq 0) (TF.conv2d TF.sobelX (height img) (width img) (TF.mean2 img)) ->
  Forall (Qeq 0) (TF.conv2d TF.sobelY (height img) (width img) (TF.mean2 img)) ->
  detectVehicleRegion be img W H = None.
Proof.
  intros Hx Hy. unfold detectVehicleRegion.
  destruct (edgeMask be img) as [mask | e] eqn:Hm; simpl; [| reflexivity].
  rewrite (scan_blank _ _ _ (edgeMask_zero _ _ _ Hx Hy Hm)). reflexivity.
Qed.

(** *** The plate detector *)

Lemma plateCandidate_blank edgeData maxEdge W w h y x :
  Forall (Qeq 0) edgeData ->
  plateCandidate edgeData maxEdge W w h y x = None.
Proof.
  intros Hall. unfold plateCandidate.
  assert (Hs : JS.zero_or_nan (fst (plateSums edgeData maxEdge W x y w h))).
  { unfold plateSums.
    apply (fold_left_keeps (fun acc : JS.num * Z => JS.zero_or_nan (fst acc)));
      [| reflexivity].
    intros acc dy _ Hacc.
    apply (fold_left_keeps (fun acc : JS.num * Z => JS.zero_or_nan (fst acc)));
      [| exact Hacc].
    intros acc' dx _ Hacc'. cbn [fst].
    apply zero_or_nan_add; [exact Hacc' |].
    unfold edgeVal. apply zero_or_nan_div. simpl.
    symmetry. apply (nthZ_Forall (Qeq 0)); [exact Hall | reflexivity]. }
  rewrite (zero_or_nan_not_gt _ 0.15 (zero_or_nan_div _ _ Hs)) by discriminate.
  reflexivity.
Qed.

Lemma plate_blank be img W H vehicleRegion :
  Forall (Qeq 0) (TF.conv2d TF.sobelX (height img) (width img) (TF.mean2 img)) ->
  detectLicensePlateRegion be img W H vehicleRegion = None.
Proof.
  intros Hx. unfold detectLicensePlateRegion.
  destruct (plateEdges be img) as [[ed m] | e] eqn:He; simpl; [| reflexivity].
  assert (Hed : Forall (Qeq 0) ed).
  { unfold plateEdges in He. unbind He. injection He as <- <-.
    unfold TF.abs. rewrite Forall_map.
    eapply Forall_impl; [| exact Hx].
    intros q Hq. simpl. rewrite <- Hq. reflexivity. }
  assert (Hnil : plateCandidates ed m W H vehicleRegion = []).
  { unfold plateCandidates.
    destruct (plateSearch W H vehicleRegion) as [[[sx sy] ex] ey].
    apply flat_map_nil. intros [w h]. apply flat_map_nil. intros y.
    apply flat_map_nil. intros x. cbn [fst snd].
    rewrite plateCandidate_blank by exact Hed. reflexivity. }
  rewrite Hnil. reflexivity.
Qed.

(** *** The logo detector *)

Lemma blobSums_blank responseData maxResponse W H x y halfSize :
  Forall (Qeq 0) responseData ->
  JS.zero_or_nan (fst (blobSums responseData maxResponse W H x y halfSize)).
Proof.
  intros Hall. unfold blobSums.
  apply (fold_left_keeps (fun acc : JS.num * Z => JS.zero_or_nan (fst acc)));
    [| reflexivity].
  intros acc dy _ Hacc.
  apply (fold_left_keeps (fun acc : JS.num * Z => JS.zero_or_nan (fst acc)));
    [| exact Hacc].
  intros acc' dx _ Hacc'.
  destruct (Surd.gtq _ halfSize); [exact Hacc' |].
  destruct ((Qfloor (x + dx) <? 0) || (Qfloor (y + dy) <? 0)
            || (W <=? Qfloor (x + dx)) || (H <=? Qfloor (y + dy)));
    [exact Hacc' |].
  cbn [fst]. apply zero_or_nan_add; [exact Hacc' |].
  apply zero_or_nan_div. simpl.
  symmetry. apply (nthZ_Forall (Qeq 0)); [exact Hall | reflexivity].
Qed.

Lemma logoScan_blank responseData maxResponse W H vehicleRegion :
  Forall (Qeq 0) responseData ->
  match logoScan responseData maxResponse W H vehicleRegion with
  | Some best => JS.zero_or_nan (score best)
  | None => True
  end.
Proof.
  intros Hall. unfold logoScan.
  destruct (logoSearch W H vehicleRegion) as [[cx cy] radius].
  set (P := fun bestLogo : option Candidate =>
              match bestLogo with
              | Some best => JS.zero_or_nan (score best)
              | None => True
              end).
  apply (fold_left_keeps P); [| exact I].
  intros b1 logoSize _ H1.
  apply (fold_left_keeps P); [| exact H1].
  intros b2 y _ H2.
  apply (fold_left_keeps P); [| exact H2].
  intros b3 x _ H3. unfold logoVisit.
  match goal with
  | |- P (if ?c then _ else _) => destruct c; [exact H3 |]
  end.
  destruct (0 <? snd (blobSums responseData maxResponse W H x y (logoSize / 2)));
    [| exact H3].
  assert (Hnew : JS.zero_or_nan
                   (JS.div (fst (blobSums responseData maxResponse W H x y
                                          (logoSize / 2)))
                           (JS.ofZ (snd (blobSums responseData maxResponse W H x y
                                                  (logoSize / 2))))))
    by (apply zero_or_nan_div, blobSums_blank; exact Hall).
  destruct b3 as [best |]; [| exact Hnew].
  match goal with
  | |- P (if ?c then _ else _) => destruct c; [exact Hnew | exact H3]
  end.
Qed.

Lemma logo_blank be img W H vehicleRegion :
  Forall (Qeq 0) (TF.conv2d TF.laplacian (height img) (width img) (TF.mean2 img)) ->
  detectLogoRegion be img W H vehicleRegion = None.
Proof.
  intros Hl. unfold detectLogoRegion.
  destruct (logoResponse be img) as [[rd m] | e] eqn:Hr; simpl; [| reflexivity].
  assert (Hrd : Forall (Qeq 0) rd).
  { unfold logoResponse in Hr. unbind Hr. injection Hr as <- <-.
    unfold TF.abs. rewrite Forall_map.
    eapply Forall_impl; [| exact Hl].
    intros q Hq. simpl. rewrite <- Hq. reflexivity. }
  pose proof (logoScan_blank rd m W H vehicleRegion Hrd) as Hscan.
  unfold logoDecision.
  destruct (logoScan rd m W H vehicleRegion) as [best |]; [| reflexivity].
  rewrite (zero_or_nan_not_gt _ 0.1 Hscan) by discriminate. reflexivity.
Qed.

(** *** Black images *)

(** Every response of a 3x3 kernel to a field of zeros is zero. *)
Lemma conv2d_of_zeros k h w data :
  Forall (Qeq 0) data -> Forall (Qeq 0) (TF.conv2d k h w data).
Proof.
  intros Hall. unfold TF.conv2d.
  apply Forall_flat_map. apply Forall_forall. intros y _.
  rewrite Forall_map. apply Forall_forall. intros x _.
  unfold TF.conv_at.
  apply (fold_left_keeps (Qeq 0)); [| reflexivity].
  intros acc i _ Hacc.
  apply (fold_left_keeps (Qeq 0)); [| exact Hacc].
  intros acc' j _ Hacc'.
  assert (Ha : 0 == TF.at_ h w data (y + i - 1) (x + j - 1)).
  { unfold TF.at_.
    destruct ((0 <=? y + i - 1) && (y + i - 1 <? h) && (0 <=? x + j - 1)
              && (x + j - 1 <? w)); [| reflexivity].
    apply (nthZ_Forall (Qeq 0)); [exact Hall | reflexivity]. }
  rewrite <- Hacc', <- Ha. ring.
Qed.

Lemma mean2_black img :
  Forall (fun p => r p + g p + b p = 0) (pixels img) ->
  Forall (Qeq 0) (TF.mean2 img).
Proof.
  intros Hall. unfold TF.mean2. rewrite Forall_map.
  eapply Forall_impl; [| exact Hall].
  intros p Hp. simpl. rewrite Hp. reflexivity.
Qed.

End FlatImages.


(** On the uniform white image of 20x20 pixels the logo detector reports a
    region as well. *)
Lemma uniform_white_logo_detected :
  exists v l,
    ImageProcessingService.detectVehicleRegion
      TF.healthy (Sample.solid 20 20 Sample.white) 20 20 = Some v /\
    ImageProcessingService.detectLogoRegion
      TF.healthy (Sample.solid 20 20 Sample.white) 20 20 (Some v) = Some l.
Proof.
  eexists. eexists. split; [vm_compute; reflexivity | vm_compute; reflexivity].
Qed.

(** ** Failures inside the detectors *)

Section Failures.

Import ImageProcessingService VehicleDetectionService.


End Failures.



(** ** The edge field of the plate detector *)

Section PlateEdges.

Import ImageProcessingService.

Lemma nth_zrange lo hi (i : nat) :
  (i < Z.to_nat (hi - lo))%nat -> nth i (zrange lo hi) 0 = lo + Z.of_nat i.
Proof.
  intros Hi. unfold zrange.
  set (f := fun k : nat => lo + Z.of_nat k).
  transitivity (nth i (map f (seq 0 (Z.to_nat (hi - lo)))) (f 0%nat)).
  - apply nth_indep. rewrite length_map, length_seq. exact Hi.
  - rewrite map_nth, seq_nth by exact Hi. reflexivity.
Qed.

(** Entry [i * n + j] of the concatenation of rows of length [n]. *)
Lemma nth_rows {A : Type} (row : Z -> list A) (n : nat) (d : A) (ys : list Z) :
  (forall y, List.length (row y) = n) ->
  forall i j, (i < List.length ys)%nat -> (j < n)%nat ->
  nth (i * n + j) (flat_map row ys) d = nth j (row (nth i ys 0)) d.
Proof.
  intros Hrow. induction ys as [| y ys IH]; intros i j Hi Hj; simpl in Hi; [lia |].
  simpl flat_map. destruct i as [| i].
  - simpl. apply app_nth1. rewrite Hrow. exact Hj.
  - rewrite app_nth2 by (rewrite Hrow; simpl; lia).
    rewrite Hrow. replace (S i * n + j - n)%nat with (i * n + j)%nat by (simpl; lia).
    simpl nth. apply IH; [lia | exact Hj].
Qed.

(** The output of a convolution at row [y], column [x]. *)
Lemma conv2d_at k h w data y x :
  0 <= y < h -> 0 <= x < w ->
  nthZ (TF.conv2d k h w data) (y * w + x) 0%Q = TF.conv_at k h w data y x.
Proof.
  intros Hy Hx. unfold nthZ, TF.conv2d.
  assert (E : (y * w + x <? 0) = false) by (apply Z.ltb_ge; nia).
  rewrite E.
  replace (Z.to_nat (y * w + x)) with (Z.to_nat y * Z.to_nat w + Z.to_nat x)%nat
    by nia.
  rewrite (nth_rows _ (Z.to_nat w)).
  - rewrite nth_zrange by lia.
    set (f := fun x0 : Z => TF.conv_at k h w data (0 + Z.of_nat (Z.to_nat y)) x0).
    transitivity (nth (Z.to_nat x) (map f (zrange 0 w)) (f 0)).
    + apply nth_indep. rewrite length_map, length_zrange. lia.
    + rewrite map_nth, nth_zrange by lia. unfold f. f_equal; lia.
  - intros y'. rewrite length_map, length_zrange. f_equal. lia.
  - rewrite length_zrange. lia.
  - lia.
Qed.

(** The response of the horizontal Sobel kernel: the weighted difference of
    the column to the right and the column to the left. *)
Lemma sobelX_at h w data y x :
  TF.conv_at TF.sobelX h w data y x
  == TF.at_ h w data (y - 1) (x + 1) + 2 * TF.at_ h w data y (x + 1)
     + TF.at_ h w data (y + 1) (x + 1)
     - TF.at_ h w data (y - 1) (x - 1) - 2 * TF.at_ h w data y (x - 1)
     - TF.at_ h w data (y + 1) (x - 1).
Proof.
  unfold TF.conv_at, TF.sobelX.
  change (zrange 0 3) with [0; 1; 2]. cbn [fold_left].
  repeat match goal with
         | |- context [nthZ (nthZ ?k ?i []) ?j 0%Q] =>
             let v := eval vm_compute in (nthZ (nthZ k i []) j 0%Q) in
             change (nthZ (nthZ k i []) j 0%Q) with v
         end.
  replace (y + 0 - 1) with (y - 1) by lia.
  replace (y + 1 - 1) with y by lia.
  replace (y + 2 - 1) with (y + 1) by lia.
  replace (x + 0 - 1) with (x - 1) by lia.
  replace (x + 1 - 1) with x by lia.
  replace (x + 2 - 1) with (x + 1) by lia.
  ring.
Qed.

(** C4, amended. The edge values that [detectLicensePlateRegion] scores are
    read from the absolute response of the horizontal Sobel kernel alone,
    divided by the maximum of that field: at row [y], column [x] the field
    holds the absolute weighted difference of the columns [x + 1] and
    [x - 1]; the vertical kernel and the root of the sum of squares play no
    part. *)
Theorem plate_edges_horizontal_sobel be img edgeData maxEdge :
  plateEdges be img = Ok (edgeData, maxEdge) ->
  let G := TF.at_ (height img) (width img) (TF.mean2 img) in
  maxEdge = TF.max edgeData /\
  (forall py px,
     edgeVal edgeData maxEdge (width img) py px
     = JS.div (JS.Fin (nthZ edgeData (Qfloor py * width img + Qfloor px) 0%Q))
              (TF.max edgeData)) /\
  (forall y x,
     0 <= y < height img -> 0 <= x < width img ->
     nthZ edgeData (y * width img + x) 0%Q
     == Qabs (G (y - 1) (x + 1) + 2 * G y (x + 1) + G (y + 1) (x + 1)
              - G (y - 1) (x - 1) - 2 * G y (x - 1) - G (y + 1) (x - 1))).
Proof.
  intros He G. unfold plateEdges in He.
  apply bind_inv in He. destruct He as [gray [Hg He]]. apply run_inv in Hg.
  apply bind_inv in He. destruct He as [conv [Hc He]]. apply run_inv in Hc.
  apply bind_inv in He. destruct He as [edges [Ha He]]. apply run_inv in Ha.
  apply bind_inv in He. destruct He as [ed [Hd He]]. apply run_inv in Hd.
  apply bind_inv in He. destruct He as [mt [Hm He]]. apply run_inv in Hm.
  apply bind_inv in He. destruct He as [mx [Hx He]]. apply run_inv in Hx.
  injection He as <- <-. subst.
  split; [reflexivity |]. split; [reflexivity |].
  intros y x Hy Hx. unfold TF.abs.
  assert (E : nthZ (map Qabs (TF.conv2d TF.sobelX (height img) (width img)
                                        (TF.mean2 img)))
                   (y * width img + x) 0%Q
              = Qabs (nthZ (TF.conv2d TF.sobelX (height img) (width img)
                                      (TF.mean2 img))
                           (y * width img + x) 0%Q)).
  { unfold nthZ. destruct (y * width img + x <? 0); [reflexivity |].
    change 0%Q with (Qabs 0) at 1. apply map_nth. }
  rewrite E, conv2d_at by assumption.
  apply Qabs_wd. apply sobelX_at.
Qed.

End PlateEdges.

Lemma plate_edges_horizontal_sobel_witness :
  exists edgeData maxEdge,
    ImageProcessingService.plateEdges TF.healthy Sample.rightColumn
    = Ok (edgeData, maxEdge) /\
    maxEdge = TF.max edgeData /\
    JS.eqb maxEdge (JS.Fin 1020) = true.
Proof.
  eexists. eexists. split; [vm_compute; reflexivity |].
  split; [| vm_compute; reflexivity].
  apply (plate_edges_horizontal_sobel TF.healthy Sample.rightColumn).
  vm_compute. reflexivity.
Defined.

(** C4 as stated fails: on the 8x8 image whose rightmost column is white,
    the top right pixel has horizontal response 0 and vertical response
    2 * 255; the normalized gradient magnitude there is [sqrt (1/4)], and the
    edge value that the plate detector reads is 0. *)
Lemma plate_edges_are_not_gradient_magnitude :
  exists normalized edgeData maxEdge,
    ImageProcessingService.gradientMagnitude TF.healthy Sample.rightColumn
    = Ok normalized /\
    ImageProcessingService.plateEdges TF.healthy Sample.rightColumn
    = Ok (edgeData, maxEdge) /\
    Surd.radicand (nthZ normalized 7 Surd.MNaN) == 1 / 4 /\
    JS.eqb (ImageProcessingService.edgeVal edgeData maxEdge 8 0 7) (JS.Fin 0)
    = true /\
    Surd.same (nthZ normalized 7 Surd.MNaN)
              (ImageProcessingService.edgeVal edgeData maxEdge 8 0 7) = false.
Proof.
  eexists. eexists. eexists.
  split; [vm_compute; reflexivity |].
  split; [vm_compute; reflexivity |].
  split; [vm_compute; reflexivity |].
  split; vm_compute; reflexivity.
Qed.

(** ** Termination of the position loops *)

Section Loops.

Import ImageProcessingService.

Lemma Qceiling_pred a : Qceiling (a - 1) = Qceiling a - 1.
Proof.
  pose proof (Qle_ceiling a) as H1.
  pose proof (Qceiling_lt a) as H2.
  pose proof (Qle_ceiling (a - 1)) as H3.
  pose proof (Qceiling_lt (a - 1)) as H4.
  assert (Hlo : (inject_Z (Qceiling a - 1) < inject_Z (Qceiling (a - 1) + 1))%Q).
  { apply Qlt_le_trans with a; [exact H2 |].
    rewrite inject_Z_plus.
    apply Qplus_le_l with (z := (- (1))%Q).
    setoid_replace (inject_Z (Qceiling (a - 1)) + inject_Z 1 + - (1))%Q
      with (inject_Z (Qceiling (a - 1))) by (simpl; ring).
    exact H3. }
  assert (Hhi : (inject_Z (Qceiling (a - 1) - 1) < inject_Z (Qceiling a - 1))%Q).
  { apply Qlt_le_trans with (a - 1)%Q; [exact H4 |].
    unfold Zminus. rewrite inject_Z_plus.
    apply Qplus_le_l with (z := 1%Q).
    setoid_replace (a - 1 + 1)%Q with a by ring.
    setoid_replace (inject_Z (Qceiling a) + inject_Z (- (1)) + 1)%Q
      with (inject_Z (Qceiling a)) by (simpl; ring).
    exact H1. }
  unfold Qlt in Hlo, Hhi. simpl in Hlo, Hhi. lia.
Qed.

Lemma trips_next start stop step :
  (0 < step)%Q -> (start < stop)%Q ->
  trips start stop step = S (trips (start + step) stop step).
Proof.
  intros Hstep Hlt. unfold trips.
  assert (Hne : ~ step == 0)
    by (intros E; rewrite E in Hstep; exact (Qlt_irrefl _ Hstep)).
  assert (E : ((stop - (start + step)) / step == (stop - start) / step - 1)%Q)
    by (field; exact Hne).
  rewrite (Qceiling_comp _ _ E), Qceiling_pred.
  assert (Hpos : (0 < (stop - start) / step)%Q).
  { apply Qlt_shift_div_l; [exact Hstep |]. rewrite Qmult_0_l.
    unfold Qminus. rewrite <- (Qplus_opp_r start).
    apply Qplus_lt_l. exact Hlt. }
  pose proof (Qle_ceiling ((stop - start) / step)) as Hc.
  assert (Hq : (0 < inject_Z (Qceiling ((stop - start) / step)))%Q)
    by (apply Qlt_le_trans with ((stop - start) / step)%Q; assumption).
  unfold Qlt in Hq. simpl in Hq. lia.
Qed.

(** A loop with a positive step leaves after [trips] trips: more fuel visits
    no further position. *)
Lemma qloop_fuel start stop step fuel :
  (0 < step)%Q ->
  (trips start stop step <= fuel)%nat ->
  qloop fuel start stop step = qfor start stop step.
Proof.
  intros Hstep. unfold qfor. revert start.
  induction fuel as [| fuel IH]; intros start Hfuel.
  - replace (trips start stop step) with 0%nat by lia. reflexivity.
  - cbn [qloop]. destruct (Qle_bool stop start) eqn:E; cbn [negb].
    + destruct (trips start stop step); cbn [qloop]; [reflexivity |].
      rewrite E. reflexivity.
    + apply Qle_bool_false in E.
      rewrite (trips_next _ _ _ Hstep E) in *. cbn [qloop].
      replace (Qle_bool stop start) with false
        by (symmetry; apply Qle_bool_false; exact E).
      cbn [negb]. f_equal. apply IH. lia.
Qed.

(** After the last position that is visited the loop condition fails. *)
Lemma qfor_exits start stop step :
  (0 < step)%Q ->
  (stop <= start + inject_Z (Z.of_nat (List.length (qfor start stop step))) * step)%Q.
Proof.
  intros Hstep. unfold qfor.
  remember (trips start stop step) as n eqn:En. revert start En.
  induction n as [| n IH]; intros start En.
  - cbn [qloop List.length Z.of_nat].
    setoid_replace (start + inject_Z 0 * step)%Q with start by ring.
    destruct (Qlt_le_dec start stop) as [Hlt | Hle]; [| exact Hle].
    rewrite (trips_next _ _ _ Hstep Hlt) in En. discriminate.
  - cbn [qloop]. destruct (Qle_bool stop start) eqn:E; cbn [negb].
    + cbn [List.length Z.of_nat].
      setoid_replace (start + inject_Z 0 * step)%Q with start by ring.
      apply Qle_bool_iff. exact E.
    + apply Qle_bool_false in E.
      rewrite (trips_next _ _ _ Hstep E) in En. injection En as En.
      specialize (IH _ En). cbn [List.length].
      rewrite Nat2Z.inj_succ. unfold Z.succ. rewrite inject_Z_plus.
      setoid_replace (start + (inject_Z (Z.of_nat (List.length
                        (qloop n (start + step) stop step))) + inject_Z 1) * step)%Q
        with (start + step + inject_Z (Z.of_nat (List.length
                        (qloop n (start + step) stop step))) * step)%Q
        by (simpl; ring).
      exact IH.
Qed.

End Loops.


(** ** The representation of roots *)

Section Roots.

Local Open Scope R_scope.

(** [Surd.gtq] decides the comparison of the real root with a rational. *)
Lemma gtq_sound q c :
  (0 <= q)%Q ->
  Surd.gtq (Surd.MSqrt q) c = true <-> Q2R c < sqrt (Q2R q).
Proof.
  intros Hq. assert (Hq' : 0 <= Q2R q) by (rewrite <- RMicromega.Q2R_0; apply Qle_Rle; exact Hq).
  unfold Surd.gtq. rewrite orb_true_iff, !negb_true_iff, !Qle_bool_false.
  split.
  - intros [Hc | Hc].
    + apply Rlt_le_trans with 0; [| apply sqrt_pos].
      rewrite <- RMicromega.Q2R_0. apply Qlt_Rlt. exact Hc.
    + destruct (Qlt_le_dec c 0) as [Hn | Hp].
      * apply Rlt_le_trans with 0; [| apply sqrt_pos].
        rewrite <- RMicromega.Q2R_0. apply Qlt_Rlt. exact Hn.
      * apply Qlt_Rlt in Hc. rewrite Q2R_mult in Hc.
        apply Qle_Rle in Hp. rewrite RMicromega.Q2R_0 in Hp.
        rewrite <- (sqrt_square (Q2R c)) by exact Hp.
        apply sqrt_lt_1; [nra | exact Hq' | exact Hc].
  - intros Hlt. destruct (Qlt_le_dec c 0) as [Hn | Hp]; [left; exact Hn | right].
    apply Rlt_Qlt. rewrite Q2R_mult.
    apply Qle_Rle in Hp. rewrite RMicromega.Q2R_0 in Hp.
    rewrite <- (sqrt_sqrt (Q2R q)) by exact Hq'.
    apply Rmult_le_0_lt_compat; assumption.
Qed.

(** [Surd.div] is the quotient of the real roots. *)
Lemma div_sound x y :
  (0 <= x)%Q -> (0 < y)%Q ->
  exists z, Surd.div (Surd.MSqrt x) (Surd.MSqrt y) = Surd.MSqrt z /\
            sqrt (Q2R z) = sqrt (Q2R x) / sqrt (Q2R y).
Proof.
  intros Hx Hy. exists (x / y)%Q. simpl.
  assert (Hne : ~ (y == 0)%Q) by (intros E; rewrite E in Hy; exact (Qlt_irrefl _ Hy)).
  destruct (Qeq_bool y 0) eqn:E; [apply Qeq_bool_eq in E; contradiction |].
  split; [reflexivity |].
  unfold Qdiv. rewrite Q2R_mult, Q2R_inv by exact Hne.
  apply sqrt_div_alt.
  rewrite <- RMicromega.Q2R_0. apply Qlt_Rlt. exact Hy.
Qed.

End Roots.

(** * Further properties of the detectors *)

(** ** Type and confidence of the regions *)

Section RegionFacts.

Import ImageProcessingService.

(** X1. An emitted vehicle region is never of type [side]; it is [rear]
    exactly when the vertical centre of its box lies below the middle of the
    image, that is when [2 * y + height > imageHeight], and [front]
    otherwise. *)
Theorem vehicle_type_by_centre be img W H v :
  detectVehicleRegion be img W H = Some v ->
  v_type v <> side /\
  (v_type v = rear <-> H < 2 * bbox_y (v_bbox v) + bbox_height (v_bbox v)) /\
  (v_type v = front <-> 2 * bbox_y (v_bbox v) + bbox_height (v_bbox v) <= H).
Proof.
  intros Hv.
  destruct (detectVehicleRegion_inv _ _ _ _ _ Hv) as [ed [_ Hdec]].
  unfold vehicleDecision in Hdec.
  destruct (JS.gt (fst (scan ed W H)) (JS.Fin 0.05)); [| discriminate].
  injection Hdec as <-. cbn [v_type v_bbox].
  set (box := snd (scan ed W H)).
  destruct (Qle_bool (inject_Z (bbox_y box) + inject_Z (bbox_height box) / 2)
                     (inject_Z H * 0.5)) eqn:E; cbn [negb].
  - apply Qle_bool_iff in E. unfold Qle in E. simpl in E.
    repeat split; try discriminate; try reflexivity; intros; lia.
  - apply Qle_bool_false in E. unfold Qlt in E. simpl in E.
    repeat split; try discriminate; try reflexivity; intros; lia.
Qed.

(** [Math.min(a * k, cap)] is a finite number above [t * k] when [a] exceeds
    [t] and [t * k] is below the cap. *)
Lemma capped_floor a t k cap :
  JS.gt a (JS.Fin t) = true ->
  (0 <= t)%Q -> (0 < k)%Q -> (t * k < cap)%Q ->
  exists q, JS.min (JS.mul a (JS.Fin k)) (JS.Fin cap) = JS.Fin q /\
            (t * k < q)%Q /\ (q <= cap)%Q.
Proof.
  intros Ha Ht Hk Hcap.
  destruct (gt_Fin_inv _ _ Ha) as [-> | [x [-> Hx]]].
  - simpl. destruct (Qeq_bool k 0) eqn:E.
    + apply Qeq_bool_eq in E. rewrite E in Hk. exfalso. exact (Qlt_irrefl _ Hk).
    + unfold JS.qneg. assert (E' : Qle_bool 0 k = true)
        by (apply Qle_bool_iff, Qlt_le_weak, Hk).
      rewrite E'. simpl. exists cap. repeat split; [exact Hcap | apply Qle_refl].
  - assert (Hlt : (t * k < x * k)%Q) by (apply Qmult_lt_compat_r; assumption).
    unfold JS.mul, JS.min, JS.gt.
    destruct (negb (Qle_bool (x * k) cap)) eqn:E.
    + exists cap. repeat split; [exact Hcap | apply Qle_refl].
    + apply negb_false_iff, Qle_bool_iff in E.
      exists (x * k)%Q. repeat split; assumption.
Qed.

Lemma plate_score_floor edgeDensity horizontalRatio :
  JS.gt edgeDensity (JS.Fin 0.15) = true ->
  JS.gt horizontalRatio (JS.Fin 0.1) = true ->
  JS.gt (JS.add (JS.mul edgeDensity (JS.Fin 0.6))
                (JS.mul horizontalRatio (JS.Fin 0.4))) (JS.Fin 0.13) = true.
Proof.
  intros He Hr.
  destruct (gt_Fin_inv _ _ He) as [-> | [x [-> Hx]]];
    destruct (gt_Fin_inv _ _ Hr) as [-> | [y [-> Hy]]]; try reflexivity.
  apply gt_Fin.
  setoid_replace 0.13%Q with (0.15 * 0.6 + 0.1 * 0.4)%Q by reflexivity.
  apply Qplus_lt_le_compat.
  - apply Qmult_lt_compat_r; [reflexivity | exact Hx].
  - apply Qmult_le_compat_r; [apply Qlt_le_weak; exact Hy | discriminate].
Qed.

(** X2. The confidence of an emitted region is a finite number with a floor
    above zero: more than 0.25 and at most 0.95 for a vehicle region, more
    than 0.26 and at most 0.9 for a plate, more than 0.3 and at most 0.85
    for a logo. *)
Theorem emitted_confidence_floors be img W H vehicleRegion :
  (forall v, detectVehicleRegion be img W H = Some v ->
             exists q, v_confidence v = JS.Fin q /\ (0.25 < q)%Q /\ (q <= 0.95)%Q) /\
  (forall p, detectLicensePlateRegion be img W H vehicleRegion = Some p ->
             exists q, p_confidence p = JS.Fin q /\ (0.26 < q)%Q /\ (q <= 0.9)%Q) /\
  (forall l, detectLogoRegion be img W H vehicleRegion = Some l ->
             exists q, l_confidence l = JS.Fin q /\ (0.3 < q)%Q /\ (q <= 0.85)%Q).
Proof.
  repeat split.
  - intros v Hv.
    destruct (detectVehicleRegion_inv _ _ _ _ _ Hv) as [ed [_ Hdec]].
    destruct (vehicleDecision_inv _ _ _ Hdec) as [Hgt [_ ->]].
    destruct (capped_floor _ 0.05 5 0.95 Hgt) as [q [-> [Hlo Hhi]]];
      try reflexivity; try discriminate.
    exists q. repeat split; assumption.
  - intros p Hp.
    destruct (detectLicensePlateRegion_inv _ _ _ _ _ _ Hp)
      as [ed [m [best [_ [Hin ->]]]]].
    destruct (in_plateCandidates _ _ _ _ _ _ Hin) as [w [h [y [x [_ [_ [_ Hc]]]]]]].
    destruct (plateCandidate_inv _ _ _ _ _ _ _ _ Hc) as [_ [e [hr [He [Hr Hs]]]]].
    cbn [p_confidence]. rewrite Hs.
    destruct (capped_floor _ 0.13 2 0.9 (plate_score_floor _ _ He Hr))
      as [q [-> [Hlo Hhi]]]; try reflexivity; try discriminate.
    exists q. repeat split; assumption.
  - intros l. unfold detectLogoRegion.
    destruct (logoResponse be img) as [rd | e]; simpl; [| discriminate].
    unfold logoDecision.
    destruct (logoScan (fst rd) (snd rd) W H vehicleRegion) as [best |];
      [| discriminate].
    destruct (JS.gt (score best) (JS.Fin 0.1)) eqn:Hgt; [| discriminate].
    intros Hl. injection Hl as <-. cbn [l_confidence].
    destruct (capped_floor _ 0.1 3 0.85 Hgt) as [q [-> [Hlo Hhi]]];
      try reflexivity; try discriminate.
    exists q. repeat split; assumption.
Qed.

End RegionFacts.

Lemma vehicle_type_by_centre_witness :
  v_type (mkVehicle front (mkBox 5 0 3 3) (JS.Fin 0.95)) <> side.
Proof.
  apply (vehicle_type_by_centre TF.healthy Sample.rightColumn 8 8).
  vm_compute. reflexivity.
Defined.

Lemma emitted_confidence_floors_witness :
  exists q, JS.Fin 0.95 = JS.Fin q /\ (0.25 < q)%Q /\ (q <= 0.95)%Q.
Proof.
  destruct (emitted_confidence_floors TF.healthy Sample.rightColumn 8 8 None)
    as [Hv _].
  apply (Hv (mkVehicle front (mkBox 5 0 3 3) (JS.Fin 0.95))).
  vm_compute. reflexivity.
Defined.

(** ** Where the plate and the logo are found *)

Section PlateAndLogoBoxes.

Import ImageProcessingService.

Lemma floor_sum_le a s (e : Z) :
  (a + s <= inject_Z e)%Q -> Qfloor a + Qfloor s <= e.
Proof.
  intros Hle.
  assert (Hq : (inject_Z (Qfloor a + Qfloor s) <= inject_Z e)%Q).
  { rewrite inject_Z_plus. apply Qle_trans with (a + s)%Q; [| exact Hle].
    apply Qplus_le_compat; apply Qfloor_le. }
  unfold Qle in Hq. simpl in Hq. lia.
Qed.

Lemma floor_scaled W n d :
  Qfloor (inject_Z W * (n # d)) = W * n / Z.pos d.
Proof. reflexivity. Qed.

(** Without a hint, every candidate lies inside the image, at or below
    [floor (0.4 * imageHeight)]. *)
Lemma candidate_in_lower_image edgeData maxEdge W H c :
  0 < W ->
  In c (plateCandidates edgeData maxEdge W H None) ->
  0 <= bbox_x (c_bbox c) /\
  bbox_x (c_bbox c) + bbox_width (c_bbox c) <= W /\
  0 <= bbox_y (c_bbox c) /\
  Qfloor (inject_Z H * 0.4) <= bbox_y (c_bbox c) /\
  bbox_y (c_bbox c) + bbox_height (c_bbox c) <= H.
Proof.
  intros HW Hin.
  destruct (in_plateCandidates _ _ _ _ _ _ Hin) as [w [h [y [x [Hs [Hy [Hx Hc]]]]]]].
  destruct (in_plateSizes _ _ _ HW Hs) as [Hw Hh].
  destruct (plateCandidate_inv _ _ _ _ _ _ _ _ Hc) as [Hbox _].
  cbn [plateSearch fst snd] in Hy, Hx.
  apply qfor_bounds in Hy;
    [| apply Qlt_le_weak, Qmult_lt_0_compat; [exact Hh | reflexivity]].
  apply qfor_bounds in Hx;
    [| apply Qlt_le_weak, Qmult_lt_0_compat; [exact Hw | reflexivity]].
  destruct Hy as [Hy1 Hy2], Hx as [Hx1 Hx2].
  rewrite Hbox. cbn [bbox_x bbox_y bbox_width bbox_height].
  assert (Htop : Qfloor (inject_Z H * 0.4) <= Qfloor y).
  { rewrite <- (Qfloor_Z (Qfloor (inject_Z H * 0.4))). apply Qfloor_resp_le.
    exact Hy1. }
  assert (Hbottom : Qfloor y + Qfloor h <= H).
  { apply floor_sum_le. apply Qlt_le_weak.
    apply Qplus_lt_l with (z := (- h)%Q).
    setoid_replace (y + h + - h)%Q with y by ring. exact Hy2. }
  assert (Hlt : (inject_Z (Qfloor (inject_Z H * 0.4)) < inject_Z H)%Q)
    by Lqa.lra.
  rewrite <- Zlt_Qlt in Hlt. pose proof Htop as Htop'.
  rewrite floor_scaled in Hlt, Htop'.
  repeat split.
  - change 0 with (Qfloor 0). apply Qfloor_resp_le. exact Hx1.
  - apply floor_sum_le. apply Qlt_le_weak.
    apply Qplus_lt_l with (z := (- w)%Q).
    setoid_replace (x + w + - w)%Q with x by ring. exact Hx2.
  - revert Hlt Htop'. generalize (Qfloor y). intros fy Hlt Htop'.
    Z.div_mod_to_equations. lia.
  - exact Htop.
  - exact Hbottom.
Qed.

(** X3. Without a vehicle region as hint, the plate that is returned lies in
    the lower part of the image: its top edge is at or below
    [floor (0.4 * imageHeight)], and the box lies between the left and right
    edges and above the bottom edge of the image. *)
Theorem plate_in_lower_image be img W H p :
  0 < W ->
  detectLicensePlateRegion be img W H None = Some p ->
  0 <= bbox_x (p_bbox p) /\
  bbox_x (p_bbox p) + bbox_width (p_bbox p) <= W /\
  Qfloor (inject_Z H * 0.4) <= bbox_y (p_bbox p) /\
  bbox_y (p_bbox p) + bbox_height (p_bbox p) <= H.
Proof.
  intros HW Hp.
  destruct (detectLicensePlateRegion_inv _ _ _ _ _ _ Hp)
    as [ed [m [best [_ [Hin ->]]]]].
  destruct (candidate_in_lower_image _ _ _ _ _ HW Hin) as [H1 [H2 [_ [H3 H4]]]].
  cbn [p_bbox]. auto.
Qed.

(** X4. A plate box has one of two sizes, [floor (0.25 W)] by
    [floor (0.065 W)] or [floor (0.15 W)] by [floor (0.075 W)], that is
    [W / 4] by [13 W / 200] or [3 W / 20] by [3 W / 40] in integer division;
    both sides are positive as soon as the image is 16 pixels wide. *)
Theorem plate_box_sizes be img W H vehicleRegion p :
  0 < W ->
  detectLicensePlateRegion be img W H vehicleRegion = Some p ->
  ((bbox_width (p_bbox p) = W / 4 /\ bbox_height (p_bbox p) = 13 * W / 200) \/
   (bbox_width (p_bbox p) = 3 * W / 20 /\ bbox_height (p_bbox p) = 3 * W / 40)) /\
  (16 <= W -> 0 < bbox_width (p_bbox p) /\ 0 < bbox_height (p_bbox p)).
Proof.
  intros HW Hp.
  destruct (detectLicensePlateRegion_inv _ _ _ _ _ _ Hp)
    as [ed [m [best [_ [Hin ->]]]]].
  destruct (in_plateCandidates _ _ _ _ _ _ Hin) as [w [h [y [x [Hs [_ [_ Hc]]]]]]].
  destruct (plateCandidate_inv _ _ _ _ _ _ _ _ Hc) as [Hbox _].
  cbn [p_bbox]. rewrite Hbox. cbn [bbox_x bbox_y bbox_width bbox_height].
  assert (Hsizes :
            (Qfloor w = W / 4 /\ Qfloor h = 13 * W / 200) \/
            (Qfloor w = 3 * W / 20 /\ Qfloor h = 3 * W / 40)).
  { destruct Hs as [E | [E | []]]; injection E as <- <-; [left | right];
      rewrite !floor_scaled; split; Z.div_mod_to_equations; lia. }
  split; [exact Hsizes |].
  intros H16. destruct Hsizes as [[-> ->] | [-> ->]];
    split; Z.div_mod_to_equations; lia.
Qed.

End PlateAndLogoBoxes.

Section LogoBox.

Import ImageProcessingService.

(** What holds of the best logo so far at every point of the scan. *)
Local Abbreviation logo_box_inside W H bestLogo :=
  (match bestLogo with
   | Some best =>
       let box := c_bbox best in
       bbox_width box = bbox_height box /\
       (bbox_width box = 3 * W / 50 \/ bbox_width box = 2 * W / 25 \/
        bbox_width box = W / 10) /\
       0 <= bbox_x box /\ 0 <= bbox_y box /\
       bbox_x box + bbox_width box <= W /\
       bbox_y box + bbox_height box <= H
   | None => True
   end).

Lemma logoScan_box responseData maxResponse W H vehicleRegion :
  logo_box_inside W H (logoScan responseData maxResponse W H vehicleRegion).
Proof.
  set (P := fun bestLogo : option Candidate => logo_box_inside W H bestLogo).
  change (P (logoScan responseData maxResponse W H vehicleRegion)).
  unfold logoScan.
  destruct (logoSearch W H vehicleRegion) as [[cx cy] radius].
  apply (fold_left_keeps P); [| exact I].
  intros b1 logoSize Hsize H1.
  apply (fold_left_keeps P); [| exact H1].
  intros b2 y _ H2.
  apply (fold_left_keeps P); [| exact H2].
  intros b3 x _ H3. unfold logoVisit.
  destruct (Qle_bool (logoSize / 2) x) eqn:Ex; cbn [negb orb]; [| exact H3].
  destruct (Qle_bool (logoSize / 2) y) eqn:Ey; cbn [negb orb]; [| exact H3].
  destruct (Qle_bool x (inject_Z W - logoSize / 2)) eqn:Ex'; cbn [negb orb];
    [| exact H3].
  destruct (Qle_bool y (inject_Z H - logoSize / 2)) eqn:Ey'; cbn [negb orb];
    [| exact H3].
  destruct (0 <? snd (blobSums responseData maxResponse W H x y (logoSize / 2)));
    [| exact H3].
  apply Qle_bool_iff in Ex, Ey, Ex', Ey'.
  assert (Hnew : P (Some (mkCandidate
                            (mkBox (Qfloor (x - logoSize / 2))
                                   (Qfloor (y - logoSize / 2))
                                   (Qfloor logoSize) (Qfloor logoSize))
                            (JS.div (fst (blobSums responseData maxResponse W H x y
                                                   (logoSize / 2)))
                                    (JS.ofZ (snd (blobSums responseData maxResponse W H
                                                           x y (logoSize / 2)))))))).
  { unfold P. cbn [c_bbox bbox_x bbox_y bbox_width bbox_height].
    repeat split.
    - destruct Hsize as [<- | [<- | [<- | []]]]; rewrite floor_scaled;
        [left | right; left | right; right]; Z.div_mod_to_equations; lia.
    - change 0 with (Qfloor 0). apply Qfloor_resp_le.
      apply Qplus_le_l with (z := (logoSize / 2)%Q).
      setoid_replace (x - logoSize / 2 + logoSize / 2)%Q with x by ring.
      rewrite Qplus_0_l. exact Ex.
    - change 0 with (Qfloor 0). apply Qfloor_resp_le.
      apply Qplus_le_l with (z := (logoSize / 2)%Q).
      setoid_replace (y - logoSize / 2 + logoSize / 2)%Q with y by ring.
      rewrite Qplus_0_l. exact Ey.
    - apply floor_sum_le.
      apply Qplus_le_l with (z := (- (logoSize / 2))%Q).
      setoid_replace (x - logoSize / 2 + logoSize + - (logoSize / 2))%Q
        with x by field.
      exact Ex'.
    - apply floor_sum_le.
      apply Qplus_le_l with (z := (- (logoSize / 2))%Q).
      setoid_replace (y - logoSize / 2 + logoSize + - (logoSize / 2))%Q
        with y by field.
      exact Ey'. }
  destruct b3 as [best |]; [| exact Hnew].
  destruct (JS.gt _ (score best)); [exact Hnew | exact H3].
Qed.

(** X5. An emitted logo region is a square inside the image: its side is
    [floor (0.06 W)], [floor (0.08 W)] or [floor (0.1 W)] (that is
    [3 W / 50], [2 W / 25] or [W / 10] in integer division), its corner is
    not negative, and it ends at or before the right and the bottom edge of
    the image. *)
Theorem logo_box_in_image be img W H vehicleRegion l :
  0 < W ->
  detectLogoRegion be img W H vehicleRegion = Some l ->
  let box := l_bbox l in
  bbox_width box = bbox_height box /\
  (bbox_width box = 3 * W / 50 \/ bbox_width box = 2 * W / 25 \/
   bbox_width box = W / 10) /\
  0 <= bbox_x box /\ 0 <= bbox_y box /\
  bbox_x box + bbox_width box <= W /\
  bbox_y box + bbox_height box <= H.
Proof.
  intros HW. unfold detectLogoRegion.
  destruct (logoResponse be img) as [rd | e]; simpl; [| discriminate].
  pose proof (logoScan_box (fst rd) (snd rd) W H vehicleRegion) as Hscan.
  unfold logoDecision.
  destruct (logoScan (fst rd) (snd rd) W H vehicleRegion) as [best |];
    [| discriminate].
  destruct (JS.gt (score best) (JS.Fin 0.1)); [| discriminate].
  intros Hl. injection Hl as <-. exact Hscan.
Qed.

End LogoBox.

Lemma plate_in_lower_image_witness :
  0 <= bbox_x (mkBox 5 3 1 0) /\
  bbox_x (mkBox 5 3 1 0) + bbox_width (mkBox 5 3 1 0) <= 8 /\
  Qfloor (inject_Z 8 * 0.4) <= bbox_y (mkBox 5 3 1 0) /\
  bbox_y (mkBox 5 3 1 0) + bbox_height (mkBox 5 3 1 0) <= 8.
Proof.
  apply (plate_in_lower_image TF.healthy Sample.rightColumn 8 8
           (mkPlate (mkBox 5 3 1 0) (JS.Fin 0.9))).
  - lia.
  - vm_compute. reflexivity.
Defined.

Lemma plate_box_sizes_witness :
  0 < bbox_width (mkBox 0 6 2 1) /\ 0 < bbox_height (mkBox 0 6 2 1).
Proof.
  destruct (plate_box_sizes TF.healthy (Sample.solid 16 16 Sample.white) 16 16 None
              (mkPlate (mkBox 0 6 2 1) (JS.Fin 0.9))) as [_ Hpos].
  - lia.
  - vm_compute. reflexivity.
  - apply Hpos. lia.
Defined.

Lemma logo_box_in_image_witness :
  exists l,
    ImageProcessingService.detectLogoRegion
      TF.healthy (Sample.solid 20 20 Sample.white) 20 20 None = Some l /\
    bbox_x (l_bbox l) + bbox_width (l_bbox l) <= 20.
Proof.
  eexists. split; [vm_compute; reflexivity |].
  match goal with
  | |- bbox_x (l_bbox ?l) + _ <= _ =>
      assert (Hl : ImageProcessingService.detectLogoRegion
                     TF.healthy (Sample.solid 20 20 Sample.white) 20 20 None
                   = Some l) by (vm_compute; reflexivity);
      pose proof (logo_box_in_image TF.healthy (Sample.solid 20 20 Sample.white)
                    20 20 None l ltac:(lia) Hl) as Hbox
  end.
  cbv zeta in Hbox. apply Hbox.
Defined.

(** ** The plate that is returned is the best candidate *)

Section BestCandidate.

Import ImageProcessingService.

(** The scores that the sort compares: finite numbers and [+Infinity]. *)
Local Abbreviation ordered a :=
  (a = JS.Inf false \/ exists q, a = JS.Fin q).

Lemma sub_positive a b :
  ordered a -> ordered b ->
  JS.gt (JS.sub b a) (JS.Fin 0) = JS.gt b a.
Proof.
  intros [-> | [x ->]] [-> | [y ->]]; try reflexivity.
  simpl. destruct (Qle_bool y x) eqn:E.
  - apply Qle_bool_iff in E. apply negb_false_iff, Qle_bool_iff.
    apply Qplus_le_l with (z := x). setoid_replace (y + - x + x)%Q with y by ring.
    rewrite Qplus_0_l. exact E.
  - apply Qle_bool_false in E. apply negb_true_iff, Qle_bool_false.
    apply Qplus_lt_l with (z := x). setoid_replace (y + - x + x)%Q with y by ring.
    rewrite Qplus_0_l. exact E.
Qed.

Lemma gt_asym a b : ordered a -> ordered b -> JS.gt a b = true -> JS.gt b a = false.
Proof.
  intros [-> | [x ->]] [-> | [y ->]]; simpl; try discriminate; try reflexivity.
  rewrite negb_true_iff, negb_false_iff, Qle_bool_false, Qle_bool_iff.
  apply Qlt_le_weak.
Qed.

Lemma not_gt_trans a b c :
  ordered a -> ordered b -> ordered c ->
  JS.gt c b = false -> JS.gt b a = false -> JS.gt c a = false.
Proof.
  intros [-> | [x ->]] [-> | [y ->]] [-> | [z ->]]; simpl;
    try discriminate; try reflexivity.
  rewrite !negb_false_iff, !Qle_bool_iff. intros H1 H2.
  apply Qle_trans with y; assumption.
Qed.

(** The head of the sorted list is the first candidate of the highest
    score. *)
Lemma sort_head l :
  Forall (fun c => ordered (score c)) l ->
  match sort l with
  | [] => l = []
  | best :: _ =>
      exists l1 l2,
        l = l1 ++ best :: l2 /\
        (forall c, In c l1 -> JS.gt (score best) (score c) = true) /\
        (forall c, In c l2 -> JS.gt (score c) (score best) = false)
  end.
Proof.
  induction l as [| a l IH]; intros Hall; [reflexivity |].
  inversion Hall as [| ? ? Ha Hl]; subst. specialize (IH Hl).
  cbn [sort fold_right]. fold (sort l).
  destruct (sort l) as [| best rest] eqn:Es.
  - subst l. cbn [insert]. exists [], []. repeat split; intros c [].
  - destruct IH as [l1 [l2 [El [H1 H2]]]].
    assert (Hb : ordered (score best)).
    { rewrite Forall_forall in Hl. apply Hl. rewrite El.
      apply in_or_app. right. left. reflexivity. }
    cbn [insert]. rewrite (sub_positive _ _ Ha Hb).
    destruct (JS.gt (score best) (score a)) eqn:E.
    + exists (a :: l1), l2. rewrite El. repeat split; [| exact H2].
      intros c [<- | Hc]; [exact E | apply H1; exact Hc].
    + exists [], l. repeat split; [intros c [] |].
      intros c Hc. rewrite Forall_forall in Hl.
      apply (not_gt_trans _ (score best)); auto.
      rewrite El in Hc. apply in_app_or in Hc.
      destruct Hc as [Hc | [<- | Hc]].
      * apply gt_asym; auto. apply Hl. rewrite El. apply in_or_app. left. exact Hc.
      * destruct Hb as [-> | [q ->]]; simpl; [reflexivity |].
        apply negb_false_iff, Qle_bool_iff, Qle_refl.
      * apply H2. exact Hc.
Qed.

(** X6. The plate that is returned is built from the accepted candidate of
    the highest score, the earliest one in scan order (sizes, then rows, then
    columns) among those of equal score: every candidate before it scores
    strictly less, no candidate after it scores more. *)
Theorem plate_is_first_best_candidate be img W H vehicleRegion p :
  detectLicensePlateRegion be img W H vehicleRegion = Some p ->
  exists edgeData maxEdge before best after,
    plateEdges be img = Ok (edgeData, maxEdge) /\
    plateCandidates edgeData maxEdge W H vehicleRegion = before ++ best :: after /\
    p = mkPlate (c_bbox best) (JS.min (JS.mul (score best) (JS.Fin 2)) (JS.Fin 0.9)) /\
    (forall c, In c before -> JS.gt (score best) (score c) = true) /\
    (forall c, In c after -> JS.gt (score c) (score best) = false).
Proof.
  unfold detectLicensePlateRegion.
  destruct (plateEdges be img) as [[ed m] | e]; simpl; [| discriminate].
  assert (Hall : Forall (fun c => ordered (score c))
                        (plateCandidates ed m W H vehicleRegion)).
  { apply Forall_forall. intros c Hin.
    destruct (in_plateCandidates _ _ _ _ _ _ Hin) as [w [h [y [x [_ [_ [_ Hc]]]]]]].
    destruct (plateCandidate_inv _ _ _ _ _ _ _ _ Hc) as [_ [e [hr [He [Hr ->]]]]].
    destruct (gt_Fin_inv _ _ (plate_score_floor _ _ He Hr)) as [-> | [q [-> _]]];
      eauto. }
  pose proof (sort_head _ Hall) as Hhead.
  destruct (sort (plateCandidates ed m W H vehicleRegion)) as [| best rest];
    simpl; [discriminate |].
  destruct Hhead as [l1 [l2 [El [H1 H2]]]].
  intros Hp. injection Hp as <-.
  exists ed, m, l1, best, l2. repeat split; assumption.
Qed.

End BestCandidate.

Lemma plate_is_first_best_candidate_witness :
  exists edgeData maxEdge before best after,
    ImageProcessingService.plateEdges TF.healthy Sample.rightColumn
    = Ok (edgeData, maxEdge) /\
    ImageProcessingService.plateCandidates edgeData maxEdge 8 8 None
    = before ++ best :: after /\
    ImageProcessingService.c_bbox best = mkBox 5 3 1 0.
Proof.
  destruct (plate_is_first_best_candidate TF.healthy Sample.rightColumn 8 8 None
              (mkPlate (mkBox 5 3 1 0) (JS.Fin 0.9)))
    as [ed [m [l1 [best [l2 [H1 [H2 [H3 _]]]]]]]].
  - vm_compute. reflexivity.
  - exists ed, m, l1, best, l2. repeat split; try assumption.
    injection H3 as E _. symmetry. exact E.
Defined.

(** ** The dominant colour *)

Section DominantColor.

Import ImageProcessingService.

(** A bucket holds at least one pixel, and its channel sums lie between
    [count] times the key and [count] times the key plus 31. *)
Local Abbreviation within k n total := (k * n <= total <= (k + 31) * n).

Local Abbreviation bucket_ok ke :=
  (1 <= count (snd ke) /\
   (exists p : RGB, fst ke = keyOf p) /\
   within (fst (fst (fst ke))) (count (snd ke)) (sum_r (snd ke)) /\
   within (snd (fst (fst ke))) (count (snd ke)) (sum_g (snd ke)) /\
   within (snd (fst ke)) (count (snd ke)) (sum_b (snd ke))).

Lemma key_eqb_eq k1 k2 : key_eqb k1 k2 = true -> k1 = k2.
Proof.
  destruct k1 as [[a1 b1] c1], k2 as [[a2 b2] c2]. unfold key_eqb.
  rewrite !andb_true_iff, !Z.eqb_eq. intros [[-> ->] ->]. reflexivity.
Qed.

Lemma quantized_bounds z : z / 32 * 32 <= z <= z / 32 * 32 + 31.
Proof. Z.div_mod_to_equations. lia. Qed.

Lemma addPixel_ok p hist :
  Forall (fun ke => bucket_ok ke) hist ->
  Forall (fun ke => bucket_ok ke) (addPixel p hist).
Proof.
  pose proof (quantized_bounds (r p)) as Hr.
  pose proof (quantized_bounds (g p)) as Hg.
  pose proof (quantized_bounds (b p)) as Hb.
  induction hist as [| [k e] hist IH]; intros Hall; cbn [addPixel].
  - constructor; [| constructor]. cbn [fst snd count sum_r sum_g sum_b keyOf].
    repeat split; try lia. exists p. reflexivity.
  - inversion Hall as [| ? ? He Hrest]; subst.
    destruct (key_eqb k (keyOf p)) eqn:E.
    + apply key_eqb_eq in E. subst k. constructor; [| exact Hrest].
      cbn [fst snd count sum_r sum_g sum_b keyOf] in *.
      destruct He as [Hc [_ [H1 [H2 H3]]]].
      repeat split; try nia. exists p. reflexivity.
    + constructor; [exact He | apply IH; exact Hrest].
Qed.

Lemma colorHistogram_ok regionData :
  Forall (fun ke => bucket_ok ke) (colorHistogram regionData).
Proof.
  unfold colorHistogram.
  cut (forall hist,
          Forall (fun ke => bucket_ok ke) hist ->
          Forall (fun ke => bucket_ok ke)
                 (fold_left (fun hist p => addPixel p hist) regionData hist)).
  { intros Hgen. apply Hgen. constructor. }
  induction regionData as [| p data IH]; intros hist Hall; cbn [fold_left];
    [exact Hall |].
  apply IH. apply addPixel_ok. exact Hall.
Qed.

Lemma round_monotone s1 s2 c :
  0 < c -> s1 <= s2 ->
  round (inject_Z s1 / inject_Z c) <= round (inject_Z s2 / inject_Z c).
Proof.
  intros Hc Hs. unfold round. apply Qfloor_resp_le.
  apply Qplus_le_l. unfold Qdiv. apply Qmult_le_compat_r.
  - unfold Qle. simpl. lia.
  - apply Qlt_le_weak, Qinv_lt_0_compat. unfold Qlt. simpl. lia.
Qed.

(** The rounded mean of a bucket lies in the bucket. *)
Lemma round_within k n total :
  1 <= n -> within k n total ->
  k <= round (inject_Z total / inject_Z n) <= k + 31.
Proof.
  intros Hn [Hlo Hhi]. split.
  - rewrite <- (round_mean n k) at 1 by lia.
    apply round_monotone; lia.
  - rewrite <- (round_mean n (k + 31)) by lia.
    apply round_monotone; lia.
Qed.

Lemma quantize_back q z : q / 32 * 32 = q -> q <= z <= q + 31 -> z / 32 * 32 = q.
Proof. intros Hq Hz. Z.div_mod_to_equations. lia. Qed.

(** The state of the scan for the dominant bucket after any number of
    buckets: its count is that of a bucket seen, the largest so far, and the
    colour falls into that bucket. *)
Lemma dominantColor_spec hist :
  Forall (fun ke => bucket_ok ke) hist ->
  let dom := dominantColor hist in
  (forall ke, In ke hist -> count (snd ke) <= snd dom) /\
  ((hist = [] /\ dom = (mkRGB 0 0 0, 0)) \/
   (exists ke, In ke hist /\ count (snd ke) = snd dom /\ keyOf (fst dom) = fst ke)).
Proof.
  intros Hall. unfold dominantColor.
  set (step := fun (dom : RGB * Z) (ke : Key * Bucket) =>
                 if snd dom <? count (snd ke)
                 then (mkRGB (round (inject_Z (sum_r (snd ke)) / inject_Z (count (snd ke))))
                             (round (inject_Z (sum_g (snd ke)) / inject_Z (count (snd ke))))
                             (round (inject_Z (sum_b (snd ke)) / inject_Z (count (snd ke)))),
                       count (snd ke))
                 else dom).
  change (let dom := fold_left step hist (mkRGB 0 0 0, 0) in
          (forall ke, In ke hist -> count (snd ke) <= snd dom) /\
          ((hist = [] /\ dom = (mkRGB 0 0 0, 0)) \/
           (exists ke, In ke hist /\ count (snd ke) = snd dom /\
                       keyOf (fst dom) = fst ke))).
  cbv zeta.
  induction hist as [| ke hist IH] using rev_ind.
  - split; [intros ke [] | left; split; reflexivity].
  - apply Forall_app in Hall. destruct Hall as [Hhist Hke].
    inversion Hke as [| ? ? Hok _]; subst.
    destruct (IH Hhist) as [Hmax Hdom]. clear IH.
    rewrite fold_left_app. cbn [fold_left].
    set (dom := fold_left step hist (mkRGB 0 0 0, 0)) in *.
    destruct (snd dom <? count (snd ke)) eqn:E.
    + assert (Hs : step dom ke
                   = (mkRGB (round (inject_Z (sum_r (snd ke)) / inject_Z (count (snd ke))))
                            (round (inject_Z (sum_g (snd ke)) / inject_Z (count (snd ke))))
                            (round (inject_Z (sum_b (snd ke)) / inject_Z (count (snd ke)))),
                      count (snd ke)))
        by (unfold step at 1; rewrite E; reflexivity).
      rewrite Hs. clear Hs.
      apply Z.ltb_lt in E. cbn [fst snd]. split.
      * intros ke' Hin. apply in_app_or in Hin.
        destruct Hin as [Hin | [<- | []]]; [specialize (Hmax _ Hin); lia | lia].
      * right. exists ke. split; [apply in_or_app; right; left; reflexivity |].
        split; [reflexivity |].
        destruct Hok as [Hc [[p Hp] [H1 [H2 H3]]]].
        apply (round_within _ _ _ Hc) in H1, H2, H3.
        destruct ke as [[[kr kg] kb] e]. cbn [fst snd] in *.
        unfold keyOf in *. cbn [r g b]. injection Hp as Hr Hg Hb.
        f_equal; [f_equal |]; apply quantize_back; try assumption;
          subst; Z.div_mod_to_equations; lia.
    + assert (Hs : step dom ke = dom) by (unfold step at 1; rewrite E; reflexivity).
      rewrite Hs. clear Hs.
      apply Z.ltb_ge in E. split.
      * intros ke' Hin. apply in_app_or in Hin.
        destruct Hin as [Hin | [<- | []]]; [apply Hmax; exact Hin | exact E].
      * right. destruct Hdom as [[-> Hd] | [ke0 [Hin [Hc Hk]]]].
        -- exfalso. destruct Hok as [Hc _]. rewrite Hd in E. cbn [snd] in E. lia.
        -- exists ke0. split; [apply in_or_app; left; exact Hin |].
           split; assumption.
Qed.

(** X7. The histogram counts every sampled pixel once; the dominant colour
    comes from a bucket that no other bucket exceeds in count, the reported
    count is that bucket's, and the reported colour, the rounded mean of the
    bucket's pixels, falls into that bucket again. *)
Theorem dominant_bucket_is_largest regionData :
  regionData <> [] ->
  let hist := colorHistogram regionData in
  let dom := dominantColor hist in
  counted hist = Z.of_nat (List.length regionData) /\
  (forall ke, In ke hist -> count (snd ke) <= snd dom) /\
  1 <= snd dom /\
  exists ke, In ke hist /\ count (snd ke) = snd dom /\ keyOf (fst dom) = fst ke.
Proof.
  intros Hne hist dom.
  destruct (colorHistogram_counts regionData) as [Hpos Hsum].
  destruct (dominantColor_spec _ (colorHistogram_ok regionData)) as [Hmax Hdom].
  fold hist dom in Hpos, Hsum, Hmax, Hdom.
  split; [exact Hsum |]. split; [exact Hmax |].
  destruct Hdom as [[Hnil _] | [ke [Hin [Hc Hk]]]].
  - exfalso. fold hist in Hsum. rewrite Hnil in Hsum. cbn in Hsum.
    destruct regionData; [contradiction | discriminate].
  - split; [| exists ke; repeat split; assumption].
    rewrite Forall_forall in Hpos. specialize (Hpos _ Hin). lia.
Qed.

End DominantColor.

Lemma dominant_bucket_is_largest_witness :
  let data := [Sample.navy; Sample.white; Sample.navy] in
  1 <= snd (ImageProcessingService.dominantColor
              (ImageProcessingService.colorHistogram data)).
Proof.
  intros data.
  assert (Hne : data <> []) by discriminate.
  apply (dominant_bucket_is_largest data Hne).
Defined.

(** ** The reported colour *)

Section ReportedColor.

Import ImageProcessingService.

Local Abbreviation channel z := (0 <= z <= 255).
Local Abbreviation valid p := (channel (r p) /\ channel (g p) /\ channel (b p)).
Local Abbreviation bucket_range ke :=
  (1 <= count (snd ke) /\
   0 <= sum_r (snd ke) <= 255 * count (snd ke) /\
   0 <= sum_g (snd ke) <= 255 * count (snd ke) /\
   0 <= sum_b (snd ke) <= 255 * count (snd ke)).

Ltac open_binds H :=
  match type of H with
  | bind _ _ = Ok _ =>
      let x := fresh "x" in
      let Hx := fresh "Hx" in
      apply bind_inv in H; destruct H as [x [Hx H]]; open_binds Hx; open_binds H
  | TF.run _ _ _ = Ok ?x => apply run_inv in H; subst x
  | sliceOn _ _ _ _ _ _ = Ok _ => unfold sliceOn in H; open_binds H
  | _ => idtac
  end.

Lemma length_append (s1 s2 : string) :
  String.length (s1 ++ s2) = (String.length s1 + String.length s2)%nat.
Proof.
  induction s1 as [| c s1 IH]; simpl; [reflexivity | rewrite IH; reflexivity].
Qed.

(** Every channel value is written with two hexadecimal digits. *)
Lemma hex_pair x :
  channel x ->
  String.length
    (let hex := toString16 x in
     if Nat.eqb (String.length hex) 1 then ("0" ++ hex)%string else hex) = 2%nat.
Proof.
  intros Hx.
  assert (Hall : forallb
                   (fun x =>
                      Nat.eqb
                        (String.length
                           (let hex := toString16 x in
                            if Nat.eqb (String.length hex) 1
                            then ("0" ++ hex)%string else hex)) 2)
                   (zrange 0 256) = true) by (vm_compute; reflexivity).
  rewrite forallb_forall in Hall.
  apply Nat.eqb_eq. apply Hall. apply in_zrange. lia.
Qed.

Lemma rgbToHex_length r g b :
  channel r -> channel g -> channel b ->
  String.length (rgbToHex r g b) = 7%nat /\
  exists digits, rgbToHex r g b = String "#" digits.
Proof.
  intros Hr Hg Hb. unfold rgbToHex. cbn [map String.concat].
  split; [| eexists; reflexivity].
  pose proof (hex_pair r Hr) as H1. pose proof (hex_pair g Hg) as H2.
  pose proof (hex_pair b Hb) as H3. cbv zeta in H1, H2, H3.
  cbn [String.append] in H1, H2, H3.
  cbn [String.append String.length]. rewrite !length_append.
  rewrite H1, H2, H3. reflexivity.
Qed.

Lemma slice_valid img beginY beginX sizeH sizeW data :
  Forall (fun p => valid p) (pixels img) ->
  slice img beginY beginX sizeH sizeW = Ok data ->
  Forall (fun p => valid p) data.
Proof.
  intros Hall. unfold slice.
  destruct (((sizeH <? 0) && negb (sizeH =? -1))
            || ((sizeW <? 0) && negb (sizeW =? -1))); [discriminate |].
  match goal with
  | |- context [if ?c then Throw _ else Ok _] => destruct c
  end; [discriminate |].
  intros Hd. injection Hd as <-.
  apply Forall_flat_map. apply Forall_forall. intros y _.
  rewrite Forall_map. apply Forall_forall. intros x _.
  apply (nthZ_Forall (fun p => valid p)); [exact Hall |]. cbn. lia.
Qed.

Lemma addPixel_range p hist :
  valid p ->
  Forall (fun ke => bucket_range ke) hist ->
  Forall (fun ke => bucket_range ke) (addPixel p hist).
Proof.
  intros Hp.
  induction hist as [| [k e] hist IH]; intros Hall; cbn [addPixel].
  - constructor; [| constructor]. cbn [fst snd count sum_r sum_g sum_b]. lia.
  - inversion Hall as [| ? ? He Hrest]; subst.
    destruct (key_eqb k (keyOf p)).
    + constructor; [| exact Hrest].
      cbn [fst snd count sum_r sum_g sum_b] in *. lia.
    + constructor; [exact He | apply IH; exact Hrest].
Qed.

Lemma colorHistogram_range regionData :
  Forall (fun p => valid p) regionData ->
  Forall (fun ke => bucket_range ke) (colorHistogram regionData).
Proof.
  intros Hall. unfold colorHistogram.
  apply (fold_left_keeps (fun hist => Forall (fun ke => bucket_range ke) hist)).
  - intros hist p Hin Hhist. apply addPixel_range; [| exact Hhist].
    rewrite Forall_forall in Hall. apply Hall. exact Hin.
  - constructor.
Qed.

Lemma round_channel n total :
  1 <= n -> 0 <= total <= 255 * n ->
  channel (round (inject_Z total / inject_Z n)).
Proof.
  intros Hn [Hlo Hhi]. split.
  - rewrite <- (round_mean n 0) at 1 by lia. apply round_monotone; lia.
  - rewrite <- (round_mean n 255) by lia. apply round_monotone; lia.
Qed.

Lemma dominantColor_range hist :
  Forall (fun ke => bucket_range ke) hist ->
  valid (fst (dominantColor hist)).
Proof.
  intros Hall. unfold dominantColor.
  apply (fold_left_keeps (fun dom : RGB * Z => valid (fst dom))).
  - intros dom ke Hin Hdom. rewrite Forall_forall in Hall.
    destruct (Hall _ Hin) as [Hc [H1 [H2 H3]]].
    destruct (snd dom <? count (snd ke)); [| exact Hdom].
    cbn [fst r g b].
    repeat split; apply round_channel; assumption.
  - cbn. lia.
Qed.

(** X8. On an image whose channels are bytes, the reported colour has byte
    channels and its [dominant] field is [#] followed by six characters,
    two for each channel. *)
Theorem reported_color_well_formed be img vehicleRegion c :
  Forall (fun p => valid p) (pixels img) ->
  detectVehicleColor be img vehicleRegion = Some c ->
  valid (rgb c) /\
  dominant c = rgbToHex (r (rgb c)) (g (rgb c)) (b (rgb c)) /\
  String.length (dominant c) = 7%nat /\
  exists digits, dominant c = String "#" digits.
Proof.
  intros Hpix Hc. unfold detectVehicleColor, catch in Hc.
  destruct (colorRegion be img vehicleRegion) as [[[data rw] rh] | e] eqn:E;
    [| discriminate].
  cbn in Hc. injection Hc as <-. cbn [rgb dominant classify].
  assert (Hdata : Forall (fun p => valid p) data).
  { unfold colorRegion in E. destruct vehicleRegion as [v |].
    - open_binds E. injection E as <- _ _.
      eapply slice_valid; eassumption.
    - open_binds E. injection E as <- _ _.
      eapply slice_valid; eassumption. }
  pose proof (dominantColor_range _ (colorHistogram_range _ Hdata)) as Hv.
  split; [exact Hv |]. split; [reflexivity |].
  destruct Hv as [Hr [Hg Hb]]. apply rgbToHex_length; assumption.
Qed.

End ReportedColor.

Lemma reported_color_well_formed_witness :
  exists c,
    ImageProcessingService.detectVehicleColor TF.healthy
      (Sample.solid 4 4 Sample.navy) None = Some c /\
    String.length (dominant c) = 7%nat.
Proof.
  eexists. split; [vm_compute; reflexivity |].
  match goal with
  | |- String.length (dominant ?c) = _ =>
      assert (Hc : ImageProcessingService.detectVehicleColor TF.healthy
                     (Sample.solid 4 4 Sample.navy) None = Some c)
        by (vm_compute; reflexivity);
      assert (Hpix : Forall
                (fun p => (0 <= r p <= 255) /\ (0 <= g p <= 255) /\ (0 <= b p <= 255))
                (pixels (Sample.solid 4 4 Sample.navy)))
        by (vm_compute; repeat constructor; discriminate)
  end.
  apply (reported_color_well_formed _ _ _ _ Hpix Hc).
Defined.

(** ** Hue, saturation, lightness and the colour names *)

Section ColorNames.

Import ImageProcessingService.

Local Abbreviation channel z := (0 <= z <= 255).
Local Abbreviation names :=
  ["Trắng"; "Đen"; "Bạc"; "Xám"; "Đỏ"; "Cam"; "Vàng"; "Xanh lá"; "Xanh ngọc";
   "Xanh dương"; "Tím"; "Hồng"]%string.
Local Open Scope Q_scope.

Ltac named := cbn [In]; repeat (first [left; reflexivity | right]).

Lemma div_Fin x y : ~ y == 0 -> JS.div (JS.Fin x) (JS.Fin y) = JS.Fin (x / y).
Proof.
  intros Hy. unfold JS.div. destruct (Qeq_bool y 0) eqn:E; [| reflexivity].
  apply Qeq_bool_eq in E. contradiction.
Qed.

Lemma ge_Fin x y : JS.ge (JS.Fin x) (JS.Fin y) = true <-> y <= x.
Proof. simpl. apply Qle_bool_iff. Qed.

Lemma le_Fin x y : JS.le (JS.Fin x) (JS.Fin y) = true <-> x <= y.
Proof. unfold JS.le. apply ge_Fin. Qed.

Lemma lt_Fin x y : JS.lt (JS.Fin x) (JS.Fin y) = true <-> x < y.
Proof. unfold JS.lt. apply gt_Fin. Qed.

Lemma max_Fin x y :
  exists m, JS.max (JS.Fin x) (JS.Fin y) = JS.Fin m /\
            (m = x \/ m = y) /\ x <= m /\ y <= m.
Proof.
  unfold JS.max. destruct (JS.gt (JS.Fin y) (JS.Fin x)) eqn:E.
  - apply gt_Fin in E. exists y. repeat split; [right; reflexivity | Lqa.lra | Lqa.lra].
  - apply gt_Fin_false in E. exists x.
    repeat split; [left; reflexivity | Lqa.lra | Lqa.lra].
Qed.

Lemma min_Fin x y :
  exists m, JS.min (JS.Fin x) (JS.Fin y) = JS.Fin m /\
            (m = x \/ m = y) /\ m <= x /\ m <= y.
Proof.
  unfold JS.min. destruct (JS.gt (JS.Fin x) (JS.Fin y)) eqn:E.
  - apply gt_Fin in E. exists y. repeat split; [right; reflexivity | Lqa.lra | Lqa.lra].
  - apply gt_Fin_false in E. exists x.
    repeat split; [left; reflexivity | Lqa.lra | Lqa.lra].
Qed.

(** A difference of two values between [m] and [M], over [M - m]. *)
Lemma difference_ratio x y m M :
  m < M -> m <= x <= M -> m <= y <= M ->
  -1 <= (x - y) / (M - m) <= 1 /\
  (x < y -> (x - y) / (M - m) < 0) /\
  (y <= x -> 0 <= (x - y) / (M - m)).
Proof.
  intros Hd Hx Hy.
  assert (Hpos : 0 < M - m) by Lqa.lra.
  assert (Hinv : 0 < / (M - m)) by (apply Qinv_lt_0_compat; exact Hpos).
  assert (Hone : (M - m) * / (M - m) == 1) by (apply Qmult_inv_r; Lqa.lra).
  unfold Qdiv. repeat split.
  - assert (H : 0 <= ((x - y) + (M - m)) * / (M - m))
      by (apply Qmult_le_0_compat; Lqa.lra).
    Lqa.lra.
  - assert (H : 0 <= ((M - m) - (x - y)) * / (M - m))
      by (apply Qmult_le_0_compat; Lqa.lra).
    Lqa.lra.
  - intros Hlt.
    assert (H : 0 < (y - x) * / (M - m)) by (apply Qmult_lt_0_compat; Lqa.lra).
    Lqa.lra.
  - intros Hle. apply Qmult_le_0_compat; Lqa.lra.
Qed.

(** A ratio [d / t] with [0 <= d <= t] and [0 < t]. *)
Lemma share d t : 0 <= d <= t -> 0 < t -> 0 <= d / t <= 1.
Proof.
  intros Hd Ht.
  assert (Hinv : 0 < / t) by (apply Qinv_lt_0_compat; exact Ht).
  assert (Hone : t * / t == 1) by (apply Qmult_inv_r; Lqa.lra).
  unfold Qdiv. split.
  - apply Qmult_le_0_compat; Lqa.lra.
  - assert (H : 0 <= (t - d) * / t) by (apply Qmult_le_0_compat; Lqa.lra).
    Lqa.lra.
Qed.

Lemma half x : x / 2 == x * (1 # 2).
Proof. field. Qed.

Lemma sixth x : x / 6 == x * (1 # 6).
Proof. field. Qed.

Lemma unit_channel z : (0 <= z <= 255)%Z -> 0 <= inject_Z z / 255 <= 1.
Proof.
  intros Hz. apply share; [| reflexivity].
  split; [change 0 with (inject_Z 0) | change 255 with (inject_Z 255)];
    rewrite <- Zle_Qle; lia.
Qed.

Lemma rgbToHsl_ranges r g b :
  (channel r)%Z -> (channel g)%Z -> (channel b)%Z ->
  exists qh qs ql,
    rgbToHsl r g b = mkHSL (JS.Fin qh) (JS.Fin qs) (JS.Fin ql) /\
    0 <= qh /\ qh < 360 /\ 0 <= qs <= 100 /\ 0 <= ql <= 100.
Proof.
  intros Hr Hg Hb. unfold rgbToHsl. cbv zeta. unfold JS.ofZ.
  rewrite !(div_Fin _ 255) by discriminate.
  pose proof (unit_channel r Hr) as HR. pose proof (unit_channel g Hg) as HG.
  pose proof (unit_channel b Hb) as HB.
  generalize dependent (inject_Z r / 255). intros R HR.
  generalize dependent (inject_Z g / 255). intros G HG.
  generalize dependent (inject_Z b / 255). intros B HB.
  destruct (max_Fin R G) as [M1 [E1 [HM1 [HM1a HM1b]]]]. rewrite E1.
  destruct (max_Fin M1 B) as [M [E2 [HM [HMa HMb]]]]. rewrite E2.
  destruct (min_Fin R G) as [m1 [E3 [Hm1 [Hm1a Hm1b]]]]. rewrite E3.
  destruct (min_Fin m1 B) as [m [E4 [Hm [Hma Hmb]]]]. rewrite E4.
  clear E1 E2 E3 E4.
  assert (HMR : m <= R <= M) by Lqa.lra.
  assert (HMG : m <= G <= M) by Lqa.lra.
  assert (HMB : m <= B <= M) by Lqa.lra.
  assert (HM01 : 0 <= m /\ M <= 1).
  { split.
    - destruct Hm as [-> | ->]; [destruct Hm1 as [-> | ->] |]; Lqa.lra.
    - destruct HM as [-> | ->]; [destruct HM1 as [-> | ->] |]; Lqa.lra. }
  clear HM HM1 Hm Hm1 HM1a HM1b Hm1a Hm1b HMa HMb Hma Hmb M1 m1.
  cbn [JS.add]. rewrite (div_Fin _ 2) by discriminate.
  cbn [JS.eqb].
  destruct (Qeq_bool M m) eqn:Eeq; cbn [negb].
  - apply Qeq_bool_eq in Eeq. cbn [JS.mul].
    do 3 eexists. split; [reflexivity |].
    rewrite half. repeat split; Lqa.lra.
  - apply Qeq_bool_neq in Eeq.
    assert (Hlt : m < M).
    { destruct (Qlt_le_dec m M) as [H | H]; [exact H |].
      exfalso. apply Eeq. apply Qle_antisym; Lqa.lra. }
    unfold JS.sub, JS.lt. cbn [JS.neg JS.add JS.gt].
    assert (Hs : exists qs,
               (if negb (Qle_bool ((M + m) / 2) 0.5)
                then JS.div (JS.Fin (M + - m)) (JS.Fin (2 + - M + - m))
                else JS.div (JS.Fin (M + - m)) (JS.Fin (M + m))) = JS.Fin qs /\
               0 <= qs <= 1).
    { destruct (negb (Qle_bool ((M + m) / 2) 0.5)).
      - rewrite div_Fin by (intros H; Lqa.lra).
        eexists. split; [reflexivity |]. apply share; Lqa.lra.
      - rewrite div_Fin by (intros H; Lqa.lra).
        eexists. split; [reflexivity |]. apply share; Lqa.lra. }
    destruct Hs as [qs [-> Hqs]].
    assert (Hd : ~ M + - m == 0) by (intros H; Lqa.lra).
    rewrite !(div_Fin _ (M + - m)) by exact Hd.
    destruct (difference_ratio G B m M Hlt HMG HMB) as [H1 [H1n H1p]].
    destruct (difference_ratio B R m M Hlt HMB HMR) as [H2 _].
    destruct (difference_ratio R G m M Hlt HMR HMG) as [H3 _].
    unfold Qminus in H1, H1n, H1p, H2, H3.
    generalize dependent ((G + - B) / (M + - m)). intros t1 H1 H1n H1p.
    generalize dependent ((B + - R) / (M + - m)). intros t2 H2.
    generalize dependent ((R + - G) / (M + - m)). intros t3 H3.
    assert (Hh : exists qh,
               (if Qeq_bool M R
                then JS.div (JS.add (JS.Fin t1)
                                    (if negb (Qle_bool B G) then JS.Fin 6 else JS.Fin 0))
                            (JS.Fin 6)
                else if Qeq_bool M G
                then JS.div (JS.add (JS.Fin t2) (JS.Fin 2)) (JS.Fin 6)
                else if Qeq_bool M B
                then JS.div (JS.add (JS.Fin t3) (JS.Fin 4)) (JS.Fin 6)
                else JS.Fin 0) = JS.Fin qh /\ 0 <= qh /\ qh < 1).
    { destruct (Qeq_bool M R).
      - destruct (Qle_bool B G) eqn:Ebg; cbn [negb JS.add].
        + apply Qle_bool_iff in Ebg. specialize (H1p Ebg).
          rewrite div_Fin by discriminate. eexists. split; [reflexivity |].
          rewrite sixth. Lqa.lra.
        + apply Qle_bool_false in Ebg. specialize (H1n Ebg).
          rewrite div_Fin by discriminate. eexists. split; [reflexivity |].
          rewrite sixth. Lqa.lra.
      - destruct (Qeq_bool M G); [| destruct (Qeq_bool M B)]; cbn [JS.add].
        + rewrite div_Fin by discriminate. eexists. split; [reflexivity |].
          rewrite sixth. Lqa.lra.
        + rewrite div_Fin by discriminate. eexists. split; [reflexivity |].
          rewrite sixth. Lqa.lra.
        + exists 0. split; [reflexivity | Lqa.lra]. }
    destruct Hh as [qh [-> [Hh0 Hh1]]].
    cbn [JS.mul]. do 3 eexists. split; [reflexivity |].
    rewrite half. repeat split; Lqa.lra.
Qed.

(** From a hue that is a number and not negative, [getColorName] reaches one
    of its twelve names, whatever saturation and lightness are. *)
Lemma getColorName_named qh s l :
  0 <= qh -> In (getColorName (JS.Fin qh) s l) names.
Proof.
  intros H0. unfold getColorName.
  destruct (JS.ge l (JS.Fin 85) && JS.le s (JS.Fin 15)); [named |].
  destruct (JS.le l (JS.Fin 15)); [named |].
  destruct (JS.le s (JS.Fin 15) && JS.gt l (JS.Fin 55) && JS.lt l (JS.Fin 85));
    [named |].
  destruct (JS.le s (JS.Fin 15)); [named |].
  rewrite (proj2 (ge_Fin qh 0) H0). cbn [andb].
  destruct (Qlt_le_dec qh 340) as [H340 | H340];
    [| rewrite (proj2 (ge_Fin qh 340) H340), orb_true_r; named].
  destruct (Qlt_le_dec 20 qh) as [H20 | H20];
    [| rewrite (proj2 (le_Fin qh 20) H20); named].
  destruct (JS.le (JS.Fin qh) (JS.Fin 20) || JS.ge (JS.Fin qh) (JS.Fin 340));
    [named |].
  rewrite (proj2 (gt_Fin qh 20) H20). cbn [andb].
  destruct (Qlt_le_dec 45 qh) as [H45 | H45];
    [| rewrite (proj2 (le_Fin qh 45) H45); named].
  destruct (JS.le (JS.Fin qh) (JS.Fin 45)); [named |].
  rewrite (proj2 (gt_Fin qh 45) H45). cbn [andb].
  destruct (Qlt_le_dec 65 qh) as [H65 | H65];
    [| rewrite (proj2 (le_Fin qh 65) H65); named].
  destruct (JS.le (JS.Fin qh) (JS.Fin 65)); [named |].
  rewrite (proj2 (gt_Fin qh 65) H65). cbn [andb].
  destruct (Qlt_le_dec 160 qh) as [H160 | H160];
    [| rewrite (proj2 (le_Fin qh 160) H160); named].
  destruct (JS.le (JS.Fin qh) (JS.Fin 160)); [named |].
  rewrite (proj2 (gt_Fin qh 160) H160). cbn [andb].
  destruct (Qlt_le_dec 200 qh) as [H200 | H200];
    [| rewrite (proj2 (le_Fin qh 200) H200); named].
  destruct (JS.le (JS.Fin qh) (JS.Fin 200)); [named |].
  rewrite (proj2 (gt_Fin qh 200) H200). cbn [andb].
  destruct (Qlt_le_dec 250 qh) as [H250 | H250];
    [| rewrite (proj2 (le_Fin qh 250) H250); named].
  destruct (JS.le (JS.Fin qh) (JS.Fin 250)); [named |].
  rewrite (proj2 (gt_Fin qh 250) H250). cbn [andb].
  destruct (Qlt_le_dec 290 qh) as [H290 | H290];
    [| rewrite (proj2 (le_Fin qh 290) H290); named].
  destruct (JS.le (JS.Fin qh) (JS.Fin 290)); [named |].
  rewrite (proj2 (gt_Fin qh 290) H290), (proj2 (lt_Fin qh 340) H340). named.
Qed.

(** X9. For byte channels, [rgbToHsl] gives a hue in [[0, 360)] and a
    saturation and a lightness in [[0, 100]], and [getColorName] gives one
    of its twelve names for them: the fallback name is never returned. *)
Theorem byte_color_is_named r g b :
  (channel r)%Z -> (channel g)%Z -> (channel b)%Z ->
  let hsl := rgbToHsl r g b in
  (exists qh qs ql,
      hsl = mkHSL (JS.Fin qh) (JS.Fin qs) (JS.Fin ql) /\
      0 <= qh /\ qh < 360 /\ 0 <= qs <= 100 /\ 0 <= ql <= 100) /\
  In (getColorName (h hsl) (s hsl) (l hsl)) names /\
  getColorName (h hsl) (s hsl) (l hsl) <> "Không xác định"%string.
Proof.
  intros Hr Hg Hb hsl.
  destruct (rgbToHsl_ranges r g b Hr Hg Hb) as [qh [qs [ql [E [Hh0 [Hh1 [Hs Hl]]]]]]].
  fold hsl in E.
  assert (Hin : In (getColorName (h hsl) (s hsl) (l hsl)) names)
    by (rewrite E; cbn [h s l]; apply getColorName_named; exact Hh0).
  split; [exists qh, qs, ql; auto |]. split; [exact Hin |].
  intros Hu. rewrite Hu in Hin. cbn [In] in Hin.
  repeat (destruct Hin as [Hin | Hin]; [discriminate Hin |]). exact Hin.
Qed.

End ColorNames.

Lemma byte_color_is_named_witness :
  ImageProcessingService.getColorName
    (ImageProcessingService.h (ImageProcessingService.rgbToHsl 200 30 30))
    (ImageProcessingService.s (ImageProcessingService.rgbToHsl 200 30 30))
    (ImageProcessingService.l (ImageProcessingService.rgbToHsl 200 30 30))
  <> "Không xác định"%string.
Proof.
  apply (byte_color_is_named 200 30 30); lia.
Defined.


(** ** Regions of one colour *)

Section UniformRegion.

Import ImageProcessingService.

(** X10. When the sampled region is not empty and all of one colour [p], the
    detector reports exactly [p], with the hex code of [p] and a confidence
    of 1. *)
Theorem uniform_region_reports_its_color
        img vehicleRegion regionData regionWidth regionHeight p :
  0 <= height img -> 0 <= width img ->
  match vehicleRegion with
  | Some v => 0 <= bbox_width (v_bbox v) /\ 0 <= bbox_height (v_bbox v)
  | None => True
  end ->
  colorRegion TF.healthy img vehicleRegion
  = Ok (regionData, regionWidth, regionHeight) ->
  regionData <> [] ->
  Forall (eq p) regionData ->
  exists c,
    detectVehicleColor TF.healthy img vehicleRegion = Some c /\
    rgb c = p /\
    dominant c = rgbToHex (r p) (g p) (b p) /\
    JS.eqb (c_confidence c) (JS.Fin 1) = true.
Proof.
  intros Hh Hw Hhint Hreg Hne Hall.
  pose proof (colorRegion_shape _ _ _ _ _ _ Hh Hw Hhint Hreg Hne) as Hshape.
  unfold detectVehicleColor. rewrite Hreg. cbn [bind catch].
  eexists. split; [reflexivity |].
  unfold classify. rewrite Hshape.
  rewrite (all_equal_repeat _ _ Hall).
  destruct (List.length regionData) as [| n] eqn:En.
  - destruct regionData; [contradiction | discriminate].
  - rewrite dominantColor_solid. cbn [fst snd name dominant rgb c_confidence].
    repeat split. rewrite repeat_length. apply div_self. lia.
Qed.

(** The name of the grey of level [v]. *)
Local Abbreviation greyName v :=
  (let hsl := rgbToHsl v v v in getColorName (h hsl) (s hsl) (l hsl)).

(** X11. A grey of level [v] (all three channels equal to the byte [v]) is
    named black up to 38, grey up to 140, silver up to 216 and white
    above. *)
Theorem grey_names v :
  0 <= v <= 255 ->
  (let hsl := rgbToHsl v v v in getColorName (h hsl) (s hsl) (l hsl))
  = if v <=? 38 then "Đen"%string
               else if v <=? 140 then "Xám"%string
               else if v <=? 216 then "Bạc"%string
               else "Trắng"%string.
Proof.
  intros Hv.
  assert (Hall : forallb
                   (fun v =>
                      String.eqb (greyName v)
                                 (if v <=? 38 then "Đen"%string
                                  else if v <=? 140 then "Xám"%string
                                  else if v <=? 216 then "Bạc"%string
                                  else "Trắng"%string))
                   (zrange 0 256) = true) by (vm_compute; reflexivity).
  rewrite forallb_forall in Hall.
  apply String.eqb_eq. apply Hall. apply in_zrange. lia.
Qed.

End UniformRegion.

Lemma uniform_region_reports_its_color_witness :
  exists c,
    ImageProcessingService.detectVehicleColor TF.healthy
      (Sample.solid 5 5 Sample.white) None = Some c /\
    rgb c = Sample.white.
Proof.
  assert (Hreg : ImageProcessingService.colorRegion TF.healthy
                   (Sample.solid 5 5 Sample.white) None
                 = Ok (repeat Sample.white 6, 3, 2)) by (vm_compute; reflexivity).
  assert (Hne : repeat Sample.white 6 <> []) by discriminate.
  assert (Hall : Forall (eq Sample.white) (repeat Sample.white 6))
    by (repeat constructor).
  assert (Hh : 0 <= height (Sample.solid 5 5 Sample.white)) by (cbn; lia).
  assert (Hw : 0 <= width (Sample.solid 5 5 Sample.white)) by (cbn; lia).
  destruct (uniform_region_reports_its_color _ None _ _ _ _ Hh Hw I Hreg Hne Hall)
    as [c [Hc [Hrgb _]]].
  exists c. split; assumption.
Defined.

Lemma grey_names_witness :
  (let hsl := ImageProcessingService.rgbToHsl 128 128 128 in
   ImageProcessingService.getColorName
     (ImageProcessingService.h hsl) (ImageProcessingService.s hsl)
     (ImageProcessingService.l hsl)) = "Xám"%string.
Proof.
  apply (grey_names 128). lia.
Defined.

(** ** The waits between upload attempts *)

Section Backoff.

Import CloudUploadService.

Variable Payload : Type.
Variable transport : Payload -> nat -> UploadResult.
Variable payload : Payload.
Variable maxRetries : Z.

(** The waits before the attempts number [first + 1], [first + 2], ... *)
Local Abbreviation waits first n :=
  (map (fun j => 2 ^ (first + Z.of_nat j) * 1000) (seq 0 n)).

Lemma waits_next first n :
  waits first (S n) = 2 ^ first * 1000 :: waits (first + 1) n.
Proof.
  cbn [seq map]. rewrite Z.add_0_r. f_equal.
  rewrite <- seq_shift, map_map. apply map_ext. intros j.
  do 2 f_equal. lia.
Qed.

Lemma attempts_waits_exhausted left attempt lastError w :
  attempt + Z.of_nat left = maxRetries + 1 ->
  (forall j, (j < left)%nat -> success (transport payload (calls w + j)) = false) ->
  delays (snd (attempts Payload transport left payload maxRetries attempt lastError w))
  = delays w ++ waits attempt (left - 1).
Proof.
  revert attempt lastError w.
  induction left as [| left IH]; intros attempt lastError w Hinv Hfail.
  - cbn. rewrite app_nil_r. reflexivity.
  - cbn [attempts upload].
    assert (H0 : success (transport payload (calls w)) = false).
    { specialize (Hfail 0%nat). rewrite Nat.add_0_r in Hfail. apply Hfail. lia. }
    rewrite H0. rewrite IH.
    + replace (S left - 1)%nat with left by lia.
      destruct left as [| left].
      * replace (attempt <? maxRetries) with false by (symmetry; apply Z.ltb_ge; lia).
        reflexivity.
      * replace (attempt <? maxRetries) with true by (symmetry; apply Z.ltb_lt; lia).
        cbn [sleep delays]. replace (S left - 1)%nat with left by lia.
        rewrite waits_next, <- app_assoc. reflexivity.
    + lia.
    + intros j Hj.
      replace (calls (if attempt <? maxRetries
                      then sleep (2 ^ attempt * 1000)
                                 (mkWorld (S (calls w)) (delays w))
                      else mkWorld (S (calls w)) (delays w)))
        with (S (calls w)) by (destruct (attempt <? maxRetries); reflexivity).
      replace (S (calls w) + j)%nat with (calls w + S j)%nat by lia.
      apply Hfail. lia.
Qed.

Lemma attempts_waits_success left attempt lastError w k :
  attempt + Z.of_nat left = maxRetries + 1 ->
  (k < left)%nat ->
  (forall j, (j < k)%nat -> success (transport payload (calls w + j)) = false) ->
  success (transport payload (calls w + k)) = true ->
  delays (snd (attempts Payload transport left payload maxRetries attempt lastError w))
  = delays w ++ waits attempt k.
Proof.
  revert attempt lastError w k.
  induction left as [| left IH]; intros attempt lastError w k Hinv Hk Hfail Hok;
    [lia |].
  cbn [attempts upload].
  destruct k as [| k].
  - rewrite Nat.add_0_r in Hok. rewrite Hok. cbn. rewrite app_nil_r. reflexivity.
  - assert (H0 : success (transport payload (calls w)) = false).
    { specialize (Hfail 0%nat). rewrite Nat.add_0_r in Hfail. apply Hfail. lia. }
    rewrite H0.
    replace (attempt <? maxRetries) with true by (symmetry; apply Z.ltb_lt; lia).
    rewrite (IH _ _ _ k).
    + cbn [sleep delays]. rewrite waits_next, <- app_assoc. reflexivity.
    + lia.
    + lia.
    + intros j Hj. cbn [sleep calls].
      replace (S (calls w) + j)%nat with (calls w + S j)%nat by lia.
      apply Hfail. lia.
    + cbn [sleep calls].
      replace (S (calls w) + k)%nat with (calls w + S k)%nat by lia. exact Hok.
Qed.

(** X12. For [maxRetries >= 1], [uploadWithRetry] waits 2^1, 2^2, ... seconds
    after the failed attempts 1, 2, ...: before a success at attempt [k + 1]
    it has waited [k] times, and when all attempts fail it has waited
    [maxRetries - 1] times, not after the last attempt. *)
Theorem upload_backoff_schedule (w : World) :
  1 <= maxRetries ->
  (forall k, (k < Z.to_nat maxRetries)%nat ->
     (forall j, (j < k)%nat -> success (transport payload (calls w + j)) = false) ->
     success (transport payload (calls w + k)) = true ->
     delays (snd (uploadWithRetry Payload transport payload maxRetries w))
     = delays w ++ map (fun j => 2 ^ Z.of_nat j * 1000) (seq 1 k))
  /\
  ((forall j, (j < Z.to_nat maxRetries)%nat ->
      success (transport payload (calls w + j)) = false) ->
   delays (snd (uploadWithRetry Payload transport payload maxRetries w))
   = delays w ++ map (fun j => 2 ^ Z.of_nat j * 1000)
                     (seq 1 (Z.to_nat maxRetries - 1))).
Proof.
  intros Hmax.
  assert (Hshift : forall n,
             waits 1 n = map (fun j => 2 ^ Z.of_nat j * 1000) (seq 1 n)).
  { intros n. rewrite <- seq_shift, map_map. apply map_ext. intros j.
    do 2 f_equal. lia. }
  unfold uploadWithRetry. split.
  - intros k Hk Hfail Hok. rewrite <- Hshift.
    apply attempts_waits_success; [lia | assumption ..].
  - intros Hfail. rewrite <- Hshift.
    apply attempts_waits_exhausted; [lia | assumption].
Qed.

(** X13. With [maxRetries <= 0] the loop body never runs: [upload] is not
    called, nothing is waited for, and the result is the failure
    "Failed after <maxRetries> attempts: " with an empty reason. *)
Theorem upload_without_attempts (w : World) :
  maxRetries <= 0 ->
  uploadWithRetry Payload transport payload maxRetries w
  = (mkUpload false None
       (Some ("Failed after " ++ decimal maxRetries ++ " attempts: ")%string), w).
Proof.
  intros Hmax. unfold uploadWithRetry.
  replace (Z.to_nat maxRetries) with 0%nat by lia.
  cbn [attempts]. unfold exhausted. reflexivity.
Qed.

End Backoff.

Lemma upload_backoff_schedule_witness :
  let w0 := CloudUploadService.mkWorld 0 [] in
  CloudUploadService.delays
    (snd (CloudUploadService.uploadWithRetry unit Sample.down tt 4 w0))
  = [2000; 4000; 8000].
Proof.
  intros w0.
  assert (Hmax : 1 <= 4) by lia.
  apply (proj2 (upload_backoff_schedule unit Sample.down tt 4 w0 Hmax)).
  intros j _. reflexivity.
Defined.

Lemma upload_without_attempts_witness :
  let w0 := CloudUploadService.mkWorld 0 [] in
  CloudUploadService.uploadWithRetry unit Sample.flaky tt 0 w0
  = (CloudUploadService.mkUpload false None
       (Some "Failed after 0 attempts: "%string), w0).
Proof.
  intros w0.
  assert (Hmax : 0 <= 0) by lia.
  apply (upload_without_attempts unit Sample.flaky tt 0 w0 Hmax).
Defined.

(** ** What is sent to the cloud *)

Section Payload.

Import ImageProcessingService VehicleDetectionService.

Local Abbreviation inside box W H :=
  (0 <= bbox_x box /\ 0 <= bbox_y box /\
   bbox_x box + bbox_width box <= W /\
   bbox_y box + bbox_height box <= H).

Lemma vehicle_box_inside be img W H v :
  detectVehicleRegion be img W H = Some v -> inside (v_bbox v) W H.
Proof.
  intros Hv.
  destruct (vehicle_region_geometry _ _ _ _ _ Hv)
    as [gx [gy [Hgx [Hgy [HW [HH [-> [HW8 HH8]]]]]]]].
  cbn [bbox_x bbox_y bbox_width bbox_height]. nia.
Qed.

Lemma plate_box_inside be img W H vehicleRegion p :
  0 < W ->
  match vehicleRegion with
  | Some v => detectVehicleRegion be img W H = Some v
  | None => True
  end ->
  detectLicensePlateRegion be img W H vehicleRegion = Some p ->
  inside (p_bbox p) W H.
Proof.
  intros HW Hhint Hp.
  destruct (detectLicensePlateRegion_inv _ _ _ _ _ _ Hp)
    as [ed [m [best [_ [Hin ->]]]]].
  cbn [p_bbox]. destruct vehicleRegion as [v |].
  - destruct (candidate_inside_hint _ _ _ _ _ _ HW Hin) as [H1 [H2 [H3 H4]]].
    destruct (vehicle_region_geometry _ _ _ _ _ Hhint)
      as [gx [gy [Hgx [Hgy [HW8 [HH8 [Hbox [HWle HHle]]]]]]]].
    rewrite Hbox in H1, H2, H3, H4.
    cbn [bbox_x bbox_y bbox_width bbox_height] in H1, H2, H3, H4.
    assert (H0 : 0 <= Qfloor (inject_Z (gy * (H / 8)) + inject_Z (H / 8 * 3) * 0.3)).
    { change 0 with (Qfloor 0). apply Qfloor_resp_le.
      assert (Ha : (0 <= inject_Z (gy * (H / 8)))%Q)
        by (change 0%Q with (inject_Z 0); rewrite <- Zle_Qle; nia).
      assert (Hb : (0 <= inject_Z (H / 8 * 3))%Q)
        by (change 0%Q with (inject_Z 0); rewrite <- Zle_Qle; nia).
      Lqa.lra. }
    repeat split; nia.
  - destruct (candidate_in_lower_image _ _ _ _ _ HW Hin) as [H1 [H2 [H3 [_ H4]]]].
    auto.
Qed.


(** X15. The life cycle of the service: after [dispose] every call of
    [processImage] throws; after a successful [initialize] a decoded image
    always gives a result, whatever the backend does; a failed [initialize]
    returns [false] and leaves the service as it was, ready if it was ready;
    [setConfig] does not touch readiness, and [initialize] and [dispose] do
    not touch the configuration. *)
Theorem service_life_cycle this be uri img :
  (forall decoded,
     processImage (dispose this) be uri decoded = Throw "Service not initialized") /\
  (initialize this (Ok tt) = (true, snd (initialize this (Ok tt))) /\
   isReady (snd (initialize this (Ok tt))) = true /\
   exists res, processImage (snd (initialize this (Ok tt))) be uri (Ok img) = Ok res) /\
  (forall e, initialize this (Throw e) = (false, this)) /\
  (forall config, isReady (setConfig this config) = isReady this) /\
  (forall ready, this_config (snd (initialize this ready)) = this_config this) /\
  this_config (dispose this) = this_config this /\
  isReady (dispose this) = false.
Proof.
  repeat split.
  - eexists. reflexivity.
  - intros ready. destruct ready; reflexivity.
Qed.

(** X16. The upload status of a processing result is ['uploaded'] exactly
    when automatic upload is configured and the result is ready for the
    cloud, and ['pending'] otherwise; it is what [uploadToCloud] leaves, which
    never reports a failure.  Under the initial configuration every result
    is ['pending']. *)
Theorem upload_status_of_result this be uri img res :
  processImage this be uri (Ok img) = Ok res ->
  (cloudUploadStatus res = uploaded <->
   autoUploadToCloud (this_config this) = true /\ isReadyForCloud res = true) /\
  (cloudUploadStatus res = pending <->
   autoUploadToCloud (this_config this) = false \/ isReadyForCloud res = false) /\
  (cloudUploadStatus res = uploaded -> uploadToCloud res = (true, res)) /\
  (this_config this = config -> cloudUploadStatus res = pending).
Proof.
  intros Hres. unfold processImage in Hres.
  destruct (isInitialized this); cbn [negb bind] in Hres; [| discriminate].
  injection Hres as <-. cbn [cloudUploadStatus isReadyForCloud].
  assert (Hdefault : this_config this = config ->
                     autoUploadToCloud (this_config this) = false)
    by (intros ->; reflexivity).
  destruct (autoUploadToCloud (this_config this)) eqn:Ea;
    destruct (readyForCloud (this_config this) _ _) eqn:Er; cbn [andb].
  - repeat split; try discriminate; try reflexivity; auto.
    + intros [H | H]; discriminate H.
    + intros H. specialize (Hdefault H). discriminate Hdefault.
  - repeat split; try discriminate; try reflexivity; auto.
    intros [_ H]; discriminate H.
  - repeat split; try discriminate; try reflexivity; auto.
    intros [H _]; discriminate H.
  - repeat split; try discriminate; try reflexivity; auto.
    intros [H _]; discriminate H.
Qed.

End Payload.


Lemma upload_status_of_result_witness :
  exists res,
    VehicleDetectionService.processImage Sample.service TF.healthy "file:///car.jpg"
      (Ok Sample.rightColumn) = Ok res /\
    cloudUploadStatus res = pending.
Proof.
  eexists. split; [vm_compute; reflexivity |].
  match goal with
  | |- cloudUploadStatus ?res = _ =>
      assert (Hres : VehicleDetectionService.processImage Sample.service TF.healthy
                       "file:///car.jpg" (Ok Sample.rightColumn) = Ok res)
        by (vm_compute; reflexivity)
  end.
  apply (upload_status_of_result _ _ _ _ _ Hres). reflexivity.
Defined.

(** ** The plate detector on tensors *)

Section PlateDetections.

Import LicensePlateDetector.

Lemma zloop_members fuel v stop step z :
  In z (zloop fuel v stop step) ->
  z < stop /\ exists k : nat, z = v + Z.of_nat k * step.
Proof.
  revert v. induction fuel as [| fuel IH]; intros v Hin; cbn [zloop] in Hin;
    [contradiction |].
  destruct (v <? stop) eqn:E; [| contradiction].
  destruct Hin as [<- | Hin].
  - apply Z.ltb_lt in E. split; [exact E | exists 0%nat; lia].
  - destruct (IH _ Hin) as [Hlt [k ->]]. split; [exact Hlt |].
    exists (S k). lia.
Qed.

(** The fuel of [zfor] is enough: every value that the loop of the source
    reaches is in the list. *)
Lemma zloop_reaches fuel v stop step (k : nat) :
  0 < step -> (k < fuel)%nat -> v + Z.of_nat k * step < stop ->
  In (v + Z.of_nat k * step) (zloop fuel v stop step).
Proof.
  intros Hstep. revert v k.
  induction fuel as [| fuel IH]; intros v k Hk Hlt; [lia |].
  cbn [zloop]. replace (v <? stop) with true by (symmetry; apply Z.ltb_lt; nia).
  destruct k as [| k].
  - left. lia.
  - right. replace (v + Z.of_nat (S k) * step) with (v + step + Z.of_nat k * step)
      by lia.
    apply IH; lia.
Qed.

Lemma zfor_spec start stop step z :
  0 < step ->
  In z (zfor start stop step) <->
  z < stop /\ exists k : nat, z = start + Z.of_nat k * step.
Proof.
  intros Hstep. split; [apply zloop_members |].
  intros [Hlt [k ->]]. apply zloop_reaches; [exact Hstep | nia | exact Hlt].
Qed.

Lemma in_scanRegions edgeData height width rg :
  In rg (scanRegions edgeData height width) ->
  (exists i : nat, x rg = 25 * Z.of_nat i) /\
  (exists j : nat, y rg = 25 * Z.of_nat j) /\
  x rg < width - 50 /\ y rg < height - 50 /\
  density rg = regionDensity edgeData height width (y rg) (x rg) /\
  (0.1 < density rg)%Q.
Proof.
  unfold scanRegions. rewrite in_flat_map. intros [y0 [Hy Hin]].
  rewrite in_flat_map in Hin. destruct Hin as [x0 [Hx Hin]].
  apply zloop_members in Hy, Hx.
  destruct Hy as [Hy [j ->]], Hx as [Hx [i ->]].
  destruct (Qle_bool _ 0.1) eqn:E; cbn [negb] in Hin; [contradiction |].
  destruct Hin as [<- | []]. cbn [x y density].
  apply Qle_bool_false in E. change (regionSize / 2) with 25 in *.
  change regionSize with 50 in Hx, Hy.
  split; [exists i; lia |]. split; [exists j; lia |].
  split; [exact Hx |]. split; [exact Hy |]. split; [reflexivity | exact E].
Qed.

Lemma in_insert_region a l rg : In rg (insert a l) <-> rg = a \/ In rg l.
Proof.
  induction l as [| b l IH]; cbn [insert].
  - cbn. intuition congruence.
  - destruct (negb (Qle_bool (density b - density a) 0)); cbn [In].
    + rewrite IH. intuition congruence.
    + intuition congruence.
Qed.

Lemma in_sort_region l rg : In rg (sort l) <-> In rg l.
Proof.
  induction l as [| a l IH]; cbn [sort fold_right]; [reflexivity |].
  fold (sort l). rewrite in_insert_region, IH. cbn. intuition congruence.
Qed.

Lemma in_firstn {A : Type} n (l : list A) a : In a (firstn n l) -> In a l.
Proof.
  revert l. induction n as [| n IH]; intros [| b l]; cbn; try contradiction.
  intros [-> | H]; [left; reflexivity | right; apply IH; exact H].
Qed.

Lemma length_flat_map_le {A B : Type} (f : A -> list B) (l : list A) :
  (forall a, List.length (f a) <= 1)%nat ->
  (List.length (flat_map f l) <= List.length l)%nat.
Proof.
  intros Hf. induction l as [| a l IH]; cbn [flat_map List.length]; [lia |].
  rewrite length_app. specialize (Hf a). lia.
Qed.

(** [Math.min(density * 2, 0.95)] *)
Lemma capped_density d :
  exists q, JS.min (JS.mul (JS.Fin d) (JS.Fin 2)) (JS.Fin 0.95) = JS.Fin q /\
            ((d * 2 <= 0.95)%Q -> q = (d * 2)%Q) /\
            ((0.95 < d * 2)%Q -> q = 0.95%Q).
Proof.
  cbn [JS.mul]. unfold JS.min.
  destruct (JS.gt (JS.Fin (d * 2)) (JS.Fin 0.95)) eqn:E.
  - apply gt_Fin in E. exists 0.95%Q. repeat split.
    intros Hle. exfalso. Lqa.lra.
  - apply gt_Fin_false in E. exists (d * 2)%Q. repeat split.
    intros Hlt. exfalso. Lqa.lra.
Qed.

Lemma detectionOf_inv height width rg d :
  x rg < width - 50 -> y rg < height - 50 ->
  In d (detectionOf height width rg) ->
  detectionOf height width rg = [d] /\
  class d = "license_plate"%string /\
  75 <= Z.min 150 (width - x rg) /\
  bbox d = (x rg, y rg, Z.min 150 (width - x rg), 50) /\
  score d = JS.min (JS.mul (JS.Fin (density rg)) (JS.Fin 2)) (JS.Fin 0.95).
Proof.
  intros Hx Hy. unfold detectionOf. change regionSize with 50.
  change (50 * 3) with 150.
  replace (Z.min 50 (height - y rg)) with 50 by lia.
  set (plateWidth := Z.min 150 (width - x rg)).
  unfold JS.div, JS.ofZ. change (Qeq_bool (inject_Z 50) 0) with false. cbv iota.
  destruct (JS.ge (JS.Fin (inject_Z plateWidth / inject_Z 50)) (JS.Fin 1.5)) eqn:E;
    cbn [andb]; [| contradiction].
  destruct (JS.le _ _); [| contradiction].
  intros [<- | []]. cbn [class bbox score].
  repeat split. simpl in E. apply Qle_bool_iff in E.
  unfold Qle in E. simpl in E. lia.
Qed.

(** X17. On an initialised detector [detectFromTensor] returns at most three
    detections.  Each is a ['license_plate'] whose box starts on the grid of
    25 pixels, is 50 pixels high and between 75 and 150 pixels wide, and lies
    inside the image; its score is a number above 0.2 and at most 0.95. *)
Theorem plate_detections_well_formed edgesOf img dets :
  detectFromTensor edgesOf true img = Ok dets ->
  (List.length dets <= 3)%nat /\
  Forall
    (fun d =>
       class d = "license_plate"%string /\
       exists (i j : nat) (w : Z) (q : Q),
         bbox d = (25 * Z.of_nat i, 25 * Z.of_nat j, w, 50) /\
         75 <= w <= 150 /\
         25 * Z.of_nat i + w <= width img /\
         25 * Z.of_nat j + 50 < height img /\
         score d = JS.Fin q /\ (0.2 < q)%Q /\ (q <= 0.95)%Q)
    dets.
Proof.
  unfold detectFromTensor. cbn [negb]. intros Hd. injection Hd as <-.
  destruct (edgesOf img) as [edgeData | e];
    [| split; [cbn; lia | constructor]].
  unfold detectionsFrom. split.
  - etransitivity.
    + apply length_flat_map_le. intros rg. unfold detectionOf.
      destruct (_ && _); cbn; lia.
    + rewrite length_firstn. lia.
  - apply Forall_forall. intros d Hin. rewrite in_flat_map in Hin.
    destruct Hin as [rg [Hrg Hin]].
    apply in_firstn, in_sort_region, in_scanRegions in Hrg.
    destruct Hrg as [[i Hi] [[j Hj] [Hx [Hy [_ Hdens]]]]].
    destruct (detectionOf_inv _ _ _ _ Hx Hy Hin) as [_ [Hc [Hw [Hb Hs]]]].
    split; [exact Hc |].
    destruct (capped_density (density rg)) as [q [Hq [Hq1 Hq2]]].
    exists i, j, (Z.min 150 (width img - x rg)), q.
    rewrite Hb, Hs, Hq, Hi, Hj. repeat split; try lia.
    + destruct (Qlt_le_dec 0.95 (density rg * 2)) as [Hc' | Hc'].
      * rewrite (Hq2 Hc'). reflexivity.
      * rewrite (Hq1 Hc'). Lqa.lra.
    + destruct (Qlt_le_dec 0.95 (density rg * 2)) as [Hc' | Hc'].
      * rewrite (Hq2 Hc'). apply Qle_refl.
      * rewrite (Hq1 Hc'). exact Hc'.
Qed.

(** *** The order of the detections *)

Local Abbreviation denser a b := (density b <= density a)%Q.

Lemma insert_sorted a l :
  ForallOrdPairs (fun a b => denser a b) l ->
  ForallOrdPairs (fun a b => denser a b) (insert a l).
Proof.
  induction l as [| b l IH]; intros Hs; cbn [insert].
  - constructor; constructor.
  - inversion Hs as [| ? ? Hb Hl]; subst.
    destruct (Qle_bool (density b - density a) 0) eqn:E; cbn [negb].
    + apply Qle_bool_iff in E. constructor; [| exact Hs].
      constructor; [Lqa.lra |].
      rewrite Forall_forall in Hb |- *. intros c Hc. specialize (Hb c Hc).
      cbv beta in Hb. Lqa.lra.
    + apply Qle_bool_false in E. constructor; [| apply IH; exact Hl].
      apply Forall_forall. intros c Hc. apply in_insert_region in Hc.
      destruct Hc as [-> | Hc]; [Lqa.lra |].
      rewrite Forall_forall in Hb. exact (Hb c Hc).
Qed.

Lemma sort_sorted l : ForallOrdPairs (fun a b => denser a b) (sort l).
Proof.
  induction l as [| a l IH]; cbn [sort fold_right]; [constructor |].
  apply insert_sorted. exact IH.
Qed.

Lemma firstn_ordered {A : Type} (R : A -> A -> Prop) n l :
  ForallOrdPairs R l -> ForallOrdPairs R (firstn n l).
Proof.
  revert l. induction n as [| n IH]; intros l Hl; [constructor |].
  destruct Hl as [| a l Ha Hl]; cbn [firstn]; [constructor |].
  constructor; [| apply IH; exact Hl].
  apply Forall_forall. intros c Hc. apply in_firstn in Hc.
  rewrite Forall_forall in Ha. exact (Ha c Hc).
Qed.

Lemma capped_monotone d1 d2 :
  (d2 <= d1)%Q ->
  JS.ge (JS.min (JS.mul (JS.Fin d1) (JS.Fin 2)) (JS.Fin 0.95))
        (JS.min (JS.mul (JS.Fin d2) (JS.Fin 2)) (JS.Fin 0.95)) = true.
Proof.
  intros Hle.
  destruct (capped_density d1) as [q1 [-> [Ha1 Hb1]]].
  destruct (capped_density d2) as [q2 [-> [Ha2 Hb2]]].
  apply ge_Fin.
  destruct (Qlt_le_dec 0.95 (d1 * 2)) as [H1 | H1];
    destruct (Qlt_le_dec 0.95 (d2 * 2)) as [H2 | H2];
    try rewrite (Hb1 H1); try rewrite (Ha1 H1);
    try rewrite (Hb2 H2); try rewrite (Ha2 H2); Lqa.lra.
Qed.

(** X18. The detections come in the order of their regions' densities:
    no detection has a higher score than one before it. *)
Theorem plate_detections_ordered edgesOf img dets :
  detectFromTensor edgesOf true img = Ok dets ->
  ForallOrdPairs (fun d1 d2 => JS.ge (score d1) (score d2) = true) dets.
Proof.
  unfold detectFromTensor. cbn [negb]. intros Hd. injection Hd as <-.
  destruct (edgesOf img) as [edgeData | e]; [| constructor].
  unfold detectionsFrom.
  set (regions := scanRegions edgeData (height img) (width img)).
  assert (Hsorted : ForallOrdPairs (fun a b => denser a b) (firstn 3 (sort regions)))
    by (apply firstn_ordered, sort_sorted).
  assert (Hin : forall rg, In rg (firstn 3 (sort regions)) ->
                           x rg < width img - 50 /\ y rg < height img - 50).
  { intros rg Hrg. apply in_firstn, in_sort_region, in_scanRegions in Hrg. tauto. }
  induction Hsorted as [| rg l Hrg Hl IH]; cbn [flat_map]; [constructor |].
  assert (Hrest : ForallOrdPairs (fun d1 d2 => JS.ge (score d1) (score d2) = true)
                                 (flat_map (detectionOf (height img) (width img)) l))
    by (apply IH; intros rg' H'; apply Hin; right; exact H').
  destruct (Hin rg (or_introl eq_refl)) as [Hx Hy].
  destruct (detectionOf (height img) (width img) rg) as [| d ds] eqn:Ed;
    [exact Hrest |].
  destruct (detectionOf_inv (height img) (width img) rg d Hx Hy) as [E [_ [_ [_ Hs]]]];
    [rewrite Ed; left; reflexivity |].
  rewrite Ed in E. injection E as ->. cbn [app].
  constructor; [| exact Hrest].
  apply Forall_forall. intros d' Hd'. rewrite in_flat_map in Hd'.
  destruct Hd' as [rg' [Hrg' Hd']].
  destruct (Hin rg' (or_intror Hrg')) as [Hx' Hy'].
  destruct (detectionOf_inv _ _ _ _ Hx' Hy' Hd') as [_ [_ [_ [_ Hs']]]].
  rewrite Hs, Hs'. apply capped_monotone.
  rewrite Forall_forall in Hrg. exact (Hrg rg' Hrg').
Qed.

(** *** When nothing is detected *)

Lemma nothing_in {A : Type} (l : list A) : (forall a, ~ In a l) -> l = [].
Proof.
  destruct l as [| a l]; [reflexivity |]. intros H. exfalso.
  apply (H a). left. reflexivity.
Qed.

Lemma fold_step_le {A : Type} (g : Q -> A -> Q) (c : Q) (l : list A) (a : Q) :
  (forall acc i, g acc i <= acc + c)%Q ->
  (fold_left g l a <= a + inject_Z (Z.of_nat (List.length l)) * c)%Q.
Proof.
  intros Hg. revert a. induction l as [| i l IH]; intros a.
  - cbn [fold_left List.length]. change (inject_Z (Z.of_nat 0)) with 0%Q.
    Lqa.lra.
  - cbn [fold_left List.length]. rewrite Nat2Z.inj_succ. unfold Z.succ.
    rewrite inject_Z_plus.
    apply Qle_trans with (g a i + inject_Z (Z.of_nat (List.length l)) * c)%Q;
      [apply IH |].
    specialize (Hg a i). change (inject_Z 1) with 1%Q.
    setoid_replace ((inject_Z (Z.of_nat (List.length l)) + 1) * c)%Q
      with (inject_Z (Z.of_nat (List.length l)) * c + c)%Q by ring.
    generalize dependent (inject_Z (Z.of_nat (List.length l)) * c)%Q.
    intros n _. Lqa.lra.
Qed.

(** Where no edge value exceeds 0.1, no region is dense enough. *)
Lemma quiet_density edgeData height width y x :
  Forall (fun v => (v <= 0.1)%Q) edgeData ->
  x < width - 50 -> y < height - 50 ->
  (regionDensity edgeData height width y x <= 0.1)%Q.
Proof.
  intros Hall Hx Hy. unfold regionDensity. change regionSize with 50.
  replace (Z.min 50 (width - x)) with 50 by lia.
  replace (Z.min 50 (height - y)) with 50 by lia.
  match goal with
  | |- (fold_left ?g ?l ?a / _ <= _)%Q =>
      assert (Hsum : (fold_left g l a <= a + inject_Z (Z.of_nat (List.length l)) * 5)%Q)
  end.
  { apply fold_step_le. intros acc dy.
    match goal with
    | |- (fold_left ?g ?l ?a <= _)%Q =>
        apply Qle_trans
          with (a + inject_Z (Z.of_nat (List.length l)) * 0.1)%Q;
          [apply (fold_step_le g) |]
    end.
    - intros acc' dx. apply Qplus_le_r.
      apply (nthZ_Forall (fun v => (v <= 0.1)%Q)); [exact Hall | discriminate].
    - rewrite length_zrange. apply Qplus_le_r. discriminate. }
  rewrite length_zrange in Hsum.
  change (inject_Z (Z.of_nat (Z.to_nat (50 - 0)))) with 50%Q in Hsum.
  change (inject_Z (50 * 50)) with 2500%Q.
  unfold Qdiv. change (/ 2500)%Q with (1 # 2500)%Q. Lqa.lra.
Qed.

(** X19. What [detectFromTensor] and [detectFromImageUri] do when nothing can
    be found.  Both throw on a detector that is not initialised.  On an
    initialised one [detectFromImageUri] never throws: a file that cannot be
    decoded gives no detections, and a decoded one gives what
    [detectFromTensor] gives.  An error in the tensor operations gives no
    detections, and so does an image less than 75 pixels wide or at most 50
    pixels high. *)
Theorem plate_detector_soft_failures edgesOf img :
  (detectFromTensor edgesOf false img
   = Throw "Detector not initialized. Call initialize() first.") /\
  (forall decoded,
     detectFromImageUri edgesOf false decoded
     = Throw "Detector not initialized. Call initialize() first.") /\
  (forall e, detectFromImageUri edgesOf true (Throw e) = Ok []) /\
  detectFromImageUri edgesOf true (Ok img) = detectFromTensor edgesOf true img /\
  (exists dets, detectFromTensor edgesOf true img = Ok dets) /\
  (forall e, edgesOf img = Throw e -> detectFromTensor edgesOf true img = Ok []) /\
  (width img < 75 \/ height img <= 50 ->
   detectFromTensor edgesOf true img = Ok []).
Proof.
  repeat split.
  - eexists. reflexivity.
  - intros e He. unfold detectFromTensor. rewrite He. reflexivity.
  - intros Hsmall. unfold detectFromTensor. cbn [negb]. f_equal.
    destruct (edgesOf img) as [edgeData | e]; [| reflexivity].
    apply nothing_in. intros d Hin. unfold detectionsFrom in Hin.
    rewrite in_flat_map in Hin. destruct Hin as [rg [Hrg Hin]].
    apply in_firstn, in_sort_region, in_scanRegions in Hrg.
    destruct Hrg as [[i Hi] [[j Hj] [Hx [Hy _]]]].
    destruct (detectionOf_inv _ _ _ _ Hx Hy Hin) as [_ [_ [Hw _]]]. lia.
Qed.

(** X20. When the tensor operations give edge data in which no value
    exceeds 0.1, there is no detection: a region is kept only if its mean
    edge value exceeds 0.1. *)
Theorem quiet_image_no_plate edgesOf img edgeData :
  edgesOf img = Ok edgeData ->
  Forall (fun v => (v <= 0.1)%Q) edgeData ->
  detectFromTensor edgesOf true img = Ok [].
Proof.
  intros He Hall. unfold detectFromTensor. cbn [negb]. rewrite He. f_equal.
  apply nothing_in. intros d Hin. unfold detectionsFrom in Hin.
  rewrite in_flat_map in Hin. destruct Hin as [rg [Hrg _]].
  apply in_firstn, in_sort_region, in_scanRegions in Hrg.
  destruct Hrg as [_ [_ [Hx [Hy [Hd Hgt]]]]].
  pose proof (quiet_density edgeData _ _ _ _ Hall Hx Hy) as Hle.
  rewrite <- Hd in Hle. Lqa.lra.
Qed.

End PlateDetections.

Lemma plate_detections_well_formed_witness :
  exists dets,
    LicensePlateDetector.detectFromTensor Sample.allEdges true
      (Sample.solid 60 130 Sample.white) = Ok dets /\
    (List.length dets <= 3)%nat.
Proof.
  eexists. split; [vm_compute; reflexivity |].
  match goal with
  | |- (List.length ?dets <= 3)%nat =>
      assert (Hd : LicensePlateDetector.detectFromTensor Sample.allEdges true
                     (Sample.solid 60 130 Sample.white) = Ok dets)
        by (vm_compute; reflexivity)
  end.
  apply (plate_detections_well_formed _ _ _ Hd).
Defined.

Lemma plate_detections_ordered_witness :
  exists dets,
    LicensePlateDetector.detectFromTensor Sample.allEdges true
      (Sample.solid 60 130 Sample.white) = Ok dets /\
    ForallOrdPairs
      (fun d1 d2 => JS.ge (LicensePlateDetector.score d1)
                          (LicensePlateDetector.score d2) = true) dets.
Proof.
  eexists. split; [vm_compute; reflexivity |].
  match goal with
  | |- ForallOrdPairs _ ?dets =>
      assert (Hd : LicensePlateDetector.detectFromTensor Sample.allEdges true
                     (Sample.solid 60 130 Sample.white) = Ok dets)
        by (vm_compute; reflexivity)
  end.
  apply (plate_detections_ordered _ _ _ Hd).
Defined.

Lemma plate_detector_soft_failures_witness :
  LicensePlateDetector.detectFromTensor Sample.allEdges true
    (Sample.solid 60 60 Sample.white) = Ok [].
Proof.
  apply (plate_detector_soft_failures Sample.allEdges (Sample.solid 60 60 Sample.white)).
  left. cbn. lia.
Defined.

Lemma quiet_image_no_plate_witness :
  LicensePlateDetector.detectFromTensor (fun _ => Ok [0.1; 0.05; 0]%Q) true
    (Sample.solid 60 130 Sample.white) = Ok [].
Proof.
  apply (quiet_image_no_plate (fun _ => Ok [0.1; 0.05; 0]%Q)
           (Sample.solid 60 130 Sample.white) [0.1; 0.05; 0]%Q eq_refl).
  repeat constructor; discriminate.
Defined.

(** ** The history and the upload of [MainApp] *)

Section AppHistory.

Import App.

Lemma firstn_app_firstn {A : Type} n (l m : list A) :
  firstn n (l ++ firstn n m) = firstn n (l ++ m).
Proof.
  rewrite !firstn_app, firstn_firstn. do 2 f_equal. lia.
Qed.

Lemma handle_history st ev :
  history (handle st ev) = history st \/
  history (handle st ev) = [] \/
  exists result, ev = Capture (Ok result) /\ isServiceReady st = true /\
                 history (handle st ev) = firstn 50 (result :: history st).
Proof.
  destruct ev as [[result | e] | | | item]; cbn [handle].
  - unfold handleCapture. destruct (isServiceReady st) eqn:E; cbn [negb].
    + right. right. exists result. auto.
    + left. reflexivity.
  - unfold handleCapture. destruct (isServiceReady st); left; reflexivity.
  - left. reflexivity.
  - right. left. reflexivity.
  - left. reflexivity.
Qed.

(** X21. Whatever the handlers are called with, in whatever order, the
    history never grows beyond 50 entries, and each entry is an entry of the
    history at the start or the result of a capture that succeeded.  A
    ready app that only captures, with success, keeps the results newest
    first: the history is the first 50 of the results in reverse order
    followed by the old history. *)
Theorem history_keeps_last_fifty (events : list Event) (st : State) :
  (List.length (history st) <= 50)%nat ->
  (List.length (history (fold_left handle events st)) <= 50)%nat /\
  (forall item, In item (history (fold_left handle events st)) ->
                In item (history st) \/ In (Capture (Ok item)) events) /\
  (forall results,
     isServiceReady st = true ->
     events = map (fun result => Capture (Ok result)) results ->
     history (fold_left handle events st)
     = firstn 50 (List.rev results ++ history st)).
Proof.
  intros Hlen. split; [| split].
  - revert st Hlen. induction events as [| ev events IH]; intros st Hlen;
      cbn [fold_left]; [exact Hlen |].
    apply IH.
    destruct (handle_history st ev) as [-> | [-> | [result [_ [_ ->]]]]];
      [exact Hlen | cbn; lia | rewrite length_firstn; lia].
  - clear Hlen. revert st. induction events as [| ev events IH]; intros st item Hin;
      cbn [fold_left] in Hin; [left; exact Hin |].
    destruct (IH _ _ Hin) as [H | H]; [| right; right; exact H].
    destruct (handle_history st ev) as [E | [E | [result [-> [_ E]]]]];
      rewrite E in H.
    + left. exact H.
    + contradiction.
    + apply in_firstn in H. destruct H as [-> | H];
        [right; left; reflexivity | left; exact H].
  - intros results Hready ->. revert st Hready Hlen.
    induction results as [| result results IH]; intros st Hready Hlen;
      cbn [map fold_left List.rev app].
    + rewrite firstn_all2; [reflexivity | exact Hlen].
    + rewrite IH.
      * cbn [handle]. unfold handleCapture. rewrite Hready. cbn [negb history].
        rewrite firstn_app_firstn, <- app_assoc. reflexivity.
      * cbn [handle]. unfold handleCapture. rewrite Hready. reflexivity.
      * cbn [handle]. unfold handleCapture. rewrite Hready. cbn [negb history].
        rewrite length_firstn. lia.
Qed.


End AppHistory.

Lemma history_keeps_last_fifty_witness :
  App.history
    (fold_left App.handle
       [App.Capture (Ok Sample.plateOnly); App.Retake;
        App.Capture (Throw "Invalid JPEG"); App.Capture (Ok Sample.plateOnly)]
       Sample.started)
  = [Sample.plateOnly; Sample.plateOnly] /\
  (List.length
     (App.history
        (fold_left App.handle
           [App.Capture (Ok Sample.plateOnly); App.Retake;
            App.Capture (Throw "Invalid JPEG"); App.Capture (Ok Sample.plateOnly)]
           Sample.started)) <= 50)%nat.
Proof.
  split; [reflexivity |].
  assert (Hlen : (List.length (App.history Sample.started) <= 50)%nat) by (cbn; lia).
  apply (history_keeps_last_fifty _ Sample.started Hlen).
Defined.


(** ** The upload as it is shipped *)

Section ShippedUpload.

Import CloudUploadService.

(** The loop over an open [upload] is the loop of [uploadWithRetry] when the
    call is the one that asks the transport. *)
Lemma attemptsOver_transport (Payload : Type) transport left
      (payload : Payload) maxRetries attempt lastError w :
  attemptsOver Payload (upload Payload transport) left payload maxRetries
               attempt lastError w
  = attempts Payload transport left payload maxRetries attempt lastError w.
Proof.
  revert attempt lastError w.
  induction left as [| left IH]; intros attempt lastError w; cbn [attemptsOver attempts];
    [reflexivity |].
  destruct (upload Payload transport payload w) as [result w1].
  destruct (success result); [reflexivity |]. apply IH.
Qed.

(** X23. With [upload] as it is shipped, which waits 500 ms and then always
    answers with success, the retry loop with [maxRetries >= 1] returns after
    one call of [upload]: the only wait is the 500 ms of that call, there is
    no wait between attempts, and the job id is made from the clock at the
    call.  The loop is the one of [uploadWithRetry]. *)
Theorem shipped_upload_never_retries
        (Payload : Type) (now : nat -> Z) (payload : Payload) maxRetries w :
  1 <= maxRetries ->
  uploadWithRetryOver Payload (shippedUpload now) payload maxRetries w
  = (mkUpload true (Some ("job_" ++ decimal (now (calls w)))%string) None,
     mkWorld (S (calls w)) (delays w ++ [500])) /\
  (forall transport,
     uploadWithRetryOver Payload (upload Payload transport) payload maxRetries w
     = uploadWithRetry Payload transport payload maxRetries w).
Proof.
  intros Hmax. split.
  - unfold uploadWithRetryOver.
    destruct (Z.to_nat maxRetries) as [| n] eqn:E; [lia |]. reflexivity.
  - intros transport. apply attemptsOver_transport.
Qed.

End ShippedUpload.

Lemma shipped_upload_never_retries_witness :
  CloudUploadService.uploadWithRetryOver unit
    (CloudUploadService.shippedUpload (fun n => 1700000000000 + Z.of_nat n)) tt 3
    (CloudUploadService.mkWorld 0 [])
  = (CloudUploadService.mkUpload true (Some "job_1700000000000"%string) None,
     CloudUploadService.mkWorld 1 [500]).
Proof.
  assert (Hmax : 1 <= 3) by lia.
  apply (shipped_upload_never_retries unit
           (fun n => 1700000000000 + Z.of_nat n) tt 3
           (CloudUploadService.mkWorld 0 []) Hmax).
Defined.

(** ** Images of one colour *)

Section UniformField.

Import ImageProcessingService.

(** The image has [H] rows and [W] columns, and every entry of its grayscale
    field is [v]. *)
Variables H W : Z.
Variable v : Q.
Hypothesis H_pos : 0 < H.
Hypothesis W_pos : 0 < W.

Local Abbreviation gray := (repeat v (Z.to_nat (H * W))).

(** The field with its padding. *)
Local Abbreviation G y x :=
  (if (0 <=? y) && (y <? H) && (0 <=? x) && (x <? W) then v else 0%Q).

Lemma at_uniform y x : TF.at_ H W gray y x = G y x.
Proof.
  unfold TF.at_.
  destruct ((0 <=? y) && (y <? H) && (0 <=? x) && (x <? W)) eqn:E; [| reflexivity].
  rewrite !andb_true_iff in E. destruct E as [[[E1 E2] E3] E4].
  apply Z.leb_le in E1, E3. apply Z.ltb_lt in E2, E4.
  unfold nthZ. replace (y * W + x <? 0) with false by (symmetry; apply Z.ltb_ge; nia).
  transitivity (nth (Z.to_nat (y * W + x)) gray v).
  - apply nth_indep. rewrite repeat_length. nia.
  - apply nth_repeat.
Qed.

Ltac kernel_entries :=
  change (zrange 0 3) with [0; 1; 2]; cbn [fold_left];
  repeat match goal with
         | |- context [nthZ (nthZ ?k ?i []) ?j 0%Q] =>
             let e := eval vm_compute in (nthZ (nthZ k i []) j 0%Q) in
             change (nthZ (nthZ k i []) j 0%Q) with e
         end.

Ltac neighbours y x :=
  replace (y + 0 - 1) with (y - 1) by lia;
  replace (y + 1 - 1) with y by lia;
  replace (y + 2 - 1) with (y + 1) by lia;
  replace (x + 0 - 1) with (x - 1) by lia;
  replace (x + 1 - 1) with x by lia;
  replace (x + 2 - 1) with (x + 1) by lia.

Lemma sobelY_at h w data y x :
  TF.conv_at TF.sobelY h w data y x
  == TF.at_ h w data (y + 1) (x - 1) + 2 * TF.at_ h w data (y + 1) x
     + TF.at_ h w data (y + 1) (x + 1)
     - TF.at_ h w data (y - 1) (x - 1) - 2 * TF.at_ h w data (y - 1) x
     - TF.at_ h w data (y - 1) (x + 1).
Proof.
  unfold TF.conv_at, TF.sobelY. kernel_entries. neighbours y x. ring.
Qed.

Lemma laplacian_at h w data y x :
  TF.conv_at TF.laplacian h w data y x
  == TF.at_ h w data (y - 1) x + TF.at_ h w data y (x - 1)
     + TF.at_ h w data y (x + 1) + TF.at_ h w data (y + 1) x
     - 4 * TF.at_ h w data y x.
Proof.
  unfold TF.conv_at, TF.laplacian. kernel_entries. neighbours y x. ring.
Qed.

(** Decide the tests of [G] at a few places. *)
Ltac settle_G :=
  repeat match goal with
         | |- context [(?a <=? ?b)] =>
             first [ replace (a <=? b) with true by (symmetry; apply Z.leb_le; lia)
                   | replace (a <=? b) with false by (symmetry; apply Z.leb_gt; lia) ]
         | |- context [(?a <? ?b)] =>
             first [ replace (a <? b) with true by (symmetry; apply Z.ltb_lt; lia)
                   | replace (a <? b) with false by (symmetry; apply Z.ltb_ge; lia) ]
         end;
  cbn [andb].

(** Away from the left and the right border the horizontal kernel gives 0. *)
Lemma sobelX_inner y x :
  1 <= x <= W - 2 -> TF.conv_at TF.sobelX H W gray y x == 0.
Proof.
  intros Hx. rewrite sobelX_at, !at_uniform.
  replace (0 <=? x + 1) with true by (symmetry; apply Z.leb_le; lia).
  replace (x + 1 <? W) with true by (symmetry; apply Z.ltb_lt; lia).
  replace (0 <=? x - 1) with true by (symmetry; apply Z.leb_le; lia).
  replace (x - 1 <? W) with true by (symmetry; apply Z.ltb_lt; lia).
  rewrite !andb_true_r. ring.
Qed.

(** Away from the top and the bottom border the vertical kernel gives 0. *)
Lemma sobelY_inner y x :
  1 <= y <= H - 2 -> TF.conv_at TF.sobelY H W gray y x == 0.
Proof.
  intros Hy. rewrite sobelY_at, !at_uniform.
  replace (0 <=? y + 1) with true by (symmetry; apply Z.leb_le; lia).
  replace (y + 1 <? H) with true by (symmetry; apply Z.ltb_lt; lia).
  replace (0 <=? y - 1) with true by (symmetry; apply Z.leb_le; lia).
  replace (y - 1 <? H) with true by (symmetry; apply Z.ltb_lt; lia).
  cbn [andb]. ring.
Qed.

(** The Laplacian gives 0 inside, [-v] on the top and bottom rows away from
    the corners, and [-2 v] in the top left corner. *)
Lemma laplacian_inner y x :
  1 <= y <= H - 2 -> 1 <= x <= W - 2 ->
  TF.conv_at TF.laplacian H W gray y x == 0.
Proof.
  intros Hy Hx. rewrite laplacian_at, !at_uniform. settle_G. ring.
Qed.

Lemma laplacian_top_bottom y x :
  2 <= H -> y = 0 \/ y = H - 1 -> 1 <= x <= W - 2 ->
  TF.conv_at TF.laplacian H W gray y x == - v.
Proof.
  intros HH [-> | ->] Hx; rewrite laplacian_at, !at_uniform; settle_G; ring.
Qed.

Lemma laplacian_corner :
  2 <= H -> 2 <= W -> TF.conv_at TF.laplacian H W gray 0 0 == - (2 * v).
Proof.
  intros HH HW. rewrite laplacian_at, !at_uniform. settle_G. ring.
Qed.

(** The horizontal kernel on the left border, one row below the top. *)
Lemma sobelX_left :
  3 <= H -> 2 <= W -> TF.conv_at TF.sobelX H W gray 1 0 == 4 * v.
Proof.
  intros HH HW. rewrite sobelX_at, !at_uniform. settle_G. ring.
Qed.

End UniformField.

(** *** Counting along the border *)

Section BorderCounts.

Lemma NoDup_zrange lo hi : NoDup (zrange lo hi).
Proof.
  unfold zrange. generalize (Z.to_nat (hi - lo)) as n. generalize 0%nat as s.
  intros s n. revert s. induction n as [| n IH]; intros s; cbn [seq map];
    constructor; [| apply IH].
  rewrite in_map_iff. intros [k [E Hk]]. apply in_seq in Hk. lia.
Qed.

Lemma nthZ_map {A B : Type} (f : A -> B) (l : list A) (i : Z) (d : A) (d' : B) :
  0 <= i < Z.of_nat (List.length l) ->
  nthZ (map f l) i d' = f (nthZ l i d).
Proof.
  intros Hi. unfold nthZ.
  replace (i <? 0) with false by (symmetry; apply Z.ltb_ge; lia).
  transitivity (nth (Z.to_nat i) (map f l) (f d)).
  - apply nth_indep. rewrite length_map. lia.
  - apply map_nth.
Qed.

Lemma nthZ_combine {A B : Type} (l : list A) (l' : list B) (i : Z) (d : A) (d' : B) :
  List.length l = List.length l' ->
  nthZ (combine l l') i (d, d') = (nthZ l i d, nthZ l' i d').
Proof.
  intros Hlen. unfold nthZ. destruct (i <? 0); [reflexivity |].
  apply combine_nth. exact Hlen.
Qed.

Lemma length_conv2d k h w data :
  0 <= h -> 0 <= w -> Z.of_nat (List.length (TF.conv2d k h w data)) = h * w.
Proof.
  intros Hh Hw. unfold TF.conv2d.
  rewrite (length_rows _ (Z.to_nat w)).
  - rewrite length_zrange. nia.
  - intros y _. rewrite length_map, length_zrange. f_equal. lia.
Qed.

(** A loop that adds at most [c] per trip, and [extra] more on the trip at
    [special], adds at most [c] per trip and [extra] once. *)
Lemma fold_cost (g : Z -> Z -> Z) (c special extra : Z) (l : list Z) :
  0 <= extra -> NoDup l ->
  (forall d y, In y l -> g d y <= d + c + (if y =? special then extra else 0)) ->
  forall d,
    fold_left g l d <= d + c * Z.of_nat (List.length l) + extra /\
    (~ In special l -> fold_left g l d <= d + c * Z.of_nat (List.length l)).
Proof.
  intros Hextra. induction l as [| y l IH]; intros Hnd Hg d.
  - cbn. split; [lia | intros _; lia].
  - inversion Hnd as [| ? ? Hy Hnd']; subst.
    assert (Hg' : forall d y', In y' l ->
                    g d y' <= d + c + (if y' =? special then extra else 0))
      by (intros d' y' Hin; apply Hg; right; exact Hin).
    specialize (IH Hnd' Hg' (g d y)). destruct IH as [IH1 IH2].
    specialize (Hg d y (or_introl eq_refl)).
    cbn [fold_left List.length]. rewrite Nat2Z.inj_succ.
    destruct (y =? special) eqn:E.
    + apply Z.eqb_eq in E. subst y. specialize (IH2 Hy).
      split; [nia | intros Hn; exfalso; apply Hn; left; reflexivity].
    + split; [nia |]. intros Hn.
      assert (Hn' : ~ In special l) by (intros Hin; apply Hn; right; exact Hin).
      specialize (IH2 Hn'). nia.
Qed.

Variable mask : list bool.
Variables W H : Z.

(** The mask is set on the border only. *)
Hypothesis inner_clear :
  forall y x, 1 <= y <= H - 2 -> 1 <= x <= W - 2 ->
              nthZ mask (y * W + x) false = false.

(** A window that is too small to reach from one border to the other holds
    at most one border column and one border row. *)
Lemma countEdges_border sx sy rw rh :
  0 <= sx -> 0 <= sy -> 0 <= rw < W - 1 -> 0 <= rh < H - 1 ->
  ImageProcessingService.countEdges mask W H sx sy rw rh <= rw + rh.
Proof.
  intros Hsx Hsy Hrw Hrh. unfold ImageProcessingService.countEdges.
  set (xs := zrange sx (Z.min (sx + rw) W)).
  set (ys := zrange sy (Z.min (sy + rh) H)).
  set (row := fun (density y : Z) =>
                fold_left
                  (fun density0 x =>
                     if nthZ mask (y * W + x) false then density0 + 1 else density0)
                  xs density).
  assert (Hxs : Z.of_nat (List.length xs) <= rw)
    by (unfold xs; rewrite length_zrange; lia).
  assert (Hys : Z.of_nat (List.length ys) <= rh)
    by (unfold ys; rewrite length_zrange; lia).
  set (xb := if sx =? 0 then 0 else W - 1).
  set (yb := if sy =? 0 then 0 else H - 1).
  assert (Hrow : forall d y, In y ys ->
                   row d y <= d + 1 + (if y =? yb then rw else 0)).
  { intros d y Hy. unfold ys in Hy. apply in_zrange in Hy. unfold row.
    destruct (y =? yb) eqn:Eb.
    - (* a border row: every column may be set *)
      assert (Hall : fold_left
                       (fun density0 x =>
                          if nthZ mask (y * W + x) false
                          then density0 + 1 else density0) xs d
                     <= d + 1 * Z.of_nat (List.length xs) + 0).
      { apply (fold_cost _ 1 0 0); [lia | apply NoDup_zrange |].
        intros d' x _. destruct (nthZ mask (y * W + x) false), (x =? 0); lia. }
      lia.
    - (* a row inside: only the border column can be set *)
      apply Z.eqb_neq in Eb.
      assert (Hin : 1 <= y <= H - 2).
      { unfold yb in Eb. destruct (sy =? 0) eqn:E0.
        - apply Z.eqb_eq in E0. lia.
        - apply Z.eqb_neq in E0. lia. }
      assert (Hone : fold_left
                       (fun density0 x =>
                          if nthZ mask (y * W + x) false
                          then density0 + 1 else density0) xs d
                     <= d + 0 * Z.of_nat (List.length xs) + 1).
      { apply (fold_cost _ 0 xb 1); [lia | apply NoDup_zrange |].
        intros d' x Hx. unfold xs in Hx. apply in_zrange in Hx.
        destruct (nthZ mask (y * W + x) false) eqn:Em;
          [| destruct (x =? xb); lia].
        assert (Hx' : ~ 1 <= x <= W - 2).
        { intros Hc. rewrite (inner_clear y x Hin Hc) in Em. discriminate. }
        replace (x =? xb) with true; [lia |].
        symmetry. apply Z.eqb_eq. unfold xb. destruct (sx =? 0) eqn:E0.
        - apply Z.eqb_eq in E0. lia.
        - apply Z.eqb_neq in E0. lia. }
      lia. }
  fold xs. 
  change (fold_left row ys 0 <= rw + rh).
  destruct (fold_cost row 1 yb rw ys) with (d := 0) as [Hb _];
    [lia | apply NoDup_zrange | exact Hrow |].
  lia.
Qed.

End BorderCounts.

(** *** The vehicle detector on an image of one colour *)

Ltac open_binds H :=
  match type of H with
  | bind _ _ = Ok _ =>
      let x := fresh "x" in
      let Hx := fresh "Hx" in
      apply bind_inv in H; destruct H as [x [Hx H]]; open_binds Hx; open_binds H
  | TF.run _ _ _ = Ok ?x => apply run_inv in H; subst x
  | _ => idtac
  end.

Section UniformVehicle.

Import ImageProcessingService.

Lemma mean2_uniform img p :
  pixels img = repeat p (Z.to_nat (height img * width img)) ->
  TF.mean2 img
  = repeat (inject_Z (r p + g p + b p) / 3)%Q (Z.to_nat (height img * width img)).
Proof.
  intros Hpix. unfold TF.mean2. rewrite Hpix. apply map_repeat.
Qed.

(** A root of zero passes no positive threshold, whatever it is divided
    by. *)
Lemma zero_root_below q m c :
  q == 0 -> (0 <= c)%Q -> Surd.gtq (Surd.div (Surd.MSqrt q) m) c = false.
Proof.
  intros Hq Hc.
  assert (Hc' : Qle_bool 0 c = true) by (apply Qle_bool_iff; exact Hc).
  assert (Hcc : (0 <= c * c)%Q) by (apply Qmult_le_0_compat; exact Hc).
  destruct m as [| | y]; cbn [Surd.div Surd.gtq].
  - reflexivity.
  - rewrite Hc'. cbn [negb orb]. apply negb_false_iff, Qle_bool_iff. exact Hcc.
  - destruct (Qeq_bool y 0) eqn:Ey.
    + rewrite (Qeq_eq_bool _ _ Hq). reflexivity.
    + cbn [Surd.gtq]. rewrite Hc'. cbn [negb orb].
      apply negb_false_iff, Qle_bool_iff. rewrite Hq. unfold Qdiv.
      rewrite Qmult_0_l. exact Hcc.
Qed.

Variable img : Image.
(** The grayscale field of the image is [v] everywhere. *)
Variable v : Q.
Hypothesis uniform :
  TF.mean2 img = repeat v (Z.to_nat (height img * width img)).

Local Abbreviation W := (width img).
Local Abbreviation H := (height img).

(** Inside the image the mask is clear. *)
Lemma edgeMask_inner be mask y x :
  edgeMask be img = Ok mask ->
  1 <= y <= H - 2 -> 1 <= x <= W - 2 ->
  nthZ mask (y * W + x) false = false.
Proof.
  intros Hm Hy Hx. unfold edgeMask, gradientMagnitude in Hm. open_binds Hm.
  rewrite uniform.
  set (gxs := TF.conv2d TF.sobelX H W (repeat v (Z.to_nat (H * W)))).
  set (gys := TF.conv2d TF.sobelY H W (repeat v (Z.to_nat (H * W)))).
  assert (Hlx : Z.of_nat (List.length gxs) = H * W)
    by (apply length_conv2d; lia).
  assert (Hly : Z.of_nat (List.length gys) = H * W)
    by (apply length_conv2d; lia).
  assert (Hlen : Z.of_nat (List.length (TF.magnitude gxs gys)) = H * W)
    by (unfold TF.magnitude; rewrite length_map, length_combine; lia).
  assert (Hidx : 0 <= y * W + x < H * W) by nia.
  rewrite (nthZ_map _ _ _ (Surd.MSqrt 0)) by (rewrite length_map; lia).
  rewrite (nthZ_map _ _ _ (Surd.MSqrt 0)) by lia.
  unfold TF.magnitude.
  rewrite (nthZ_map _ _ _ (0%Q, 0%Q)) by (rewrite length_combine; lia).
  rewrite nthZ_combine by lia. cbn [fst snd].
  unfold gxs, gys. rewrite !conv2d_at by lia.
  apply zero_root_below; [| discriminate].
  rewrite (sobelX_inner H W v) by lia.
  rewrite (sobelY_inner H W v) by lia. reflexivity.
Qed.

(** From 112 by 112 pixels on, no window of the grid is dense enough. *)
Lemma vehicle_uniform be :
  112 <= W -> 112 <= H -> detectVehicleRegion be img W H = None.
Proof.
  intros HW HH. unfold detectVehicleRegion.
  destruct (edgeMask be img) as [mask | e] eqn:Hm; cbn [bind catch];
    [| reflexivity].
  assert (Hscan : JS.gt (fst (scan mask W H)) (JS.Fin 0.05) = false).
  { unfold scan.
    apply (fold_left_keeps
             (fun st : JS.num * BoundingBox => JS.gt (fst st) (JS.Fin 0.05) = false));
      [| reflexivity].
    intros st gy Hgy Hst.
    apply (fold_left_keeps
             (fun st : JS.num * BoundingBox => JS.gt (fst st) (JS.Fin 0.05) = false));
      [| exact Hst].
    intros st' gx Hgx Hst'. apply in_zrange in Hgy, Hgx.
    change (gridSize - 2) with 6 in Hgy, Hgx.
    unfold visit.
    destruct (JS.gt (density mask W H gx gy) (fst st')); [| exact Hst'].
    cbn [fst]. unfold density, window. change gridSize with 8.
    cbn [bbox_x bbox_y bbox_width bbox_height].
    set (cw := W / 8). set (ch := H / 8).
    assert (Hcw : 14 <= cw /\ 8 * cw <= W) by (unfold cw; Z.div_mod_to_equations; lia).
    assert (Hch : 14 <= ch /\ 8 * ch <= H) by (unfold ch; Z.div_mod_to_equations; lia).
    pose proof (countEdges_border mask W H
                  (fun y x => edgeMask_inner be mask y x Hm)) as Hcount.
    specialize (Hcount (gx * cw) (gy * ch) (cw * 3) (ch * 3)).
    pose proof (countEdges_nonneg mask W H (gx * cw) (gy * ch) (cw * 3) (ch * 3))
      as Hnn.
    set (count := countEdges mask W H (gx * cw) (gy * ch) (cw * 3) (ch * 3)) in *.
    assert (Hc : count <= cw * 3 + ch * 3) by (apply Hcount; nia).
    unfold JS.div, JS.ofZ.
    destruct (Qeq_bool (inject_Z (cw * 3 * (ch * 3))) 0) eqn:E0.
    { apply Qeq_bool_eq in E0. unfold Qeq in E0. simpl in E0. nia. }
    apply gt_Fin_false. apply Qle_shift_div_r.
    - unfold Qlt. simpl. nia.
    - assert (Harea : 20 * count <= cw * 3 * (ch * 3)).
      { assert (Hp : 0 <= (cw - 14) * (ch - 14)) by nia. nia. }
      revert Harea. generalize (cw * 3 * (ch * 3)). intros area Harea.
      unfold Qle, Qmult, inject_Z. cbn [Qnum Qden]. rewrite ?Pos2Z.inj_mul. lia. }
  unfold vehicleDecision. rewrite Hscan. reflexivity.
Qed.

End UniformVehicle.

(** *** Sums of normalized responses *)

Section ResponseSums.

Lemma Qfloor_plus_Z q (z : Z) : Qfloor (q + inject_Z z) = Qfloor q + z.
Proof.
  pose proof (Qfloor_le q) as H1. pose proof (Qlt_floor q) as H2.
  pose proof (Qfloor_le (q + inject_Z z)) as H3.
  pose proof (Qlt_floor (q + inject_Z z)) as H4.
  rewrite inject_Z_plus in H2, H4.
  assert (Ha : (inject_Z (Qfloor (q + inject_Z z)) < inject_Z (Qfloor q + z + 1))%Q)
    by (rewrite !inject_Z_plus; Lqa.lra).
  assert (Hb : (inject_Z (Qfloor q + z) < inject_Z (Qfloor (q + inject_Z z) + 1))%Q)
    by (rewrite !inject_Z_plus; Lqa.lra).
  rewrite <- Zlt_Qlt in Ha, Hb. lia.
Qed.

(** [t.max()] is a number that no entry exceeds. *)
Lemma max_bounds (l : list Q) :
  l <> [] ->
  exists M, TF.max l = JS.Fin M /\ forall x, In x l -> (x <= M)%Q.
Proof.
  destruct l as [| a l]; [contradiction |]. intros _. cbn [TF.max].
  eexists. split; [reflexivity |].
  revert a. induction l as [| b l IH]; intros a x Hin; cbn [fold_left].
  - destruct Hin as [<- | []]. apply Qle_refl.
  - destruct (Qle_bool a b) eqn:E.
    + apply Qle_bool_iff in E. destruct Hin as [<- | Hin].
      * apply Qle_trans with b; [exact E |]. apply IH. left. reflexivity.
      * apply IH. exact Hin.
    + apply Qle_bool_false in E. destruct Hin as [<- | [<- | Hin]].
      * apply IH. left. reflexivity.
      * apply Qle_trans with a; [apply Qlt_le_weak; exact E |].
        apply IH. left. reflexivity.
      * apply IH. right. exact Hin.
Qed.

Lemma nthZ_in_range {A : Type} (l : list A) (i : Z) (d : A) :
  0 <= i < Z.of_nat (List.length l) -> In (nthZ l i d) l.
Proof.
  intros Hi. unfold nthZ.
  replace (i <? 0) with false by (symmetry; apply Z.ltb_ge; lia).
  apply nth_In. lia.
Qed.

(** A loop that adds a number of at most [c] per trip, and [extra] more on
    the trip at [special]. *)
Lemma fold_cost_num {S : Type} (g : JS.num * S -> Z -> JS.num * S)
      (c extra : Q) (special : Z) (l : list Z) :
  (0 <= extra)%Q -> NoDup l ->
  (forall acc y q,
     In y l -> fst acc = JS.Fin q ->
     exists q', fst (g acc y) = JS.Fin q' /\
                (q' <= q + c + (if y =? special then extra else 0))%Q) ->
  forall acc q,
    fst acc = JS.Fin q ->
    exists q', fst (fold_left g l acc) = JS.Fin q' /\
               (q' <= q + c * inject_Z (Z.of_nat (List.length l)) + extra)%Q /\
               (~ In special l ->
                (q' <= q + c * inject_Z (Z.of_nat (List.length l)))%Q).
Proof.
  intros Hextra. induction l as [| y l IH]; intros Hnd Hg acc q Hacc.
  - exists q. cbn [fold_left List.length Z.of_nat].
    change (inject_Z 0) with 0%Q.
    split; [exact Hacc |]. split; [| intros _]; Lqa.lra.
  - inversion Hnd as [| ? ? Hy Hnd']; subst.
    assert (Hg' : forall acc y' q,
               In y' l -> fst acc = JS.Fin q ->
               exists q', fst (g acc y') = JS.Fin q' /\
                          (q' <= q + c + (if y' =? special then extra else 0))%Q)
      by (intros acc' y' q0 Hin; apply Hg; right; exact Hin).
    destruct (Hg acc y q (or_introl eq_refl) Hacc) as [q1 [E1 Hq1]].
    destruct (IH Hnd' Hg' (g acc y) q1 E1) as [q2 [E2 [Hq2 Hq2']]].
    exists q2. cbn [fold_left List.length]. rewrite Nat2Z.inj_succ.
    unfold Z.succ. rewrite inject_Z_plus. change (inject_Z 1) with 1%Q.
    split; [exact E2 |].
    clear IH Hg Hg'.
    set (n := inject_Z (Z.of_nat (List.length l))) in *.
    setoid_replace (c * (n + 1))%Q with (c * n + c)%Q by ring.
    set (cn := (c * n)%Q) in *. clearbody cn.
    destruct (y =? special) eqn:E.
    + apply Z.eqb_eq in E. subst y. specialize (Hq2' Hy).
      split; [Lqa.lra |]. intros Hn. exfalso. apply Hn. left. reflexivity.
    + split; [Lqa.lra |]. intros Hn.
      assert (Hn' : ~ In special l) by (intros Hin; apply Hn; right; exact Hin).
      specialize (Hq2' Hn'). Lqa.lra.
Qed.

Lemma flat_map_nil_in {A B : Type} (f : A -> list B) (l : list A) :
  (forall x, In x l -> f x = []) -> flat_map f l = [].
Proof.
  induction l as [| a l IH]; intros Hf; cbn [flat_map]; [reflexivity |].
  rewrite (Hf a (or_introl eq_refl)), IH; [reflexivity |].
  intros x Hx. apply Hf. right. exact Hx.
Qed.

End ResponseSums.

(** *** The plate detector on an image of one colour *)

Section UniformPlate.

Import ImageProcessingService.

(** A position [a + d] of a window of size [s] that starts at [a] and fits
    below [N]. *)
Lemma floor_window a d s (N : Z) :
  (0 <= a)%Q -> 0 <= d < Qceiling s -> (a < inject_Z N - s)%Q ->
  0 <= Qfloor a + d < N.
Proof.
  intros Ha Hd HN.
  pose proof (Qfloor_le a) as H1. pose proof (Qlt_floor a) as H2.
  pose proof (Qceiling_lt s) as H3.
  assert (Hd' : (inject_Z d <= inject_Z (Qceiling s - 1))%Q)
    by (rewrite <- Zle_Qle; lia).
  assert (Hlo : (inject_Z (-1) < inject_Z (Qfloor a))%Q).
  { rewrite inject_Z_plus in H2. change (inject_Z 1) with 1%Q in H2.
    change (inject_Z (-1)) with (-1)%Q. Lqa.lra. }
  assert (Hhi : (inject_Z (Qfloor a + d) < inject_Z N)%Q).
  { rewrite inject_Z_plus. Lqa.lra. }
  rewrite <- Zlt_Qlt in Hlo, Hhi. lia.
Qed.

Lemma div_pos_Fin x m :
  (0 < m)%Q -> JS.div (JS.Fin x) (JS.Fin m) = JS.Fin (x / m).
Proof.
  intros Hm. unfold JS.div.
  destruct (Qeq_bool m 0) eqn:E; [| reflexivity].
  apply Qeq_bool_eq in E. rewrite E in Hm. discriminate.
Qed.

Variable ed : list Q.
Variable M : Q.
Variables W H : Z.
Hypothesis M_pos : (0 < M)%Q.
Hypothesis ed_bounds :
  forall y x, 0 <= y < H -> 0 <= x < W ->
              (0 <= nthZ ed (y * W + x) 0 /\ nthZ ed (y * W + x) 0 <= M)%Q.
Hypothesis ed_inner :
  forall y x, 0 <= y < H -> 1 <= x <= W - 2 -> nthZ ed (y * W + x) 0%Q == 0.

(** The normalized response of a window sums to at most 1 per row: a row of
    the window meets at most one border column. *)
Lemma plateSums_uniform x y w h :
  (0 <= x)%Q -> (0 <= y)%Q ->
  (x < inject_Z W - w)%Q -> (y < inject_Z H - h)%Q ->
  Qceiling w <= W - 1 -> 0 <= Qceiling h ->
  exists q,
    fst (plateSums ed (JS.Fin M) W x y w h) = JS.Fin q /\
    (q <= inject_Z (Qceiling h))%Q.
Proof.
  intros Hx Hy HxW HyH Hw Hh. unfold plateSums.
  set (sp := if Qfloor x =? 0 then 0 else W - 1 - Qfloor x).
  match goal with
  | |- exists q, fst (fold_left ?g _ _) = _ /\ _ => set (row := g)
  end.
  destruct (fold_cost_num row 1 0 (-1) (zrange 0 (Qceiling h)))
    with (acc := (JS.Fin 0, 0)) (q := 0%Q) as [q [E [Hq _]]].
  - apply Qle_refl.
  - apply NoDup_zrange.
  - intros acc dy q Hdy Hacc. apply in_zrange in Hdy. unfold row.
    match goal with
    | |- exists q', fst (fold_left ?g _ _) = _ /\ _ => set (cell := g)
    end.
    destruct (fold_cost_num cell 0 1 sp (zrange 0 (Qceiling w)))
      with (acc := acc) (q := q) as [q' [E' [Hq' _]]].
    + discriminate.
    + apply NoDup_zrange.
    + intros acc' dx q0 Hdx Hacc'. apply in_zrange in Hdx. unfold cell.
      cbn [fst]. rewrite Hacc'. unfold edgeVal. rewrite !Qfloor_plus_Z.
      pose proof (floor_window y dy h H Hy Hdy HyH) as HY.
      pose proof (floor_window x dx w W Hx Hdx HxW) as HX.
      set (Y := Qfloor y + dy) in *. set (X := Qfloor x + dx) in *.
      rewrite div_pos_Fin by exact M_pos. cbn [JS.add].
      eexists. split; [reflexivity |].
      destruct (ed_bounds Y X HY HX) as [Hlo Hup].
      destruct (dx =? sp) eqn:Esp.
      * assert (Hone : (nthZ ed (Y * W + X) 0 / M <= 1)%Q).
        { apply Qle_shift_div_r; [exact M_pos |]. rewrite Qmult_1_l. exact Hup. }
        Lqa.lra.
      * apply Z.eqb_neq in Esp.
        assert (Hin : 1 <= X <= W - 2).
        { assert (Hfx : 0 <= Qfloor x)
            by (change 0 with (Qfloor 0); apply Qfloor_resp_le; exact Hx).
          unfold sp in Esp. unfold X in *. destruct (Qfloor x =? 0) eqn:E0.
          - apply Z.eqb_eq in E0. lia.
          - apply Z.eqb_neq in E0. lia. }
        rewrite (ed_inner Y X HY Hin). unfold Qdiv. rewrite Qmult_0_l.
        Lqa.lra.
    + exact Hacc.
    + exists q'. split; [exact E' |].
      revert Hq'. generalize (inject_Z (Z.of_nat (List.length (zrange 0 (Qceiling w))))).
      intros n Hq'. destruct (dy =? -1); Lqa.lra.
  - reflexivity.
  - exists q. split; [exact E |].
    rewrite length_zrange in Hq.
    replace (Z.of_nat (Z.to_nat (Qceiling h - 0))) with (Qceiling h) in Hq by lia.
    revert Hq. generalize (inject_Z (Qceiling h)). intros n Hq. Lqa.lra.
Qed.

(** No window is dense enough when a row and a threshold's worth of area
    compare as [h + 1 <= 0.15 w h]. *)
Lemma plateCandidate_uniform x y w h :
  (0 <= x)%Q -> (0 <= y)%Q ->
  (x < inject_Z W - w)%Q -> (y < inject_Z H - h)%Q ->
  (0 < w)%Q -> (0 < h)%Q ->
  (w <= inject_Z (W - 1))%Q -> (h + 1 <= 0.15 * (w * h))%Q ->
  plateCandidate ed (JS.Fin M) W w h y x = None.
Proof.
  intros Hx Hy HxW HyH Hw Hh HwW Harea. unfold plateCandidate.
  assert (Hcw : Qceiling w <= W - 1).
  { rewrite <- (Qceiling_Z (W - 1)). apply Qceiling_resp_le. exact HwW. }
  assert (Hch : 0 <= Qceiling h).
  { change 0 with (Qceiling 0). apply Qceiling_resp_le, Qlt_le_weak. exact Hh. }
  destruct (plateSums_uniform x y w h Hx Hy HxW HyH Hcw Hch) as [q [E Hq]].
  rewrite E.
  assert (Hwh : (0 < w * h)%Q) by (apply Qmult_lt_0_compat; assumption).
  rewrite div_pos_Fin by exact Hwh.
  assert (Hd : JS.gt (JS.Fin (q / (w * h))) (JS.Fin 0.15) = false).
  { apply gt_Fin_false. apply Qle_shift_div_r; [exact Hwh |].
    pose proof (Qceiling_lt h) as Hc.
    unfold Z.sub in Hc. rewrite inject_Z_plus in Hc.
    change (inject_Z (- (1))) with (- (1))%Q in Hc.
    revert Hq Hc Harea. generalize (inject_Z (Qceiling h)) (w * h)%Q.
    intros n a Hq Hc Harea. Lqa.lra. }
  rewrite Hd. reflexivity.
Qed.

End UniformPlate.

(** The two plate sizes leave room: a window is narrower than the image and
    a row weighs less than the density threshold. *)
Lemma plateSizes_room (W : Z) w h :
  112 <= W -> In (w, h) (ImageProcessingService.plateSizes W) ->
  (w <= inject_Z (W - 1))%Q /\ (h + 1 <= 0.15 * (w * h))%Q.
Proof.
  intros HW Hin.
  assert (Ht : (112 <= inject_Z W)%Q)
    by (change 112%Q with (inject_Z 112); rewrite <- Zle_Qle; exact HW).
  assert (Htt : (112 * inject_Z W <= inject_Z W * inject_Z W)%Q).
  { apply Qmult_le_compat_r; [exact Ht | Lqa.lra]. }
  unfold Z.sub. rewrite inject_Z_plus. change (inject_Z (- (1))) with (- (1))%Q.
  unfold ImageProcessingService.plateSizes in Hin.
  destruct Hin as [E | [E | []]]; injection E as <- <-;
    revert Ht Htt; generalize (inject_Z W); intros t Ht Htt.
  - split; [Lqa.lra |].
    setoid_replace (0.15 * (t * 0.25 * (t * 0.065)))%Q with (0.0024375 * (t * t))%Q
      by ring.
    revert Htt. generalize (t * t)%Q. intros tt Htt. Lqa.lra.
  - split; [Lqa.lra |].
    setoid_replace (0.15 * (t * 0.15 * (t * 0.075)))%Q with (0.0016875 * (t * t))%Q
      by ring.
    revert Htt. generalize (t * t)%Q. intros tt Htt. Lqa.lra.
Qed.

Section UniformPlateDetector.

Import ImageProcessingService.

Variable img : Image.
(** The grayscale field of the image is [v] everywhere. *)
Variable v : Q.
Hypothesis uniform :
  TF.mean2 img = repeat v (Z.to_nat (height img * width img)).

Local Abbreviation W := (width img).
Local Abbreviation H := (height img).

(** From 112 by 112 pixels on, no window of the plate search is dense
    enough. *)
Lemma plate_uniform be :
  112 <= W -> 112 <= H -> detectLicensePlateRegion be img W H None = None.
Proof.
  intros HW HH. unfold detectLicensePlateRegion.
  destruct (plateEdges be img) as [[ed m] | e] eqn:He; cbn [bind catch fst snd];
    [| reflexivity].
  assert (Hnil : plateCandidates ed m W H None = []).
  { unfold plateEdges in He. open_binds He. injection He as <- <-.
    rewrite uniform.
    set (gray := repeat v (Z.to_nat (H * W))).
    set (conv := TF.conv2d TF.sobelX H W gray).
    set (E := TF.abs conv).
    assert (Hlc : Z.of_nat (List.length conv) = H * W)
      by (apply length_conv2d; lia).
    assert (HlE : Z.of_nat (List.length E) = H * W)
      by (unfold E, TF.abs; rewrite length_map; exact Hlc).
    assert (Hat : forall y x, 0 <= y < H -> 0 <= x < W ->
                    nthZ E (y * W + x) 0%Q
                    = Qabs (TF.conv_at TF.sobelX H W gray y x)).
    { intros y x Hy Hx. unfold E, TF.abs.
      rewrite (nthZ_map _ _ _ 0%Q) by nia.
      unfold conv. rewrite conv2d_at by lia. reflexivity. }
    destruct (max_bounds E) as [M [EM HM]].
    { intros Hnil. rewrite Hnil in HlE. cbn in HlE. nia. }
    rewrite EM.
    destruct (Qlt_le_dec 0 M) as [Mpos | Mle].
    - assert (Hb : forall y x, 0 <= y < H -> 0 <= x < W ->
                     (0 <= nthZ E (y * W + x) 0 /\ nthZ E (y * W + x) 0 <= M)%Q).
      { intros y x Hy Hx. split.
        - rewrite Hat by assumption. apply Qabs_nonneg.
        - apply HM. apply nthZ_in_range. nia. }
      assert (Hi : forall y x, 0 <= y < H -> 1 <= x <= W - 2 ->
                     nthZ E (y * W + x) 0%Q == 0).
      { intros y x Hy Hx. rewrite Hat by lia. unfold gray.
        rewrite (sobelX_inner H W v) by lia. reflexivity. }
      pose proof (plateCandidate_uniform E M W H Mpos Hb Hi) as Hcand.
      unfold plateCandidates, plateSearch. cbv beta iota.
      apply flat_map_nil_in. intros [w h] Hsize. cbn [fst snd].
      destruct (in_plateSizes W w h ltac:(lia) Hsize) as [Hw Hh].
      destruct (plateSizes_room W w h HW Hsize) as [HwW Harea].
      apply flat_map_nil_in. intros y Hy. apply flat_map_nil_in. intros x Hx.
      apply qfor_bounds in Hy; [| Lqa.lra]. apply qfor_bounds in Hx; [| Lqa.lra].
      assert (Hy0 : (0 <= inject_Z (Qfloor (inject_Z H * 0.4)))%Q).
      { change 0%Q with (inject_Z 0). rewrite <- Zle_Qle.
        change 0 with (Qfloor 0). apply Qfloor_resp_le.
        apply Qmult_le_0_compat; [| discriminate].
        change 0%Q with (inject_Z 0). rewrite <- Zle_Qle. lia. }
      rewrite Hcand; [reflexivity | | | | | | | |]; try assumption;
        try (destruct Hx, Hy; Lqa.lra).
    - assert (Hall : Forall (Qeq 0) E).
      { apply Forall_forall. intros e He'. pose proof (HM e He') as Hle.
        unfold E, TF.abs in He'. apply in_map_iff in He'.
        destruct He' as [c [<- _]].
        apply Qle_antisym; [apply Qabs_nonneg |].
        apply Qle_trans with M; assumption. }
      unfold plateCandidates.
      destruct (plateSearch W H None) as [[[sx sy] ex] ey].
      apply flat_map_nil. intros [w h]. apply flat_map_nil. intros y.
      apply flat_map_nil. intros x. cbn [fst snd].
      rewrite plateCandidate_blank by exact Hall. reflexivity. }
  rewrite Hnil. reflexivity.
Qed.

End UniformPlateDetector.

(** *** Tallies of a loop *)

Section Tallies.

Local Abbreviation zsum g l := (fold_right Z.add 0 (map g l)).

(** A loop whose trip at [x] adds at most [c * b x] to the sum and [f x] to
    the count. *)
Lemma fold_tally {X : Type} (body : JS.num * Z -> X -> JS.num * Z)
      (c : Q) (b f : X -> Z) (l : list X) :
  (forall acc x q,
     In x l -> fst acc = JS.Fin q ->
     exists q', fst (body acc x) = JS.Fin q' /\
                (q' <= q + c * inject_Z (b x))%Q /\
                snd (body acc x) = snd acc + f x) ->
  forall acc q,
    fst acc = JS.Fin q ->
    exists q', fst (fold_left body l acc) = JS.Fin q' /\
               (q' <= q + c * inject_Z (zsum b l))%Q /\
               snd (fold_left body l acc) = snd acc + zsum f l.
Proof.
  induction l as [| x l IH]; intros Hb acc q Hacc.
  - exists q. cbn [fold_left map fold_right]. split; [exact Hacc |].
    split; [| lia]. change (inject_Z 0) with 0%Q.
    rewrite Qmult_0_r. Lqa.lra.
  - destruct (Hb acc x q (or_introl eq_refl) Hacc) as [q1 [E1 [Hq1 N1]]].
    destruct (IH (fun acc' x' q' Hin => Hb acc' x' q' (or_intror Hin))
                 (body acc x) q1 E1) as [q2 [E2 [Hq2 N2]]].
    exists q2. cbn [fold_left map fold_right]. split; [exact E2 |].
    split; [| lia]. rewrite inject_Z_plus.
    setoid_replace (c * (inject_Z (b x) + inject_Z (zsum b l)))%Q
      with (c * inject_Z (b x) + c * inject_Z (zsum b l))%Q by ring.
    revert Hq1 Hq2.
    generalize (c * inject_Z (b x))%Q (c * inject_Z (zsum b l))%Q.
    intros s t Hq1 Hq2. Lqa.lra.
Qed.

Lemma zsum_le {X : Type} (g h : X -> Z) (l : list X) :
  (forall k, In k l -> g k <= h k) -> zsum g l <= zsum h l.
Proof.
  induction l as [| x l IH]; intros Hgh; cbn [map fold_right]; [lia |].
  pose proof (Hgh x (or_introl eq_refl)).
  assert (zsum g l <= zsum h l) by (apply IH; intros k Hk; apply Hgh; right; exact Hk).
  lia.
Qed.

Lemma zsum_plus {X : Type} (g h : X -> Z) (l : list X) :
  zsum (fun k => g k + h k) l = zsum g l + zsum h l.
Proof.
  induction l as [| x l IH]; cbn [map fold_right]; [reflexivity |].
  cbn [map fold_right] in IH. lia.
Qed.

Lemma zsum_const {X : Type} (m : Z) (l : list X) :
  zsum (fun _ => m) l = m * Z.of_nat (List.length l).
Proof.
  induction l as [| x l IH]; cbn [map fold_right List.length]; [lia |].
  cbn [map fold_right] in IH. lia.
Qed.

(** A function that is [u] at [a] and 0 elsewhere sums to at most [u]. *)
Lemma zsum_spike (a u : Z) (l : list Z) :
  NoDup l -> 0 <= u ->
  zsum (fun k => if k =? a then u else 0) l <= u /\
  (~ In a l -> zsum (fun k => if k =? a then u else 0) l = 0).
Proof.
  intros Hnd Hu. induction l as [| x l IH]; cbn [map fold_right].
  - split; [lia | reflexivity].
  - inversion Hnd as [| ? ? Hx Hnd']; subst.
    destruct (IH Hnd') as [IH1 IH2].
    destruct (x =? a) eqn:E.
    + apply Z.eqb_eq in E. subst x. rewrite (IH2 Hx).
      split; [lia |]. intros Hn. exfalso. apply Hn. left. reflexivity.
    + split; [lia |]. intros Hn. rewrite IH2; [lia |].
      intros Hin. apply Hn. right. exact Hin.
Qed.

(** The share of the first and the last row of a disc.  Row [k] of the disc
    lies on row [p0 + k] of an image of [H] rows and holds [cnt k] cells;
    the first row is the shortest and the last is no longer than any row
    but the first. *)
Lemma border_share (cnt : Z -> Z) (n p0 H : Z) :
  7 <= n -> 112 <= H -> 0 <= p0 -> p0 + n <= H ->
  (forall k, 0 <= k < n -> 0 <= cnt k) ->
  (forall k, 0 <= k < n -> cnt 0 <= cnt k) ->
  (forall k, 1 <= k < n -> cnt (n - 1) <= cnt k) ->
  5 * zsum (fun k => if (p0 + k =? 0) || (p0 + k =? H - 1) then cnt k else 0)
           (zrange 0 n)
  <= zsum cnt (zrange 0 n).
Proof.
  intros Hn HH Hp0 Hfit Hnn Hfirst Hlast.
  set (rows := zrange 0 n).
  assert (Hlen : Z.of_nat (List.length rows) = n)
    by (unfold rows; rewrite length_zrange; lia).
  set (u := if p0 =? 0 then cnt 0 else 0).
  set (w := if p0 + n - 1 =? H - 1 then cnt (n - 1) else 0).
  assert (Hu : 0 <= u) by (unfold u; destruct (p0 =? 0); [apply Hnn |]; lia).
  assert (Hw : 0 <= w)
    by (unfold w; destruct (p0 + n - 1 =? H - 1); [apply Hnn |]; lia).
  assert (H1 : zsum (fun k => if (p0 + k =? 0) || (p0 + k =? H - 1)
                              then cnt k else 0) rows <= u + w).
  { apply Z.le_trans
      with (zsum (fun k => (if k =? 0 then u else 0)
                           + (if k =? n - 1 then w else 0)) rows).
    - apply zsum_le. intros k Hk. unfold rows in Hk. apply in_zrange in Hk.
      destruct (p0 + k =? 0) eqn:E0; cbn [orb].
      + apply Z.eqb_eq in E0.
        replace (k =? 0) with true by (symmetry; apply Z.eqb_eq; lia).
        replace k with 0 by lia. unfold u.
        replace (p0 =? 0) with true by (symmetry; apply Z.eqb_eq; lia).
        destruct (0 =? n - 1); lia.
      + destruct (p0 + k =? H - 1) eqn:E1.
        * apply Z.eqb_eq in E1.
          replace (k =? n - 1) with true by (symmetry; apply Z.eqb_eq; lia).
          replace k with (n - 1) by lia. unfold w.
          replace (p0 + n - 1 =? H - 1) with true
            by (symmetry; apply Z.eqb_eq; lia).
          destruct (n - 1 =? 0); lia.
        * destruct (k =? 0), (k =? n - 1); lia.
    - rewrite zsum_plus.
      destruct (zsum_spike 0 u rows (NoDup_zrange 0 n) Hu) as [S1 _].
      destruct (zsum_spike (n - 1) w rows (NoDup_zrange 0 n) Hw) as [S2 _].
      lia. }
  assert (H2 : cnt 0 * n <= zsum cnt rows).
  { rewrite <- Hlen, <- (zsum_const (cnt 0) rows). apply zsum_le.
    intros k Hk. unfold rows in Hk. apply in_zrange in Hk. apply Hfirst. lia. }
  assert (H3 : cnt (n - 1) * (n - 1) <= zsum cnt rows).
  { assert (Hs : cnt (n - 1) * n
                 <= zsum (fun k => cnt k + (if k =? 0 then cnt (n - 1) else 0)) rows).
    { rewrite <- Hlen at 2. rewrite <- (zsum_const (cnt (n - 1)) rows).
      apply zsum_le. intros k Hk. unfold rows in Hk. apply in_zrange in Hk.
      destruct (k =? 0) eqn:E.
      - apply Z.eqb_eq in E. subst k. pose proof (Hnn 0). lia.
      - apply Z.eqb_neq in E. pose proof (Hlast k). lia. }
    rewrite zsum_plus in Hs.
    destruct (zsum_spike 0 (cnt (n - 1)) rows (NoDup_zrange 0 n)) as [S1 _];
      [apply Hnn; lia |].
    lia. }
  pose proof (Hnn 0) as N0. pose proof (Hnn (n - 1)) as N1.
  pose proof (Hfirst (n - 1)) as F1.
  unfold u, w in H1.
  destruct (p0 =? 0) eqn:E0; destruct (p0 + n - 1 =? H - 1) eqn:E1;
    try apply Z.eqb_eq in E0; try apply Z.eqb_eq in E1; nia.
Qed.

End Tallies.

(** *** Loops with step 1 *)

Section UnitLoops.

Import ImageProcessingService.

Lemma zrange_cons lo hi : lo < hi -> zrange lo hi = lo :: zrange (lo + 1) hi.
Proof.
  intros Hlt. unfold zrange.
  replace (Z.to_nat (hi - lo)) with (S (Z.to_nat (hi - (lo + 1)))) by lia.
  cbn [seq map]. f_equal; [lia |].
  rewrite <- seq_shift, map_map. apply map_ext. intros k. lia.
Qed.

(** The positions of a loop with step 1 are [a], [a + 1], [a + 2], ... *)
Lemma qloop_unit a stop fuel v j :
  v == a + inject_Z j ->
  Forall2 Qeq (qloop fuel v stop 1)
          (map (fun k => (a + inject_Z k)%Q)
               (zrange j (j + Z.of_nat (List.length (qloop fuel v stop 1))))).
Proof.
  revert v j. induction fuel as [| fuel IH]; intros v j Hv; cbn [qloop].
  - rewrite zrange_nil by (cbn; lia). constructor.
  - destruct (Qle_bool stop v); cbn [negb].
    + rewrite zrange_nil by (cbn; lia). constructor.
    + cbn [List.length]. rewrite zrange_cons by lia. cbn [map].
      constructor; [exact Hv |].
      replace (j + Z.of_nat (S (List.length (qloop fuel (v + 1) stop 1))))
        with (j + 1 + Z.of_nat (List.length (qloop fuel (v + 1) stop 1))) by lia.
      apply IH. rewrite inject_Z_plus, Hv. change (inject_Z 1) with 1%Q. ring.
Qed.

Lemma qfor_unit a stop :
  Forall2 Qeq (qfor a stop 1)
          (map (fun k => (a + inject_Z k)%Q)
               (zrange 0 (Z.of_nat (List.length (qfor a stop 1))))).
Proof.
  apply (qloop_unit a stop (trips a stop 1) a 0).
  change (inject_Z 0) with 0%Q. ring.
Qed.

Lemma length_qloop fuel v stop step :
  (List.length (qloop fuel v stop step) <= fuel)%nat.
Proof.
  revert v. induction fuel as [| fuel IH]; intros v; cbn [qloop]; [apply Nat.le_refl |].
  destruct (Qle_bool stop v); cbn [negb List.length]; [lia |].
  specialize (IH (v + step)%Q). lia.
Qed.

(** The number of trips of a loop with step 1 over a nonempty range. *)
Lemma qfor_unit_length a stop :
  (a < stop)%Q ->
  let n := Z.of_nat (List.length (qfor a stop 1)) in
  (stop <= a + inject_Z n)%Q /\ (a + inject_Z (n - 1) < stop)%Q.
Proof.
  intros Hlt n. split.
  - pose proof (qfor_exits a stop 1 ltac:(reflexivity)) as He.
    fold n in He. rewrite Qmult_1_r in He. exact He.
  - pose proof (length_qloop (trips a stop 1) a stop 1) as Hl.
    fold (qfor a stop 1) in Hl. unfold trips in Hl.
    assert (E : ((stop - a) / 1 == stop - a)%Q) by (field).
    rewrite (Qceiling_comp _ _ E) in Hl.
    pose proof (Qceiling_lt (stop - a)) as Hc.
    assert (Hpos : 0 < Qceiling (stop - a)).
    { assert (Hq : (inject_Z 0 < inject_Z (Qceiling (stop - a)))%Q).
      { apply Qlt_le_trans with (stop - a)%Q; [| apply Qle_ceiling].
        change (inject_Z 0) with 0%Q. Lqa.lra. }
      rewrite <- Zlt_Qlt in Hq. exact Hq. }
    assert (Hn : (inject_Z (n - 1) <= inject_Z (Qceiling (stop - a) - 1))%Q)
      by (rewrite <- Zle_Qle; unfold n; lia).
    Lqa.lra.
Qed.

Lemma fold_left_Forall2 {A X : Type} (R : X -> X -> Prop) (f : A -> X -> A)
      (l l' : list X) :
  Forall2 R l l' ->
  (forall a x x', R x x' -> f a x = f a x') ->
  forall a, fold_left f l a = fold_left f l' a.
Proof.
  intros HF Hf. induction HF as [| x x' l l' Hx HF IH]; intros a; cbn [fold_left];
    [reflexivity |].
  rewrite (Hf a x x' Hx). apply IH.
Qed.

Lemma fold_left_mapped {A X Y : Type} (f : A -> Y -> A) (g : X -> Y) (l : list X) a :
  fold_left f (map g l) a = fold_left (fun a x => f a (g x)) l a.
Proof.
  revert a. induction l as [| x l IH]; intros a; cbn [map fold_left];
    [reflexivity | apply IH].
Qed.

(** [a * a <= b * b] when [a] lies between [- b] and [b]. *)
Lemma square_le a b : (- b <= a)%Q -> (a <= b)%Q -> (a * a <= b * b)%Q.
Proof.
  intros Hlo Hhi.
  assert (Hp : (0 <= (b - a) * (b + a))%Q)
    by (apply Qmult_le_0_compat; Lqa.lra).
  setoid_replace (b * b)%Q with (a * a + (b - a) * (b + a))%Q by ring.
  revert Hp. generalize ((b - a) * (b + a))%Q. intros t Ht. Lqa.lra.
Qed.

Lemma floor_between a (lo hi : Z) :
  (inject_Z lo <= a)%Q -> (a < inject_Z hi)%Q -> lo <= Qfloor a < hi.
Proof.
  intros Hlo Hhi. split.
  - rewrite <- (Qfloor_Z lo). apply Qfloor_resp_le. exact Hlo.
  - pose proof (Qfloor_le a) as Hf.
    assert (Hq : (inject_Z (Qfloor a) < inject_Z hi)%Q)
      by (apply Qle_lt_trans with a; assumption).
    rewrite <- Zlt_Qlt in Hq. exact Hq.
Qed.

End UnitLoops.

(** *** The logo detector on an image of one colour *)

Section UniformBlob.

Import ImageProcessingService.

Local Abbreviation zsum g l := (fold_right Z.add 0 (map g l)).

(** The response field: zero inside, and on the top and bottom rows at most
    half the maximum [M] (which the corners attain). *)
Variable rd : list Q.
Variable M : Q.
Variables W H : Z.
Hypothesis M_pos : (0 < M)%Q.
Hypothesis rd_inner :
  forall y x, 1 <= y <= H - 2 -> 1 <= x <= W - 2 -> nthZ rd (y * W + x) 0%Q == 0.
Hypothesis rd_half :
  forall y x, 0 <= y < H -> 1 <= x <= W - 2 -> (nthZ rd (y * W + x) 0 * 2 <= M)%Q.
Hypothesis H_large : 112 <= H.

(** The disc of radius [hs] around [(x, y)] lies inside the image, away from
    the left and the right border. *)
Variables x y hs : Q.
Hypothesis hs_pos : (0 < hs)%Q.
Hypothesis y_top : (hs <= y)%Q.
Hypothesis y_bottom : (y <= inject_Z H - hs)%Q.
Hypothesis x_left : (1 <= x - hs)%Q.
Hypothesis x_right : (x + hs <= inject_Z W - 1)%Q.

Local Abbreviation cell acc dy dx :=
  (if Surd.gtq (Surd.MSqrt (dx * dx + dy * dy)) hs then acc
   else
     if (Qfloor (x + dx) <? 0) || (Qfloor (y + dy) <? 0)
        || (W <=? Qfloor (x + dx)) || (H <=? Qfloor (y + dy))
     then acc
     else
       (JS.add (fst acc)
               (JS.div (JS.Fin (nthZ rd (Qfloor (y + dy) * W + Qfloor (x + dx)) 0%Q))
                       (JS.Fin M)),
        snd acc + 1)).

Local Abbreviation n := (Z.of_nat (List.length (qfor (- hs) hs 1))).
Local Abbreviation idx k := (- hs + inject_Z k)%Q.
Local Abbreviation skip k j :=
  (Surd.gtq (Surd.MSqrt (idx j * idx j + idx k * idx k)) hs).
Local Abbreviation cnt k :=
  (zsum (fun j => if skip k j then 0 else 1) (zrange 0 n)).

Lemma cell_comp (acc : JS.num * Z) dy dy' dx dx' :
  dy == dy' -> dx == dx' -> cell acc dy dx = cell acc dy' dx'.
Proof.
  intros Hy Hx.
  assert (E1 : Qle_bool (dx * dx + dy * dy) (hs * hs)
               = Qle_bool (dx' * dx' + dy' * dy') (hs * hs))
    by (rewrite Hx, Hy; reflexivity).
  assert (E2 : Qfloor (x + dx) = Qfloor (x + dx')) by (rewrite Hx; reflexivity).
  assert (E3 : Qfloor (y + dy) = Qfloor (y + dy')) by (rewrite Hy; reflexivity).
  cbn [Surd.gtq]. rewrite E1, E2, E3. reflexivity.
Qed.

(** The two loops of [blobSums], by the number of the trip. *)
Lemma blobSums_indexed :
  blobSums rd (JS.Fin M) W H x y hs
  = fold_left
      (fun acc k =>
         fold_left (fun acc j => cell acc (idx k) (idx j)) (zrange 0 n) acc)
      (zrange 0 n) (JS.Fin 0, 0).
Proof.
  change (blobSums rd (JS.Fin M) W H x y hs)
    with (fold_left
            (fun acc dy => fold_left (fun acc dx => cell acc dy dx)
                                     (qfor (- hs) hs 1) acc)
            (qfor (- hs) hs 1) (JS.Fin 0, 0)).
  rewrite (fold_left_Forall2 Qeq _ _ _ (qfor_unit (- hs) hs)).
  - rewrite fold_left_mapped. apply fold_left_same. intros acc k _.
    rewrite (fold_left_Forall2 Qeq _ _ _ (qfor_unit (- hs) hs)).
    + rewrite fold_left_mapped. reflexivity.
    + intros a dx dx' Hdx. apply cell_comp; [reflexivity | exact Hdx].
  - intros a dy dy' Hdy. apply fold_left_same. intros a' dx _.
    apply cell_comp; [exact Hdy | reflexivity].
Qed.

Lemma idx_bounds k : 0 <= k < n -> (- hs <= idx k)%Q /\ (idx k < hs)%Q.
Proof.
  intros Hk.
  destruct (qfor_unit_length (- hs) hs) as [_ Hlast]; [Lqa.lra |].
  assert (H0 : (inject_Z 0 <= inject_Z k)%Q) by (rewrite <- Zle_Qle; lia).
  assert (H1 : (inject_Z k <= inject_Z (n - 1))%Q) by (rewrite <- Zle_Qle; lia).
  change (inject_Z 0) with 0%Q in H0. split; Lqa.lra.
Qed.

Lemma skip_false k j :
  skip k j = false <-> (idx j * idx j + idx k * idx k <= hs * hs)%Q.
Proof.
  cbn [Surd.gtq].
  replace (Qle_bool 0 hs) with true
    by (symmetry; apply Qle_bool_iff, Qlt_le_weak; exact hs_pos).
  cbn [negb orb]. rewrite negb_false_iff. apply Qle_bool_iff.
Qed.

(** A row nearer to the centre holds at least as many cells. *)
Lemma cnt_mono k1 k2 :
  (idx k2 * idx k2 <= idx k1 * idx k1)%Q -> cnt k1 <= cnt k2.
Proof.
  intros Hsq. apply zsum_le. intros j _.
  destruct (skip k1 j) eqn:E1; destruct (skip k2 j) eqn:E2; try lia.
  apply skip_false in E1.
  assert (E : skip k2 j = false).
  { apply skip_false. revert E1 Hsq.
    generalize (idx j * idx j)%Q (idx k1 * idx k1)%Q (idx k2 * idx k2)%Q (hs * hs)%Q.
    intros a b c d E1 Hsq. Lqa.lra. }
  rewrite E in E2. discriminate.
Qed.

Lemma cnt_nonneg k : 0 <= cnt k.
Proof.
  apply Z.le_trans with (zsum (fun _ : Z => 0) (zrange 0 n)).
  - rewrite zsum_const. lia.
  - apply zsum_le. intros j _. destruct (skip k j); lia.
Qed.

(** The normalized response over the disc is at most a tenth of the number
    of its cells: only the first and the last row of the disc can lie on
    the border of the image. *)
Lemma blobSums_uniform :
  7 <= n ->
  exists q,
    fst (blobSums rd (JS.Fin M) W H x y hs) = JS.Fin q /\
    (q * 10 <= inject_Z (snd (blobSums rd (JS.Fin M) W H x y hs)))%Q.
Proof.
  intros Hn. rewrite blobSums_indexed.
  destruct (qfor_unit_length (- hs) hs) as [Hexit Hlast]; [Lqa.lra |].
  set (p0 := Qfloor (y - hs)).
  assert (Hp0 : 0 <= p0).
  { unfold p0. change 0 with (Qfloor 0). apply Qfloor_resp_le. Lqa.lra. }
  assert (Hpy : forall k, Qfloor (y + idx k) = p0 + k).
  { intros k. unfold p0. rewrite <- Qfloor_plus_Z. apply Qfloor_comp. ring. }
  assert (Hfit : p0 + n <= H).
  { assert (Hq : (inject_Z (p0 + (n - 1)) < inject_Z H)%Q).
    { rewrite inject_Z_plus. pose proof (Qfloor_le (y - hs)) as Hf. fold p0 in Hf.
      Lqa.lra. }
    rewrite <- Zlt_Qlt in Hq. lia. }
  set (border := fun k => (p0 + k =? 0) || (p0 + k =? H - 1)).
  match goal with
  | |- exists q, fst (fold_left ?g _ _) = _ /\ _ => set (row := g)
  end.
  assert (Hrow : forall acc k q,
             In k (zrange 0 n) -> fst acc = JS.Fin q ->
             exists q', fst (row acc k) = JS.Fin q' /\
                        (q' <= q + (1 # 2) * inject_Z (if border k then cnt k else 0))%Q /\
                        snd (row acc k) = snd acc + cnt k).
  { intros acc k q Hk Hacc. apply in_zrange in Hk. unfold row.
    set (c := if border k then (1 # 2)%Q else 0%Q).
    destruct (fold_tally (fun acc j => cell acc (idx k) (idx j)) c
                         (fun j => if skip k j then 0 else 1)
                         (fun j => if skip k j then 0 else 1)
                         (zrange 0 n)) with (acc := acc) (q := q)
      as [q' [E' [Hq' N']]].
    - intros acc' j q0 Hj Hacc'. apply in_zrange in Hj.
      destruct (skip k j) eqn:Es.
      + exists q0. split; [exact Hacc' |]. split; [| lia].
        change (inject_Z 0) with 0%Q. rewrite Qmult_0_r. Lqa.lra.
      + destruct (idx_bounds j ltac:(lia)) as [Hj1 Hj2].
        assert (Hpx : 1 <= Qfloor (x + idx j) < W - 1).
        { apply floor_between.
          - change (inject_Z 1) with 1%Q. Lqa.lra.
          - unfold Z.sub. rewrite inject_Z_plus.
            change (inject_Z (- (1))) with (- (1))%Q. Lqa.lra. }
        rewrite Hpy. set (px := Qfloor (x + idx j)) in *.
        replace (px <? 0) with false by (symmetry; apply Z.ltb_ge; lia).
        replace (p0 + k <? 0) with false by (symmetry; apply Z.ltb_ge; lia).
        replace (W <=? px) with false by (symmetry; apply Z.leb_gt; lia).
        replace (H <=? p0 + k) with false by (symmetry; apply Z.leb_gt; lia).
        cbn [orb fst snd]. rewrite Hacc'. rewrite div_pos_Fin by exact M_pos.
        cbn [JS.add]. eexists. split; [reflexivity |]. split; [| reflexivity].
        change (inject_Z 1) with 1%Q. rewrite Qmult_1_r.
        apply Qplus_le_r. unfold c, border.
        destruct ((p0 + k =? 0) || (p0 + k =? H - 1)) eqn:Eb.
        * apply Qle_shift_div_r; [exact M_pos |].
          pose proof (rd_half (p0 + k) px ltac:(lia) ltac:(lia)) as Hh.
          revert Hh. generalize (nthZ rd ((p0 + k) * W + px) 0%Q). intros e Hh.
          Lqa.lra.
        * apply orb_false_iff in Eb. destruct Eb as [Eb0 Eb1].
          apply Z.eqb_neq in Eb0, Eb1.
          rewrite (rd_inner (p0 + k) px) by lia.
          unfold Qdiv. rewrite Qmult_0_l. apply Qle_refl.
    - exact Hacc.
    - exists q'. split; [exact E' |]. split; [| exact N'].
      unfold c in Hq'. destruct (border k); [exact Hq' |].
      change (inject_Z 0) with 0%Q. rewrite Qmult_0_r.
      rewrite Qmult_0_l in Hq'. exact Hq'. }
  destruct (fold_tally row (1 # 2) (fun k => if border k then cnt k else 0)
                       (fun k => cnt k) (zrange 0 n) Hrow (JS.Fin 0, 0) 0%Q eq_refl)
    as [q [E [Hq N]]].
  exists q. split; [exact E |]. rewrite N. cbn [snd]. rewrite Z.add_0_l.
  assert (Hshare : 5 * zsum (fun k => if border k then cnt k else 0) (zrange 0 n)
                   <= zsum (fun k => cnt k) (zrange 0 n)).
  { apply (border_share (fun k => cnt k) n p0 H); try assumption.
    - intros k _. apply cnt_nonneg.
    - intros k Hk. apply cnt_mono.
      destruct (idx_bounds k Hk) as [Hk1 Hk2].
      setoid_replace (idx 0)%Q with (- hs)%Q
        by (change (inject_Z 0) with 0%Q; ring).
      setoid_replace (- hs * - hs)%Q with (hs * hs)%Q by ring.
      apply square_le; Lqa.lra.
    - intros k Hk. apply cnt_mono.
      destruct (idx_bounds k ltac:(lia)) as [Hk1 Hk2].
      assert (H1 : (inject_Z 1 <= inject_Z k)%Q) by (rewrite <- Zle_Qle; lia).
      assert (H2 : (inject_Z k <= inject_Z (n - 1))%Q) by (rewrite <- Zle_Qle; lia).
      change (inject_Z 1) with 1%Q in H1.
      assert (H3 : (inject_Z (n - 1) == inject_Z n - 1)%Q).
      { unfold Z.sub. rewrite inject_Z_plus.
        change (inject_Z (- (1))) with (- (1))%Q. ring. }
      apply square_le; Lqa.lra. }
  rewrite Zle_Qle, inject_Z_mult in Hshare.
  change (inject_Z 5) with 5%Q in Hshare.
  revert Hq Hshare.
  generalize (inject_Z (zsum (fun k => if border k then cnt k else 0) (zrange 0 n))).
  generalize (inject_Z (zsum (fun k => cnt k) (zrange 0 n))).
  intros Nq Bq Hq Hshare. Lqa.lra.
Qed.

End UniformBlob.

Section UniformLogo.

Import ImageProcessingService.

Lemma half_of s : (s / 2 == s * (1 # 2))%Q.
Proof. field. Qed.

Variable rd : list Q.
Variable M : Q.
Variables W H : Z.
Hypothesis M_pos : (0 < M)%Q.
Hypothesis rd_inner :
  forall y x, 1 <= y <= H - 2 -> 1 <= x <= W - 2 -> nthZ rd (y * W + x) 0%Q == 0.
Hypothesis rd_half :
  forall y x, 0 <= y < H -> 1 <= x <= W - 2 -> (nthZ rd (y * W + x) 0 * 2 <= M)%Q.
Hypothesis W_large : 112 <= W.
Hypothesis H_large : 112 <= H.

(** The best candidate so far scores at most a tenth. *)
Local Abbreviation weak best :=
  (match best with
   | Some c => exists q, score c = JS.Fin q /\ (q <= 0.1)%Q
   | None => True
   end).

Lemma logoVisit_uniform s best y x :
  (0.06 * inject_Z W <= s)%Q -> (s <= 0.1 * inject_Z W)%Q ->
  (0.2 * inject_Z W <= x)%Q -> (x < 0.8 * inject_Z W)%Q ->
  weak best -> weak (logoVisit rd (JS.Fin M) W H s best y x).
Proof.
  intros Hs1 Hs2 Hx1 Hx2 Hbest.
  assert (Ht : (112 <= inject_Z W)%Q)
    by (change 112%Q with (inject_Z 112); rewrite <- Zle_Qle; exact W_large).
  pose proof (half_of s) as Hh.
  unfold logoVisit. cbv zeta.
  match goal with
  | |- context [if ?c then best else _] => destruct c eqn:Eskip; [exact Hbest |]
  end.
  apply orb_false_iff in Eskip. destruct Eskip as [Eskip E4].
  apply orb_false_iff in Eskip. destruct Eskip as [Eskip E3].
  apply orb_false_iff in Eskip. destruct Eskip as [E1 E2].
  apply negb_false_iff, Qle_bool_iff in E2. apply negb_false_iff, Qle_bool_iff in E4.
  destruct (blobSums_uniform rd M W H M_pos rd_inner rd_half H_large x y (s / 2))
    as [q [E Hq]].
  - rewrite Hh. Lqa.lra.
  - exact E2.
  - exact E4.
  - rewrite Hh. Lqa.lra.
  - rewrite Hh. Lqa.lra.
  - destruct (qfor_unit_length (- (s / 2)) (s / 2)) as [Hexit _];
      [rewrite Hh; Lqa.lra |].
    remember (Z.of_nat (List.length (qfor (- (s / 2)) (s / 2) 1))) as nz eqn:En.
    clear En.
    assert (Hq : (inject_Z 6 < inject_Z nz)%Q).
    { change (inject_Z 6) with 6%Q. rewrite Hh in Hexit. Lqa.lra. }
    rewrite <- Zlt_Qlt in Hq. lia.
  - set (sums := blobSums rd (JS.Fin M) W H x y (s / 2)) in *.
    destruct (0 <? snd sums) eqn:EN; [| exact Hbest].
    apply Z.ltb_lt in EN.
    assert (HN : (0 < inject_Z (snd sums))%Q)
      by (change 0%Q with (inject_Z 0); rewrite <- Zlt_Qlt; exact EN).
    rewrite E. unfold JS.ofZ. rewrite div_pos_Fin by exact HN.
    assert (Hscore : (q / inject_Z (snd sums) <= 0.1)%Q).
    { apply Qle_shift_div_r; [exact HN |].
      revert Hq. generalize (inject_Z (snd sums)). intros Nq Hq. Lqa.lra. }
    destruct best as [c |].
    + destruct (JS.gt (JS.Fin (q / inject_Z (snd sums))) (score c)).
      * cbn [score]. eexists. split; [reflexivity | exact Hscore].
      * exact Hbest.
    + cbn [score]. eexists. split; [reflexivity | exact Hscore].
Qed.

Lemma logoScan_uniform : weak (logoScan rd (JS.Fin M) W H None).
Proof.
  assert (Ht : (112 <= inject_Z W)%Q)
    by (change 112%Q with (inject_Z 112); rewrite <- Zle_Qle; exact W_large).
  unfold logoScan, logoSearch. cbv beta iota.
  apply (fold_left_keeps (fun best : option Candidate => weak best)); [| exact I].
  intros b1 s Hs H1.
  apply (fold_left_keeps (fun best : option Candidate => weak best)); [| exact H1].
  intros b2 y Hy H2.
  apply (fold_left_keeps (fun best : option Candidate => weak best)); [| exact H2].
  intros b3 x Hx H3.
  assert (Hsize : (0.06 * inject_Z W <= s)%Q /\ (s <= 0.1 * inject_Z W)%Q).
  { unfold logoSizes in Hs. destruct Hs as [<- | [<- | [<- | []]]]; split; Lqa.lra. }
  destruct Hsize as [Hs1 Hs2].
  apply qfor_bounds in Hx; [| Lqa.lra]. destruct Hx as [Hx1 Hx2].
  rewrite (half_of (inject_Z W)) in Hx1, Hx2.
  apply logoVisit_uniform; try assumption; Lqa.lra.
Qed.

End UniformLogo.

Section UniformLogoDetector.

Import ImageProcessingService.

Variable img : Image.
(** The grayscale field of the image is [v] everywhere. *)
Variable v : Q.
Hypothesis uniform :
  TF.mean2 img = repeat v (Z.to_nat (height img * width img)).

Local Abbreviation W := (width img).
Local Abbreviation H := (height img).

(** From 112 by 112 pixels on, no disc of the logo search responds
    enough. *)
Lemma logo_uniform be :
  112 <= W -> 112 <= H -> detectLogoRegion be img W H None = None.
Proof.
  intros HW HH. unfold detectLogoRegion.
  destruct (logoResponse be img) as [[rd m] | e] eqn:Hr; cbn [bind catch fst snd];
    [| reflexivity].
  unfold logoResponse in Hr. open_binds Hr. injection Hr as <- <-.
  rewrite uniform.
  set (gray := repeat v (Z.to_nat (H * W))).
  set (conv := TF.conv2d TF.laplacian H W gray).
  set (E := TF.abs conv).
  assert (Hlc : Z.of_nat (List.length conv) = H * W)
    by (apply length_conv2d; lia).
  assert (HlE : Z.of_nat (List.length E) = H * W)
    by (unfold E, TF.abs; rewrite length_map; exact Hlc).
  assert (Hat : forall y x, 0 <= y < H -> 0 <= x < W ->
                  nthZ E (y * W + x) 0%Q
                  = Qabs (TF.conv_at TF.laplacian H W gray y x)).
  { intros y x Hy Hx. unfold E, TF.abs.
    rewrite (nthZ_map _ _ _ 0%Q) by nia.
    unfold conv. rewrite conv2d_at by lia. reflexivity. }
  destruct (max_bounds E) as [M [EM HM]].
  { intros Hnil. rewrite Hnil in HlE. cbn in HlE. nia. }
  rewrite EM.
  destruct (Qlt_le_dec 0 M) as [Mpos | Mle].
  - assert (Hi : forall y x, 1 <= y <= H - 2 -> 1 <= x <= W - 2 ->
                   nthZ E (y * W + x) 0%Q == 0).
    { intros y x Hy Hx. rewrite Hat by lia. unfold gray.
      rewrite (laplacian_inner H W v) by lia. reflexivity. }
    assert (Hcorner : (Qabs v * 2 <= M)%Q).
    { assert (Hc : (nthZ E (0 * W + 0) 0 <= M)%Q)
        by (apply HM; apply nthZ_in_range; nia).
      rewrite Hat in Hc by lia. unfold gray in Hc.
      rewrite (laplacian_corner H W v) in Hc by lia.
      rewrite Qabs_opp, Qabs_Qmult in Hc. change (Qabs 2) with 2%Q in Hc.
      revert Hc. generalize (Qabs v). intros a Hc. Lqa.lra. }
    assert (Hh : forall y x, 0 <= y < H -> 1 <= x <= W - 2 ->
                   (nthZ E (y * W + x) 0 * 2 <= M)%Q).
    { intros y x Hy Hx. rewrite Hat by lia. unfold gray.
      destruct (Z.eq_dec y 0) as [E0 | E0];
        [| destruct (Z.eq_dec y (H - 1)) as [E1 | E1]].
      - rewrite (laplacian_top_bottom H W v) by lia. rewrite Qabs_opp. exact Hcorner.
      - rewrite (laplacian_top_bottom H W v) by lia. rewrite Qabs_opp. exact Hcorner.
      - rewrite (laplacian_inner H W v) by lia. change (Qabs 0) with 0%Q.
        Lqa.lra. }
    pose proof (logoScan_uniform E M W H Mpos Hi Hh HW HH) as Hscan.
    unfold logoDecision.
    destruct (logoScan E (JS.Fin M) W H None) as [best |]; [| reflexivity].
    destruct Hscan as [q [Eq Hq]]. rewrite Eq.
    replace (JS.gt (JS.Fin q) (JS.Fin 0.1)) with false
      by (symmetry; apply gt_Fin_false; exact Hq).
    reflexivity.
  - assert (Hall : Forall (Qeq 0) E).
    { apply Forall_forall. intros e He'. pose proof (HM e He') as Hle.
      unfold E, TF.abs in He'. apply in_map_iff in He'.
      destruct He' as [c [<- _]].
      apply Qle_antisym; [apply Qabs_nonneg |].
      apply Qle_trans with M; assumption. }
    pose proof (logoScan_blank E (JS.Fin M) W H None Hall) as Hscan.
    unfold logoDecision.
    destruct (logoScan E (JS.Fin M) W H None) as [best |]; [| reflexivity].
    rewrite (zero_or_nan_not_gt _ 0.1 Hscan) by discriminate. reflexivity.
Qed.

End UniformLogoDetector.

(** *** The three region detectors on uniform images *)

Section UniformClaims.

Import ImageProcessingService.


End UniformClaims.

